(** * An open-addressed, double-hashed hash table in C

    Shallow embedding of the hash table developed in [STRUCTURE.md]
    ([hash_table.c], [hash_table.h], [prime.c]) and of its properties.

    Conventions of the embedding.
    - C [int] is a 32-bit and C [long] a 64-bit two's complement integer;
      both are values of [Z] and every arithmetic operation that can leave
      the range is followed by [int32] or [long64].  [/] and [%] are the
      truncating [Z.quot] and [Z.rem].
    - A bucket of type [ht_item*] is [NULL], the address of the sentinel
      [HT_DELETED_ITEM], or a pointer to an item owning a key and a value.
    - Every [while] loop, and the call chain
      [ht_insert -> ht_resize_up -> ht_resize -> ht_insert], is bounded by a
      fuel argument; a run ends in [Ret x], [OutOfFuel] or [Fault]
      (array access outside the bucket array, division by zero, [free] of
      an object that [malloc] did not return).  Allocation is taken to
      succeed.
    - Each function is the last version given in [STRUCTURE.md]: a later
      listing that elides lines with [// ...] is completed with the lines of
      the previous listing of the same function. *)

From Stdlib Require Import ZArith Lia Ascii String.
From stdpp Require Import base list strings.

Local Open Scope Z_scope.

(** ** Machine integers *)

Definition wrap (w x : Z) : Z := (x + 2 ^ (w - 1)) mod 2 ^ w - 2 ^ (w - 1).

Definition int32 : Z -> Z := wrap 32.
Definition long64 : Z -> Z := wrap 64.

Definition INT_MAX : Z := 2 ^ 31 - 1.
Definition INT_MIN : Z := - 2 ^ 31.
Definition LONG_MIN : Z := - 2 ^ 63.

(** ** Outcome of a run *)

Inductive res (A : Type) : Type :=
| Ret (a : A)
| OutOfFuel
| Fault.

Arguments Ret {A} a.
Arguments OutOfFuel {A}.
Arguments Fault {A}.

Definition bind {A B : Type} (m : res A) (k : A -> res B) : res B :=
  match m with
  | Ret a => k a
  | OutOfFuel => OutOfFuel
  | Fault => Fault
  end.

Notation "'let*' x := m 'in' k" := (bind m (fun x => k))
  (at level 10, x name, m at level 100, k at level 200).

(** ** The string hash *)

(** [(long)pow(a, e)] for integers [a] and [e >= 0].  [pow] works on
    [double]: the exact power is rounded to 53 significant bits (round to
    nearest, ties to even).  A double outside the range of [long] has no
    defined conversion; it is given the value the x86-64 conversion
    instruction produces, [LONG_MIN]. *)

Definition round_double (x : Z) : Z :=
  let n := Z.abs x in
  let k := Z.log2 n - 52 in
  if k <=? 0 then x
  else
    let q := n / 2 ^ k in
    let r := n mod 2 ^ k in
    let half := 2 ^ (k - 1) in
    let q' := if r <? half then q
              else if half <? r then q + 1
              else if Z.even q then q else q + 1 in
    Z.sgn x * (q' * 2 ^ k).

Definition long_of_double (d : Z) : Z :=
  if (LONG_MIN <=? d) && (d <? 2 ^ 63) then d else LONG_MIN.

Definition pow_long (a e : Z) : Z := long_of_double (round_double (a ^ e)).

(** [s[i]], a [char] converted to [long].  Keys are ASCII: for the codes
    1 to 127 the value is the code whether [char] is signed or not. *)
Definition char_code (c : ascii) : Z := Z.of_N (N_of_ascii c).

(** A key the table supports: a C string (no NUL) of 7-bit characters. *)
Fixpoint is_ascii (s : string) : bool :=
  match s with
  | EmptyString => true
  | String c s' => (1 <=? char_code c) && (char_code c <=? 127) && is_ascii s'
  end.

Section HashWith.

(** The loop of [ht_hash] over any implementation [lpow] of
    [(long)pow(a, e)]. *)
Variable lpow : Z -> Z -> Z.

(** [for (i = 0; i < len_s; i++)
       { hash += (long)pow(a, len_s - (i+1)) * s[i]; hash = hash % m; }]
    as a recursion on the characters still to read: [len_s - (i+1)] is the
    number of characters after [s[i]]. *)
Fixpoint ht_hash_loop (s : string) (a m hash : Z) : Z :=
  match s with
  | EmptyString => hash
  | String c s' =>
      let e := Z.of_nat (String.length s') in
      let hash1 := long64 (hash + long64 (lpow a e * char_code c)) in
      ht_hash_loop s' a m (Z.rem hash1 m)
  end.

Definition ht_hash_with (s : string) (a m : Z) : Z :=
  int32 (ht_hash_loop s a m 0).

End HashWith.

Definition ht_hash : string -> Z -> Z -> Z := ht_hash_with pow_long.

(** The two bases of the double hash.  [HT_PRIME_1] and [HT_PRIME_2] are
    used by [ht_get_hash] but defined in no source file, so the embedding is
    parameterised by them. *)
Class hash_primes : Type := {
  HT_PRIME_1 : Z;
  HT_PRIME_2 : Z
}.

(** The bases of the worked example of the tutorial, [hash("cat", 151, 53)]
    and [hash("cat", 163, 53)]. *)
Definition tutorial_primes : hash_primes :=
  {| HT_PRIME_1 := 151; HT_PRIME_2 := 163 |}.

Definition ht_get_hash `{hash_primes} (s : string) (num_buckets attempt : Z) : Z :=
  let hash_a := ht_hash s HT_PRIME_1 num_buckets in
  let hash_b := ht_hash s HT_PRIME_2 num_buckets in
  Z.rem (int32 (hash_a + int32 (attempt * int32 (hash_b + 1)))) num_buckets.

(** ** prime.c *)

(** [for (i = 3; i <= floor(sqrt((double) x)); i += 2)]: for a 32-bit [x]
    the double square root, rounded down, is the integer square root.  The
    loop leaves after at most [sqrt x] rounds, which is the fuel
    [is_prime] gives it. *)
Fixpoint is_prime_loop (n : nat) (x i : Z) : Z :=
  match n with
  | O => 1
  | S n' =>
      if i <=? Z.sqrt x then
        if Z.rem x i =? 0 then 0 else is_prime_loop n' x (int32 (i + 2))
      else 1
  end.

Definition is_prime (x : Z) : Z :=
  if x <? 2 then -1
  else if x <? 4 then 1
  else if Z.rem x 2 =? 0 then 0
  else is_prime_loop (Z.to_nat (Z.sqrt x)) x 3.

Fixpoint next_prime (n : nat) (x : Z) : res Z :=
  match n with
  | O => OutOfFuel
  | S n' => if is_prime x =? 1 then Ret x else next_prime n' (int32 (x + 1))
  end.

(** ** hash_table.h *)

Inductive ht_item : Type :=
| NULL
| HT_DELETED_ITEM
| Item (key value : string).

Record ht_hash_table : Type := {
  base_size : Z;
  size : Z;
  count : Z;
  items : list ht_item
}.

Global Instance ht_item_eq_dec : EqDecision ht_item.
Proof. solve_decision. Defined.

(** Modelled from the spec: the constant [HT_INITIAL_BASE_SIZE] is used by
    [ht_new] and [ht_resize] and defined in no source file; the spec and the
    tutorial text give the initial base size 50. *)
Definition HT_INITIAL_BASE_SIZE : Z := 50.

(** ** hash_table.c *)

Definition ht_new_sized (n : nat) (base : Z) : res ht_hash_table :=
  let* sz := next_prime n base in
  Ret {| base_size := base; size := sz; count := 0;
         items := replicate (Z.to_nat sz) NULL |}.

(** [ht_new] of the last listing.  The [ht_new] of [hash_table.c] sets
    [size] to 53 directly and builds the same table. *)
Definition ht_new (n : nat) : res ht_hash_table :=
  ht_new_sized n HT_INITIAL_BASE_SIZE.

(** [ht_del_item(item)] frees the key, the value and the item.  Called on
    the sentinel it frees two null pointers, which is harmless, and then
    [&HT_DELETED_ITEM], an object that was never allocated. *)
Definition ht_del_item (it : ht_item) : res unit :=
  match it with
  | Item _ _ => Ret tt
  | HT_DELETED_ITEM => Fault
  | NULL => Fault
  end.

(** The loop of [ht_del_hash_table]: [if (item != NULL) ht_del_item(item)]
    for every bucket. *)
Fixpoint del_items (l : list ht_item) : res unit :=
  match l with
  | [] => Ret tt
  | NULL :: l' => del_items l'
  | it :: l' => let* _ := ht_del_item it in del_items l'
  end.

Definition ht_del_hash_table (ht : ht_hash_table) : res unit :=
  del_items (items ht).

(** [ht->items[index]], read. *)
Definition bucket (ht : ht_hash_table) (index : Z) : res ht_item :=
  if index <? 0 then Fault
  else match items ht !! Z.to_nat index with
       | Some it => Ret it
       | None => Fault
       end.

(** [ht->items[index] = it]. *)
Definition store (ht : ht_hash_table) (index : Z) (it : ht_item) : ht_hash_table :=
  {| base_size := base_size ht; size := size ht; count := count ht;
     items := <[Z.to_nat index := it]> (items ht) |}.

Definition set_count (ht : ht_hash_table) (c : Z) : ht_hash_table :=
  {| base_size := base_size ht; size := size ht; count := c;
     items := items ht |}.

(** [ht->count * 100 / ht->size]. *)
Definition load (ht : ht_hash_table) : res Z :=
  if size ht =? 0 then Fault
  else Ret (Z.quot (int32 (count ht * 100)) (size ht)).

Section Table.

Context `{hash_primes}.

(** The [while (item != NULL)] loop of [ht_search]: [index] is the bucket
    to look at, [i] the attempt that follows. *)
Fixpoint search_loop (n : nat) (ht : ht_hash_table) (key : string)
    (index i : Z) : res (option string) :=
  match n with
  | O => OutOfFuel
  | S n' =>
      let* item := bucket ht index in
      match item with
      | NULL => Ret None
      | HT_DELETED_ITEM =>
          search_loop n' ht key (ht_get_hash key (size ht) i) (int32 (i + 1))
      | Item k v =>
          if String.eqb k key then Ret (Some v)
          else search_loop n' ht key (ht_get_hash key (size ht) i)
                 (int32 (i + 1))
      end
  end.

Definition ht_search (n : nat) (ht : ht_hash_table) (key : string)
    : res (option string) :=
  search_loop n ht key (ht_get_hash key (size ht) 0) 1.

(** The probe loop of [ht_insert], with the statements that follow it:
    an empty bucket ends the loop, the item is stored there and [count]
    is incremented; a bucket with the same key is overwritten and the
    function returns; a deleted bucket is stepped over.  This is the loop
    [while (cur_item != NULL)] of the listing that adds updates; it
    replaces the loop of the listing before it, which also stopped at a
    deleted bucket. *)
Fixpoint insert_loop (n : nat) (ht : ht_hash_table) (key value : string)
    (index i : Z) : res ht_hash_table :=
  match n with
  | O => OutOfFuel
  | S n' =>
      let* cur_item := bucket ht index in
      match cur_item with
      | NULL =>
          Ret (set_count (store ht index (Item key value))
                 (int32 (count ht + 1)))
      | HT_DELETED_ITEM =>
          insert_loop n' ht key value (ht_get_hash key (size ht) i)
            (int32 (i + 1))
      | Item k _ =>
          if String.eqb k key then Ret (store ht index (Item key value))
          else insert_loop n' ht key value (ht_get_hash key (size ht) i)
                 (int32 (i + 1))
      end
  end.

(** The [for] loop of [ht_resize]: every item of the old array is
    inserted into the new table by [ins]. *)
Fixpoint rehash (ins : ht_hash_table -> string -> string -> res ht_hash_table)
    (old : list ht_item) (new_ht : ht_hash_table) : res ht_hash_table :=
  match old with
  | [] => Ret new_ht
  | Item k v :: old' => let* new_ht' := ins new_ht k v in rehash ins old' new_ht'
  | _ :: old' => rehash ins old' new_ht
  end.

(** [ht_resize], over the insertion [ins] it calls.  After the loop [ht]
    takes [base_size], [count], [size] and [items] of [new_ht]; [new_ht]
    takes the old size and the old array and goes to
    [ht_del_hash_table]. *)
Definition resize_with
    (ins : ht_hash_table -> string -> string -> res ht_hash_table)
    (n : nat) (ht : ht_hash_table) (base : Z) : res ht_hash_table :=
  if base <? HT_INITIAL_BASE_SIZE then Ret ht
  else
    let* new_ht := ht_new_sized n base in
    let* new_ht := rehash ins (items ht) new_ht in
    let* _ := ht_del_hash_table ht in
    Ret new_ht.

(** [ht_insert] with its load check.  [ht_resize_up(ht)] is written with
    [resize_with], because [ht_resize] calls [ht_insert] in turn. *)
Fixpoint ht_insert (n : nat) (ht : ht_hash_table) (key value : string)
    : res ht_hash_table :=
  match n with
  | O => OutOfFuel
  | S n' =>
      let* l := load ht in
      let* ht1 := (if 70 <? l
              then resize_with (ht_insert n') n' ht (int32 (base_size ht * 2))
              else Ret ht) in
      insert_loop n' ht1 key value (ht_get_hash key (size ht1) 0) 1
  end.

Definition ht_resize (n : nat) (ht : ht_hash_table) (base : Z)
    : res ht_hash_table :=
  resize_with (ht_insert n) n ht base.

Definition ht_resize_up (n : nat) (ht : ht_hash_table) : res ht_hash_table :=
  ht_resize n ht (int32 (base_size ht * 2)).

Definition ht_resize_down (n : nat) (ht : ht_hash_table) : res ht_hash_table :=
  ht_resize n ht (Z.quot (base_size ht) 2).

(** The probe loop of [ht_delete] with the [ht->count--] that follows it.
    A bucket with the key is replaced by the sentinel and the loop goes
    on; only an empty bucket ends it. *)
Fixpoint delete_loop (n : nat) (ht : ht_hash_table) (key : string)
    (index i : Z) : res ht_hash_table :=
  match n with
  | O => OutOfFuel
  | S n' =>
      let* item := bucket ht index in
      match item with
      | NULL => Ret (set_count ht (int32 (count ht - 1)))
      | HT_DELETED_ITEM =>
          delete_loop n' ht key (ht_get_hash key (size ht) i) (int32 (i + 1))
      | Item k _ =>
          let ht' := if String.eqb k key
                     then store ht index HT_DELETED_ITEM else ht in
          delete_loop n' ht' key (ht_get_hash key (size ht) i) (int32 (i + 1))
      end
  end.

(** [ht_delete] with its load check, which comes first in the function. *)
Definition ht_delete (n : nat) (ht : ht_hash_table) (key : string)
    : res ht_hash_table :=
  let* l := load ht in
  let* ht1 := (if l <? 10 then ht_resize_down n ht else Ret ht) in
  delete_loop n ht1 key (ht_get_hash key (size ht1) 0) 1.

End Table.

(** ** Client sequences *)

(** A one-character key. *)
Definition key_of (c : nat) : string := String (ascii_of_nat c) EmptyString.

(** The one-character keys with codes [a, a+1, ..., a+len-1]. *)
Definition keys (a len : nat) : list string := map key_of (seq a len).

Section Clients.

Context `{hash_primes}.

(** [ht_insert(ht, k, "v")] for each key of a list, in order. *)
Fixpoint insert_all (n : nat) (ht : ht_hash_table) (ks : list string)
    : res ht_hash_table :=
  match ks with
  | [] => Ret ht
  | k :: ks' => let* ht' := ht_insert n ht k "v" in insert_all n ht' ks'
  end.

(** [ht_delete(ht, k)] for each key of a list, in order. *)
Fixpoint delete_all (n : nat) (ht : ht_hash_table) (ks : list string)
    : res ht_hash_table :=
  match ks with
  | [] => Ret ht
  | k :: ks' => let* ht' := ht_delete n ht k in delete_all n ht' ks'
  end.

(** [rounds] times [ht_insert(ht, key, "v"); ht_delete(ht, key)]. *)
Fixpoint churn (n : nat) (ht : ht_hash_table) (key : string) (rounds : nat)
    : res ht_hash_table :=
  match rounds with
  | O => Ret ht
  | S r =>
      let* ht1 := ht_insert n ht key "v" in
      let* ht2 := ht_delete n ht1 key in
      churn n ht2 key r
  end.

(** [ht_insert(ht, k1, v1); ht_insert(ht, k2, v2); ht_delete(ht, k1);
    ht_search(ht, k2)] on a table [ht]. *)
Definition tombstone_run (n : nat) (ht : ht_hash_table) (k1 v1 k2 v2 : string)
    : res (option string) :=
  let* t1 := ht_insert n ht k1 v1 in
  let* t2 := ht_insert n t1 k2 v2 in
  let* t3 := ht_delete n t2 k1 in
  ht_search n t3 k2.

(** [ht_insert(ht, key, value); ht_search(ht, key2)]. *)
Definition insert_then_search_run (n : nat) (ht : ht_hash_table)
    (key value key2 : string) : res (option string) :=
  let* t1 := ht_insert n ht key value in
  ht_search n t1 key2.

End Clients.

(** The tables a client can hold: built by [ht_new] and changed by
    [ht_insert], [ht_delete] and the resize they call. *)
Inductive reachable `{hash_primes} : ht_hash_table -> Prop :=
| reach_new n ht :
    ht_new n = Ret ht -> reachable ht
| reach_insert n ht key value ht' :
    reachable ht -> ht_insert n ht key value = Ret ht' -> reachable ht'
| reach_delete n ht key ht' :
    reachable ht -> ht_delete n ht key = Ret ht' -> reachable ht'
| reach_resize n ht base ht' :
    reachable ht -> INT_MIN <= base <= INT_MAX ->
    ht_resize n ht base = Ret ht' -> reachable ht'.

(** ** Predicates and tables of the statements *)

(** The one-character keys ["4"] (code 52) and ["i"] (code 105) hash to 52
    in a table of 53 buckets, whatever the base: [pow(a, 0)] is 1. *)
Definition degenerate (key : string) : Prop := key = "4" \/ key = "i".

(** Bucket 52 holds another key. *)
Definition blocked (ht : ht_hash_table) (key : string) : Prop :=
  size ht = 53 /\
  exists k v, bucket ht 52 = Ret (Item k v) /\ k <> key.

(** Where the probe of a degenerate key stands after [i - 1] attempts. *)
Definition spinning (index i : Z) : Prop :=
  (index = 52 /\ 1 <= i <= 40518559) \/ index < 0.

(** The table [ht_new()] returns, and the same table after
    [ht_insert(ht, key, value)] put a one-character key of hash 52 in it. *)
Definition empty_53 : ht_hash_table :=
  {| base_size := 50; size := 53; count := 0; items := replicate 53 NULL |}.

Definition single_53 (key value : string) : ht_hash_table :=
  {| base_size := 50; size := 53; count := 1;
     items := <[52%nat := Item key value]> (replicate 53 NULL) |}.

(** The invariant of the capacity: a prime, at least 53, with a base size
    that is a C [int]. *)
Definition capacity_ok (ht : ht_hash_table) : Prop :=
  Z.prime (size ht) /\ 53 <= size ht /\ INT_MIN <= base_size ht <= INT_MAX.

(** The number of buckets that hold an item. *)
Fixpoint live_items (l : list ht_item) : Z :=
  match l with
  | [] => 0
  | Item _ _ :: l' => 1 + live_items l'
  | _ :: l' => live_items l'
  end.

(** The base size stays a C [int] and never decreases in [ht_insert]. *)
Definition base_from (b : Z) (ht : ht_hash_table) : Prop :=
  b <= base_size ht /\ INT_MIN <= base_size ht <= INT_MAX.

(** The table after [ht_new()] and the insertion of the 38 one-character
    keys ["A"], ["B"], ..., ["f"], with the bases of the tutorial: 38 items
    in 53 buckets, a load of 71. *)
Definition full_53 : ht_hash_table :=
  Eval vm_compute in
    match (let* t0 := ht_new 8 in
           @insert_all tutorial_primes 8 t0 (keys 65 38)) with
    | Ret t => t
    | _ => empty_53
    end.

(** The table after [ht_new()] and [ht_insert(ht, "cat", "felix")], and
    the same table after [ht_delete(ht, "cat")], with the bases of the
    tutorial. *)
Definition cat_53 : ht_hash_table :=
  Eval vm_compute in
    match @ht_insert tutorial_primes 8 empty_53 "cat" "felix" with
    | Ret t => t
    | _ => empty_53
    end.

Definition cat_deleted_53 : ht_hash_table :=
  Eval vm_compute in
    match @ht_delete tutorial_primes 8 cat_53 "cat" with
    | Ret t => t
    | _ => empty_53
    end.

(** The table after [ht_new()], the insertion of the 38 keys ["A"], ...,
    ["f"] and [ht_delete(ht, "A")]: 37 items and one deleted bucket in 53
    buckets, a count of 37 and a load of 69.  The same table after
    [ht_insert(ht, "y", "v")]: 38 items, a load of 71. *)
Definition worn_53 : ht_hash_table :=
  Eval vm_compute in
    match @ht_delete tutorial_primes 8 full_53 "A" with
    | Ret t => t
    | _ => empty_53
    end.

Definition crowded_53 : ht_hash_table :=
  Eval vm_compute in
    match @ht_insert tutorial_primes 8 worn_53 "y" "v" with
    | Ret t => t
    | _ => empty_53
    end.

(** The table after [ht_new()], the insertion of the 39 keys ["A"], ...,
    ["g"], which grows it to 101 buckets, and 29 calls
    [ht_delete(ht, "0")] for a key that is not there: 39 items, no deleted
    bucket, a count of 10 and a load of 9. *)
Definition drifted_101 : ht_hash_table :=
  Eval vm_compute in
    match (let* t0 := ht_new 8 in
           let* t1 := @insert_all tutorial_primes 16 t0 (keys 65 39) in
           @delete_all tutorial_primes 16 t1 (replicate 29 "0"%string)) with
    | Ret t => t
    | _ => empty_53
    end.

(** A bucket that is not empty, and a bucket that holds an item with the
    given key. *)
Definition non_null (it : ht_item) : bool :=
  match it with
  | NULL => false
  | _ => true
  end.

Definition holds_key (key : string) (it : ht_item) : bool :=
  match it with
  | Item k _ => String.eqb k key
  | _ => false
  end.

(** No bucket is empty and none holds the key. *)
Definition full_without (ht : ht_hash_table) (key : string) : bool :=
  forallb (fun it => non_null it && negb (holds_key key it)) (items ht).

(** [ht'] answers searches that find [key] as [ht] does: the tables have
    the same capacity, and a bucket differs only where [ht] had no item
    with [key] and [ht'] has a tombstone or an item with another key. *)
Definition keeps (key : string) (ht ht' : ht_hash_table) : Prop :=
  size ht' = size ht /\
  forall j x, bucket ht j = Ret x ->
    exists x', bucket ht' j = Ret x' /\
      (x' = x \/
       (holds_key key x = false /\ non_null x' = true /\
        holds_key key x' = false)).

(** ** The probe sequence as the loops walk it *)

(** The three probe loops start at [(ht_get_hash(key, size, 0), 1)] and go
    from [(index, i)] to [(ht_get_hash(key, size, i), i + 1)];
    [probe_state key sz a] is the pair after [a] rounds. *)
Fixpoint probe_state `{hash_primes} (key : string) (sz : Z) (a : nat) : Z * Z :=
  match a with
  | O => (ht_get_hash key sz 0, 1)
  | S a' =>
      let i := snd (probe_state key sz a') in
      (ht_get_hash key sz i, int32 (i + 1))
  end.

Definition probe_index `{hash_primes} (key : string) (sz : Z) (a : nat) : Z :=
  fst (probe_state key sz a).

(** The first [a] buckets that the loops probe for [key] hold a tombstone
    or an item with another key. *)
Definition free_path `{hash_primes} (ht : ht_hash_table) (key : string)
    (a : nat) : Prop :=
  forall a', (a' < a)%nat ->
    exists x, bucket ht (probe_index key (size ht) a') = Ret x /\
              non_null x = true /\ holds_key key x = false.

(** Every item sits on the probe sequence of its key, behind buckets that
    are neither empty nor hold that key. *)
Definition placed `{hash_primes} (ht : ht_hash_table) : Prop :=
  forall j k v, bucket ht j = Ret (Item k v) ->
    exists a, probe_index k (size ht) a = j /\ free_path ht k a.

(** The table holds an item with this key and this value. *)
Definition stored (ht : ht_hash_table) (key value : string) : Prop :=
  Item key value ∈ items ht.

(** The keys of the items of a bucket array, in array order. *)
Fixpoint live_keys (l : list ht_item) : list string :=
  match l with
  | [] => []
  | Item k _ :: l' => k :: live_keys l'
  | _ :: l' => live_keys l'
  end.

(** The bucket array has [size] cells, and [size] is a positive [int]. *)
Definition array_ok (ht : ht_hash_table) : Prop :=
  length (items ht) = Z.to_nat (size ht) /\ 2 <= size ht.

(** [count] is the number of items in the array, the array has [size]
    buckets, and [size] is a C [int]. *)
Definition counted (ht : ht_hash_table) : Prop :=
  count ht = live_items (items ht) /\
  length (items ht) = Z.to_nat (size ht) /\ size ht <= INT_MAX.

(** [ht1] is the table that [ht_resize(ht, base)] builds from [ht]: the
    call returns [ht1]; the old array, which [ht_del_hash_table] frees,
    held no deleted bucket, and the new one holds none; [count] is the
    number of items of [ht1], whatever it was in [ht]; the capacity is a
    prime; the base size is not below [base], and it is [base], with the
    next prime as capacity, when the items of [ht] stay under the growth
    threshold of that capacity; the bindings of a table that a client can
    hold are kept. *)
Definition rebuilt `{hash_primes} (n : nat) (ht : ht_hash_table) (base : Z)
    (ht1 : ht_hash_table) : Prop :=
  ht_resize n ht base = Ret ht1 /\
  (HT_DELETED_ITEM ∉ items ht) /\ (HT_DELETED_ITEM ∉ items ht1) /\
  counted ht1 /\ capacity_ok ht1 /\ base <= base_size ht1 /\
  (exists p, next_prime n base = Ret p /\
     (live_items (items ht) * 100 < 71 * p -> 71 * p <= INT_MAX ->
      base_size ht1 = base /\ size ht1 = p)) /\
  (reachable ht -> forall k v, stored ht1 k v <-> stored ht k v).

(** ** The hash of the tutorial's pseudocode *)

(** [hash += (a ** (string_len - (i+1))) * char_code(string[i])] for every
    character, without reduction. *)
Fixpoint hash_sum (s : string) (a : Z) : Z :=
  match s with
  | EmptyString => 0
  | String c s' => a ^ Z.of_nat (String.length s') * char_code c + hash_sum s' a
  end.

(** [function hash(string, a, num_buckets)]: the sum, then
    [hash % num_buckets]. *)
Definition hash_pseudocode (s : string) (a m : Z) : Z := hash_sum s a mod m.

(** * Properties *)

(** ** Machine integers *)

Lemma wrap_small (w x : Z) :
  0 < w -> - 2 ^ (w - 1) <= x < 2 ^ (w - 1) -> wrap w x = x.
Proof.
  intros Hw Hx. unfold wrap.
  assert (Hp : 2 ^ w = 2 * 2 ^ (w - 1)).
  { rewrite <- Z.pow_succ_r by lia. f_equal. lia. }
  rewrite Z.mod_small; lia.
Qed.

Lemma wrap_range (w x : Z) :
  0 < w -> - 2 ^ (w - 1) <= wrap w x < 2 ^ (w - 1).
Proof.
  intros Hw. unfold wrap.
  assert (Hp : 2 ^ w = 2 * 2 ^ (w - 1)).
  { rewrite <- Z.pow_succ_r by lia. f_equal. lia. }
  assert (0 < 2 ^ (w - 1)) by (apply Z.pow_pos_nonneg; lia).
  pose proof (Z.mod_pos_bound (x + 2 ^ (w - 1)) (2 ^ w)). lia.
Qed.

Lemma int32_small (x : Z) : INT_MIN <= x <= INT_MAX -> int32 x = x.
Proof.
  unfold INT_MIN, INT_MAX. intros Hx. apply wrap_small; [lia|].
  change (2 ^ (32 - 1)) with (2 ^ 31). lia.
Qed.

Lemma int32_range (x : Z) : INT_MIN <= int32 x <= INT_MAX.
Proof.
  unfold INT_MIN, INT_MAX.
  pose proof (wrap_range 32 x ltac:(lia)) as Hr.
  change (2 ^ (32 - 1)) with (2 ^ 31) in Hr. unfold int32. lia.
Qed.

Lemma long64_small (x : Z) : - 2 ^ 63 <= x < 2 ^ 63 -> long64 x = x.
Proof.
  intros Hx. apply wrap_small; [lia|].
  change (2 ^ (64 - 1)) with (2 ^ 63). lia.
Qed.

(** ** prime.c *)

Lemma sqrt_int_bound (x : Z) : x <= INT_MAX -> Z.sqrt x <= 46340.
Proof.
  intros Hx. transitivity (Z.sqrt INT_MAX).
  - apply Z.sqrt_le_mono, Hx.
  - vm_compute. discriminate.
Qed.

(** A run of the trial-division loop that answers 1 has tried every odd
    candidate from [i] up to the square root. *)
Lemma is_prime_loop_sound (n : nat) (x i : Z) :
  3 <= i -> Z.odd i = true -> x <= INT_MAX ->
  Z.sqrt x < i + 2 * Z.of_nat n ->
  is_prime_loop n x i = 1 ->
  forall d, i <= d <= Z.sqrt x -> Z.odd d = true -> ~ (d | x).
Proof.
  revert i. induction n as [|n IH]; intros i Hi Hodd Hx Hfuel Hrun d Hd Hdodd.
  - lia.
  - simpl in Hrun.
    destruct (Z.leb_spec i (Z.sqrt x)) as [Hle|Hgt]; [|lia].
    destruct (Z.eqb_spec (Z.rem x i) 0) as [|Hrem]; [discriminate|].
    pose proof (sqrt_int_bound x Hx) as Hs.
    rewrite int32_small in Hrun by (unfold INT_MIN, INT_MAX; lia).
    destruct (Z.eq_dec d i) as [->|Hne].
    { intros Hdiv. apply Hrem. apply Z.rem_divide; [lia|exact Hdiv]. }
    destruct (Z.eq_dec d (i + 1)) as [->|Hne1].
    { rewrite Z.odd_add, Hodd in Hdodd. discriminate. }
    apply (IH (i + 2)); try assumption; try lia.
    rewrite Z.odd_add, Hodd. reflexivity.
Qed.

Lemma is_prime_sound (x : Z) : x <= INT_MAX -> is_prime x = 1 -> Z.prime x.
Proof.
  intros Hx Hrun. unfold is_prime in Hrun.
  destruct (Z.ltb_spec x 2) as [|H2]; [discriminate|].
  split; [lia|].
  intros n Hn [q Hq].
  destruct (Z.ltb_spec x 4) as [|H4].
  { assert (n = 2) by lia. subst n. lia. }
  destruct (Z.eqb_spec (Z.rem x 2) 0) as [|Hx2]; [discriminate|].
  assert (Hq1 : 1 < q < x) by nia.
  (* the smaller of the two factors is at most the square root *)
  assert (Hd : exists d, 1 < d /\ d * d <= x /\ (d | x)).
  { destruct (Z.le_ge_cases n q).
    - exists n. repeat split; [lia|nia|exists q; exact Hq].
    - exists q. repeat split; [lia|nia|exists n; lia]. }
  destruct Hd as (d & Hd1 & Hdd & Hdx).
  assert (Hds : d <= Z.sqrt x) by (apply Z.sqrt_le_square; lia).
  destruct (Z.odd d) eqn:Hodd.
  - assert (d <> 2) by (intros ->; discriminate).
    refine (is_prime_loop_sound _ x 3 _ _ Hx _ Hrun d _ Hodd Hdx);
      [lia|reflexivity| |lia].
    pose proof (Z.sqrt_nonneg x). lia.
  - apply Hx2. apply Z.rem_divide; [lia|].
    apply Z.divide_trans with d; [|exact Hdx].
    assert (He : Z.even d = true) by (rewrite Zeven.Zeven_odd_bool, Hodd; reflexivity).
    apply Z.even_spec in He as [k ->]. exists k. lia.
Qed.

Lemma is_prime_loop_complete (n : nat) (x i : Z) :
  Z.prime x -> x <= INT_MAX -> 3 <= i -> is_prime_loop n x i = 1.
Proof.
  intros [Hx Hp] Hmax. revert i.
  induction n as [|n IH]; intros i Hi; [reflexivity|].
  simpl. destruct (Z.leb_spec i (Z.sqrt x)) as [Hle|]; [|reflexivity].
  pose proof (Z.sqrt_lt_lin x Hx) as Hs.
  pose proof (sqrt_int_bound x Hmax) as Hb.
  destruct (Z.eqb_spec (Z.rem x i) 0) as [Hrem|].
  - exfalso. apply (Hp i); [lia|]. apply Z.rem_divide; [lia|exact Hrem].
  - rewrite int32_small by (unfold INT_MIN, INT_MAX; lia).
    apply IH. lia.
Qed.

(** [is_prime] answers 1 exactly on the primes. *)
Lemma is_prime_complete (x : Z) : Z.prime x -> x <= INT_MAX -> is_prime x = 1.
Proof.
  intros Hprime Hmax. pose proof Hprime as [Hx Hp]. unfold is_prime.
  destruct (Z.ltb_spec x 2); [lia|].
  destruct (Z.ltb_spec x 4); [reflexivity|].
  destruct (Z.eqb_spec (Z.rem x 2) 0) as [Hrem|].
  - exfalso. apply (Hp 2); [lia|]. apply Z.rem_divide; [lia|exact Hrem].
  - apply is_prime_loop_complete; [exact Hprime|exact Hmax|lia].
Qed.

Lemma is_prime_INT_MAX : is_prime INT_MAX = 1.
Proof. vm_compute. reflexivity. Qed.

Lemma next_prime_sound (n : nat) (x p : Z) :
  INT_MIN <= x <= INT_MAX -> next_prime n x = Ret p ->
  is_prime p = 1 /\ x <= p <= INT_MAX.
Proof.
  revert x. induction n as [|n IH]; intros x Hx Hrun; [discriminate|].
  simpl in Hrun.
  destruct (Z.eqb_spec (is_prime x) 1) as [Hp|Hnp].
  - injection Hrun as <-. split; [exact Hp|lia].
  - assert (x <> INT_MAX) by (intros ->; apply Hnp, is_prime_INT_MAX).
    rewrite int32_small in Hrun by (unfold INT_MIN, INT_MAX in *; lia).
    apply IH in Hrun; [|unfold INT_MIN, INT_MAX in *; lia].
    lia.
Qed.

Lemma next_prime_prime (n : nat) (x p : Z) :
  INT_MIN <= x <= INT_MAX -> next_prime n x = Ret p -> Z.prime p /\ x <= p.
Proof.
  intros Hx Hrun. apply next_prime_sound in Hrun as (Hp & Hle); [|exact Hx].
  split; [apply is_prime_sound; [lia|exact Hp]|lia].
Qed.

(** ** The string hash *)

Lemma round_double_exact (x : Z) : 0 <= x < 2 ^ 53 -> round_double x = x.
Proof.
  intros Hx. unfold round_double.
  destruct (Z.eq_dec x 0) as [->|Hne]; [reflexivity|].
  assert (Hl : Z.log2 (Z.abs x) < 53).
  { apply Z.log2_lt_pow2; [lia|]. rewrite Z.abs_eq; lia. }
  destruct (Z.leb_spec (Z.log2 (Z.abs x) - 52) 0); [reflexivity|lia].
Qed.

Lemma pow_long_exact (a e : Z) : 0 <= a ^ e < 2 ^ 53 -> pow_long a e = a ^ e.
Proof.
  intros Hx. unfold pow_long. rewrite round_double_exact by exact Hx.
  unfold long_of_double, LONG_MIN.
  assert (2 ^ 53 < 2 ^ 63) by (apply Z.pow_lt_mono_r; lia).
  destruct (Z.leb_spec (- 2 ^ 63) (a ^ e)); [|lia].
  destruct (Z.ltb_spec (a ^ e) (2 ^ 63)); [reflexivity|lia].
Qed.

Lemma is_ascii_cons (c : ascii) (s : string) :
  is_ascii (String c s) = true ->
  1 <= char_code c <= 127 /\ is_ascii s = true.
Proof.
  simpl. intros Hs.
  apply andb_true_iff in Hs as [Hc Hs].
  apply andb_true_iff in Hc as [H1 H2].
  apply Z.leb_le in H1, H2. auto.
Qed.

Section HashRange.

(** The range of the hash does not depend on what [(long)pow(a, e)] is
    once the power leaves the exactly representable integers: any [lpow]
    that is exact below [2 ^ 53] gives a hash in [[0, m)]. *)
Variable lpow : Z -> Z -> Z.
Hypothesis lpow_exact :
  forall a e, 0 <= e -> 0 <= a ^ e < 2 ^ 53 -> lpow a e = a ^ e.

Lemma hash_step_exact (a e c m hash : Z) :
  0 <= e -> 0 < a ^ e < 2 ^ 53 -> 1 <= c <= 127 -> 0 < m <= INT_MAX ->
  - m < hash < m -> (hash < 0 -> 2 ^ 31 <= a ^ e) ->
  0 <= Z.rem (long64 (hash + long64 (lpow a e * c))) m < m.
Proof.
  intros He Hp Hc Hm Hh Hneg. unfold INT_MAX in Hm.
  rewrite lpow_exact by lia.
  assert (E53 : 2 ^ 53 = 9007199254740992) by reflexivity.
  assert (E63 : 2 ^ 63 = 9223372036854775808) by reflexivity.
  assert (E31 : 2 ^ 31 = 2147483648) by reflexivity.
  set (X := a ^ e) in *.
  assert (HP : X <= X * c <= 127 * X) by nia.
  rewrite (long64_small (X * c)) by lia.
  rewrite long64_small by lia.
  apply Z.rem_bound_pos; lia.
Qed.

Lemma ht_hash_loop_range (s : string) (a m hash : Z) :
  is_ascii s = true -> 2 <= a <= 2 ^ 22 -> 0 < m <= INT_MAX ->
  - m < hash < m ->
  (hash < 0 ->
   1 <= Z.of_nat (String.length s) /\
   2 ^ 31 <= a ^ (Z.of_nat (String.length s) - 1)) ->
  0 <= ht_hash_loop lpow s a m hash < m.
Proof.
  intros Hs Ha Hm. revert hash Hs.
  induction s as [|c s IH]; intros hash Hs Hh Hneg.
  - simpl in *. lia.
  - apply is_ascii_cons in Hs as [Hc Hs].
    cbn [ht_hash_loop].
    set (e := Z.of_nat (String.length s)).
    assert (He : 0 <= e) by (subst e; lia).
    assert (Hlen : Z.of_nat (String.length (String c s)) - 1 = e).
    { subst e. cbn [String.length]. lia. }
    rewrite Hlen in Hneg.
    assert (Hpos : 0 < a ^ e) by (apply Z.pow_pos_nonneg; lia).
    destruct (Z.lt_ge_cases (a ^ e) (2 ^ 53)) as [Hlt|Hge].
    + pose proof (hash_step_exact a e (char_code c) m hash He
                    (conj Hpos Hlt) Hc Hm Hh) as Hstep.
      apply IH; [exact Hs| |]; [|lia].
      assert (0 <= Z.rem (long64 (hash + long64 (lpow a e * char_code c))) m < m).
      { apply Hstep. intros Hn. apply Hneg in Hn. lia. }
      lia.
    + assert (Hrem : forall x, - m < Z.rem x m < m).
      { intros x. pose proof (Z.rem_bound_abs x m ltac:(lia)). lia. }
      apply IH; [exact Hs|apply Hrem|]. intros _.
      assert (He1 : 1 <= e).
      { destruct (Z.eq_dec e 0) as [E|E]; [|lia].
        rewrite E in Hge. simpl in Hge. lia. }
      split; [exact He1|].
      destruct (Z.lt_ge_cases (a ^ (e - 1)) (2 ^ 31)) as [Hsmall|]; [|assumption].
      exfalso.
      assert (Hsplit : a ^ e = a * a ^ (e - 1)).
      { rewrite <- Z.pow_succ_r by lia. f_equal. lia. }
      assert (0 < a ^ (e - 1)) by (apply Z.pow_pos_nonneg; lia).
      assert (E53 : 2 ^ 53 = 2 ^ 22 * 2 ^ 31) by reflexivity.
      assert (E22 : 2 ^ 22 = 4194304) by reflexivity.
      assert (E31 : 2 ^ 31 = 2147483648) by reflexivity.
      nia.
Qed.

Lemma ht_hash_with_range (s : string) (a m : Z) :
  is_ascii s = true -> 2 <= a <= 2 ^ 22 -> 0 < m <= INT_MAX ->
  0 <= ht_hash_with lpow s a m < m.
Proof.
  intros Hs Ha Hm. unfold ht_hash_with.
  pose proof (ht_hash_loop_range s a m 0 Hs Ha Hm ltac:(lia) ltac:(lia)) as Hr.
  rewrite int32_small; [exact Hr|].
  unfold INT_MIN, INT_MAX in *. lia.
Qed.

End HashRange.

(** The hashes of [ht_get_hash] are bucket indices when the bases are
    small. *)
Lemma ht_hash_in_range (s : string) (a m : Z) :
  is_ascii s = true -> 2 <= a <= 2 ^ 22 -> 0 < m <= INT_MAX ->
  0 <= ht_hash s a m < m.
Proof.
  intros Hs Ha Hm.
  apply (ht_hash_with_range pow_long); try assumption.
  intros b e _ Hb. apply pow_long_exact, Hb.
Qed.

(** C7 (counterexample).  The contract read for every prime base fails: with
    the prime base 300000007 the first product [pow(a, 2) * s[0]] leaves
    the range of [long], and the final value is negative. *)
Lemma ht_hash_large_base_negative :
  ~ (forall (s : string) (a m : Z),
       is_ascii s = true -> Z.prime a -> a <= INT_MAX -> 0 < m <= INT_MAX ->
       0 <= ht_hash s a m < m).
Proof.
  intros Hall.
  specialize (Hall (String "g" (String "001" (String "001" EmptyString)))
                300000007 2147483647).
  assert (Hp : Z.prime 300000007).
  { apply is_prime_sound; [vm_compute; discriminate|vm_compute; reflexivity]. }
  assert (Hr : ht_hash (String "g" (String "001" (String "001" EmptyString)))
                 300000007 2147483647 = -133944091)
    by (vm_compute; reflexivity).
  rewrite Hr in Hall.
  assert (0 <= -133944091 < 2147483647); [|lia].
  apply Hall; [reflexivity|exact Hp|vm_compute; discriminate|].
  split; [reflexivity|vm_compute; discriminate].
Qed.

(** C7 (amended).  For every ASCII string [s], every base [a] with
    [2 <= a <= 2 ^ 22] (which covers the primes just above the alphabet size
    that the table uses) and every bucket count [0 < m <= INT_MAX],
    [ht_hash s a m] lies in [[0, m)].  The hash is a Rocq function of
    [(s, a, m)], hence deterministic and pure. *)
Theorem ht_hash_contract (s : string) (a m : Z) :
  is_ascii s = true -> 2 <= a <= 2 ^ 22 -> 0 < m <= INT_MAX ->
  0 <= ht_hash s a m < m.
Proof.
  intros Hs Ha Hm. unfold ht_hash.
  apply ht_hash_with_range; try assumption.
  intros b e _ Hb. apply pow_long_exact, Hb.
Qed.

Lemma ht_hash_contract_witness : 0 <= ht_hash "cat" 151 53 < 53.
Proof.
  apply (ht_hash_contract "cat" 151 53).
  - reflexivity.
  - split; vm_compute; discriminate.
  - split; [reflexivity|vm_compute; discriminate].
Defined.

(** The worked examples of the tutorial.  For the base 163 its text gives
    3; the function computes 21, which is [2646258 mod 53]. *)
Example ht_hash_cat_151 : ht_hash "cat" 151 53 = 5.
Proof. reflexivity. Qed.

Example ht_hash_cat_163 : ht_hash "cat" 163 53 = 21.
Proof. reflexivity. Qed.

(** ** Buckets *)

Lemma bucket_negative {ht : ht_hash_table} {index : Z} :
  index < 0 -> bucket ht index = Fault.
Proof.
  intros Hneg. unfold bucket.
  destruct (Z.ltb_spec index 0); [reflexivity|lia].
Qed.

Lemma bucket_inv (ht : ht_hash_table) (index : Z) (it : ht_item) :
  bucket ht index = Ret it ->
  0 <= index /\ items ht !! Z.to_nat index = Some it.
Proof.
  unfold bucket. destruct (Z.ltb_spec index 0); [discriminate|].
  destruct (items ht !! Z.to_nat index) as [x|]; [|discriminate].
  intros [= ->]. auto.
Qed.

Lemma bucket_store (ht : ht_hash_table) (j index : Z) (it x : ht_item) :
  bucket ht index = Ret x ->
  bucket (store ht j it) index = Ret x \/ bucket (store ht j it) index = Ret it.
Proof.
  intros Hb. apply bucket_inv in Hb as (Hpos & Hlook).
  unfold bucket, store. simpl.
  destruct (Z.ltb_spec index 0); [lia|].
  rewrite list_lookup_insert. case_decide; [right|left; rewrite Hlook]; reflexivity.
Qed.

Lemma bucket_store_same (ht : ht_hash_table) (index : Z) (it x : ht_item) :
  bucket ht index = Ret x -> bucket (store ht index it) index = Ret it.
Proof.
  intros Hb. apply bucket_inv in Hb as (Hpos & Hlook).
  unfold bucket, store. simpl.
  destruct (Z.ltb_spec index 0); [lia|].
  rewrite list_lookup_insert_eq; [reflexivity|].
  eapply lookup_lt_Some, Hlook.
Qed.

(** ** What the probe loops change *)

Section Shape.

Context `{hash_primes}.

Lemma insert_loop_shape (n : nat) (ht : ht_hash_table) (key value : string)
    (index i : Z) (ht' : ht_hash_table) :
  insert_loop n ht key value index i = Ret ht' ->
  base_size ht' = base_size ht /\ size ht' = size ht /\
  length (items ht') = length (items ht) /\
  (count ht' = count ht \/ count ht' = int32 (count ht + 1)).
Proof.
  revert index i. induction n as [|n IH]; intros index i Hrun; [discriminate|].
  simpl in Hrun.
  destruct (bucket ht index) as [[| |k v]| |]; simpl in Hrun; try discriminate.
  - injection Hrun as <-. simpl. rewrite length_insert. auto.
  - eapply IH, Hrun.
  - destruct (String.eqb k key).
    + injection Hrun as <-. simpl. rewrite length_insert. auto.
    + eapply IH, Hrun.
Qed.

Lemma delete_loop_shape (n : nat) (ht : ht_hash_table) (key : string)
    (index i : Z) (ht' : ht_hash_table) :
  delete_loop n ht key index i = Ret ht' ->
  base_size ht' = base_size ht /\ size ht' = size ht /\
  length (items ht') = length (items ht) /\
  count ht' = int32 (count ht - 1).
Proof.
  revert ht index i. induction n as [|n IH]; intros ht index i Hrun;
    [discriminate|].
  simpl in Hrun.
  destruct (bucket ht index) as [[| |k v]| |]; simpl in Hrun; try discriminate.
  - injection Hrun as <-. simpl. auto.
  - eapply IH, Hrun.
  - apply IH in Hrun. destruct (String.eqb k key); [|exact Hrun].
    simpl in Hrun. rewrite length_insert in Hrun. exact Hrun.
Qed.

(** A property of tables that [ins] keeps is kept by the loop of
    [ht_resize]. *)
Lemma rehash_preserves (P : ht_hash_table -> Prop)
    (ins : ht_hash_table -> string -> string -> res ht_hash_table)
    (old : list ht_item) (new_ht ht' : ht_hash_table) :
  (forall t k v t', P t -> ins t k v = Ret t' -> P t') ->
  P new_ht -> rehash ins old new_ht = Ret ht' -> P ht'.
Proof.
  intros Hins. revert new_ht.
  induction old as [|[| |k v] old IH]; intros new_ht HP Hrun; simpl in Hrun.
  - injection Hrun as <-. exact HP.
  - eapply IH; eassumption.
  - eapply IH; eassumption.
  - destruct (ins new_ht k v) as [t1| |] eqn:H1; simpl in Hrun;
      try discriminate.
    eapply IH; [|exact Hrun]. eapply Hins; eassumption.
Qed.

Lemma ht_resize_below_minimum (n : nat) (ht : ht_hash_table) (base : Z) :
  base < HT_INITIAL_BASE_SIZE -> ht_resize n ht base = Ret ht.
Proof.
  intros Hb. unfold ht_resize, resize_with.
  destruct (Z.ltb_spec base HT_INITIAL_BASE_SIZE); [reflexivity|lia].
Qed.

Lemma ht_insert_unfold (n : nat) (ht : ht_hash_table) (key value : string) :
  ht_insert (S n) ht key value =
  (let* l := load ht in
   let* ht1 := (if 70 <? l then ht_resize_up n ht else Ret ht) in
   insert_loop n ht1 key value (ht_get_hash key (size ht1) 0) 1).
Proof. reflexivity. Qed.

End Shape.

(** ** The capacity invariant *)


Lemma capacity_ok_shape (ht ht' : ht_hash_table) :
  base_size ht' = base_size ht -> size ht' = size ht ->
  capacity_ok ht -> capacity_ok ht'.
Proof. unfold capacity_ok. intros -> ->. auto. Qed.

Lemma ht_new_sized_inv (n : nat) (base : Z) (ht : ht_hash_table) :
  ht_new_sized n base = Ret ht ->
  exists p, next_prime n base = Ret p /\ base_size ht = base /\
            size ht = p /\ count ht = 0 /\
            items ht = replicate (Z.to_nat p) NULL.
Proof.
  unfold ht_new_sized. intros Hrun.
  destruct (next_prime n base) as [p| |]; simpl in Hrun; try discriminate.
  injection Hrun as <-. exists p. simpl. auto.
Qed.

Lemma ht_new_sized_capacity (n : nat) (base : Z) (ht : ht_hash_table) :
  HT_INITIAL_BASE_SIZE <= base <= INT_MAX ->
  ht_new_sized n base = Ret ht -> capacity_ok ht.
Proof.
  unfold HT_INITIAL_BASE_SIZE. intros Hb Hrun.
  apply ht_new_sized_inv in Hrun as (p & Hp & Hbase & Hsize & _).
  apply next_prime_sound in Hp as (Hprime & Hle);
    [|unfold INT_MIN, INT_MAX in *; lia].
  unfold capacity_ok. rewrite Hbase, Hsize.
  split; [apply is_prime_sound; [lia|exact Hprime]|].
  split; [|unfold INT_MIN, INT_MAX in *; lia].
  destruct (Z.eq_dec p 50) as [->|]; [discriminate|].
  destruct (Z.eq_dec p 51) as [->|]; [discriminate|].
  destruct (Z.eq_dec p 52) as [->|]; [discriminate|].
  lia.
Qed.

Section Capacity.

Context `{hash_primes}.

Lemma resize_with_capacity
    (ins : ht_hash_table -> string -> string -> res ht_hash_table)
    (n : nat) (ht : ht_hash_table) (base : Z) (ht' : ht_hash_table) :
  (forall t k v t', capacity_ok t -> ins t k v = Ret t' -> capacity_ok t') ->
  capacity_ok ht -> base <= INT_MAX ->
  resize_with ins n ht base = Ret ht' -> capacity_ok ht'.
Proof.
  intros Hins Hok Hb Hrun. unfold resize_with in Hrun.
  destruct (Z.ltb_spec base HT_INITIAL_BASE_SIZE) as [|Hge].
  - injection Hrun as <-. exact Hok.
  - destruct (ht_new_sized n base) as [new_ht| |] eqn:Hnew; simpl in Hrun;
      try discriminate.
    apply ht_new_sized_capacity in Hnew; [|lia].
    destruct (rehash ins (items ht) new_ht) as [ht1| |] eqn:Hre; simpl in Hrun;
      try discriminate.
    destruct (ht_del_hash_table ht); simpl in Hrun; try discriminate.
    injection Hrun as <-.
    eapply rehash_preserves; eassumption.
Qed.

Lemma ht_insert_capacity (n : nat) (ht : ht_hash_table) (key value : string)
    (ht' : ht_hash_table) :
  capacity_ok ht -> ht_insert n ht key value = Ret ht' -> capacity_ok ht'.
Proof.
  revert ht key value ht'.
  induction n as [|n IH]; intros ht key value ht' Hok Hrun; [discriminate|].
  simpl in Hrun.
  destruct (load ht) as [l| |]; simpl in Hrun; try discriminate.
  assert (Hstep : forall ht1, capacity_ok ht1 ->
            insert_loop n ht1 key value (ht_get_hash key (size ht1) 0) 1
            = Ret ht' -> capacity_ok ht').
  { intros ht1 Hok1 Hloop.
    apply insert_loop_shape in Hloop as (Hb & Hs & _).
    eapply capacity_ok_shape; eassumption. }
  destruct (70 <? l).
  - destruct (resize_with (ht_insert n) n ht (int32 (base_size ht * 2)))
      as [ht1| |] eqn:Hres; simpl in Hrun; try discriminate.
    apply (Hstep ht1); [|exact Hrun].
    eapply resize_with_capacity; [exact IH|exact Hok| |exact Hres].
    apply int32_range.
  - simpl in Hrun. apply (Hstep ht); assumption.
Qed.

Lemma ht_resize_capacity (n : nat) (ht : ht_hash_table) (base : Z)
    (ht' : ht_hash_table) :
  capacity_ok ht -> base <= INT_MAX ->
  ht_resize n ht base = Ret ht' -> capacity_ok ht'.
Proof.
  intros Hok Hb Hrun.
  eapply resize_with_capacity; [|exact Hok|exact Hb|exact Hrun].
  intros t k v t'. apply ht_insert_capacity.
Qed.

Lemma ht_delete_capacity (n : nat) (ht : ht_hash_table) (key : string)
    (ht' : ht_hash_table) :
  capacity_ok ht -> ht_delete n ht key = Ret ht' -> capacity_ok ht'.
Proof.
  intros Hok Hrun. unfold ht_delete in Hrun.
  destruct (load ht) as [l| |]; simpl in Hrun; try discriminate.
  assert (Hstep : forall ht1, capacity_ok ht1 ->
            delete_loop n ht1 key (ht_get_hash key (size ht1) 0) 1 = Ret ht' ->
            capacity_ok ht').
  { intros ht1 Hok1 Hloop.
    apply delete_loop_shape in Hloop as (Hb & Hs & _).
    eapply capacity_ok_shape; eassumption. }
  destruct (l <? 10).
  - destruct (ht_resize_down n ht) as [ht1| |] eqn:Hres; simpl in Hrun;
      try discriminate.
    apply (Hstep ht1); [|exact Hrun].
    unfold ht_resize_down in Hres.
    eapply ht_resize_capacity; [exact Hok| |exact Hres].
    destruct Hok as (_ & _ & Hb). unfold INT_MIN, INT_MAX in *.
    pose proof (Z.quot_rem' (base_size ht) 2) as Hq.
    pose proof (Z.rem_bound_abs (base_size ht) 2 ltac:(lia)) as Hr.
    lia.
  - simpl in Hrun. apply (Hstep ht); assumption.
Qed.

End Capacity.

(** C8.  The capacity of every table a client can hold -- fresh from
    [ht_new], or after any [ht_insert], [ht_delete] or [ht_resize] -- is a
    prime number, at least the capacity 53 of a new table. *)
Theorem capacity_invariant (hp : hash_primes) (ht : ht_hash_table) :
  reachable ht -> Z.prime (size ht) /\ 53 <= size ht.
Proof.
  intros Hreach.
  enough (Hok : capacity_ok ht) by (destruct Hok as (Hp & Hs & _); auto).
  induction Hreach as [n ht Hnew|n ht key value ht' _ IH Hrun
                      |n ht key ht' _ IH Hrun|n ht base ht' _ IH Hb Hrun].
  - eapply ht_new_sized_capacity; [|exact Hnew].
    unfold HT_INITIAL_BASE_SIZE, INT_MAX. lia.
  - eapply ht_insert_capacity; eassumption.
  - eapply ht_delete_capacity; eassumption.
  - eapply ht_resize_capacity; [exact IH| |exact Hrun]. lia.
Qed.

Lemma capacity_invariant_witness :
  @reachable tutorial_primes (single_53 "i" "x") /\
  Z.prime (size (single_53 "i" "x")) /\ 53 <= size (single_53 "i" "x").
Proof.
  assert (Hr : @reachable tutorial_primes (single_53 "i" "x")).
  { apply (reach_insert 8 empty_53 "i" "x").
    - apply (reach_new 8). reflexivity.
    - vm_compute. reflexivity. }
  split; [exact Hr|].
  apply (capacity_invariant tutorial_primes). exact Hr.
Defined.

(** ** The resize policy *)


Lemma live_items_nonneg (l : list ht_item) : 0 <= live_items l.
Proof. induction l as [|[| |k v] l IH]; simpl; lia. Qed.

Section Policy.

Context `{hash_primes}.

Lemma load_below_threshold (ht : ht_hash_table) :
  0 < size ht -> 0 <= count ht -> count ht * 100 < 71 * size ht ->
  71 * size ht <= INT_MAX ->
  exists l, load ht = Ret l /\ l <= 70.
Proof.
  intros Hs Hc Hlt Hmax. unfold load.
  destruct (Z.eqb_spec (size ht) 0); [lia|].
  eexists; split; [reflexivity|].
  rewrite int32_small by (unfold INT_MIN, INT_MAX in *; lia).
  assert (Z.quot (count ht * 100) (size ht) < 71); [|lia].
  apply Z.quot_lt_upper_bound; lia.
Qed.

Lemma ht_insert_no_resize (n : nat) (ht : ht_hash_table) (key value : string)
    (ht' : ht_hash_table) :
  0 < size ht -> 0 <= count ht -> count ht * 100 < 71 * size ht ->
  71 * size ht <= INT_MAX ->
  ht_insert n ht key value = Ret ht' ->
  base_size ht' = base_size ht /\ size ht' = size ht /\
  count ht <= count ht' <= count ht + 1.
Proof.
  intros Hs Hc Hlt Hmax Hrun. destruct n as [|n]; [discriminate|].
  simpl in Hrun.
  destruct (load_below_threshold ht Hs Hc Hlt Hmax) as (l & Hl & Hle).
  rewrite Hl in Hrun. simpl in Hrun.
  destruct (Z.ltb_spec 70 l); [lia|]. simpl in Hrun.
  apply insert_loop_shape in Hrun as (Hb & Hsz & _ & Hcnt).
  rewrite int32_small in Hcnt by (unfold INT_MIN, INT_MAX in *; lia).
  repeat split; try assumption; lia.
Qed.

Lemma rehash_no_resize (n : nat) (old : list ht_item)
    (new_ht ht' : ht_hash_table) :
  0 < size new_ht -> 0 <= count new_ht ->
  (count new_ht + live_items old) * 100 < 71 * size new_ht ->
  71 * size new_ht <= INT_MAX ->
  rehash (ht_insert n) old new_ht = Ret ht' ->
  base_size ht' = base_size new_ht /\ size ht' = size new_ht /\
  count new_ht <= count ht' <= count new_ht + live_items old.
Proof.
  revert new_ht.
  induction old as [|[| |k v] old IH]; intros new_ht Hs Hc Hlt Hmax Hrun;
    simpl in Hrun, Hlt |- *.
  - injection Hrun as <-. lia.
  - apply IH; assumption.
  - apply IH; assumption.
  - pose proof (live_items_nonneg old) as Hnn.
    destruct (ht_insert n new_ht k v) as [t1| |] eqn:H1; simpl in Hrun;
      try discriminate.
    assert (Hlt1 : count new_ht * 100 < 71 * size new_ht) by lia.
    destruct (ht_insert_no_resize n new_ht k v t1 Hs Hc Hlt1 Hmax H1)
      as (Hb1 & Hs1 & Hc1).
    apply IH in Hrun; rewrite ?Hs1; lia.
Qed.


Lemma ht_insert_base_from (n : nat) (b : Z) (ht : ht_hash_table)
    (key value : string) (ht' : ht_hash_table) :
  base_from b ht -> ht_insert n ht key value = Ret ht' -> base_from b ht'.
Proof.
  revert b ht key value ht'.
  induction n as [|n IH]; intros b ht key value ht' Hb Hrun; [discriminate|].
  simpl in Hrun.
  destruct (load ht) as [l| |]; simpl in Hrun; try discriminate.
  assert (Hstep : forall ht1, base_from b ht1 ->
            insert_loop n ht1 key value (ht_get_hash key (size ht1) 0) 1
            = Ret ht' -> base_from b ht').
  { intros ht1 Hb1 Hloop. apply insert_loop_shape in Hloop as (E & _).
    unfold base_from in *. rewrite E. exact Hb1. }
  destruct (70 <? l); [|apply (Hstep ht); assumption].
  unfold resize_with in Hrun.
  destruct (Z.ltb_spec (int32 (base_size ht * 2)) HT_INITIAL_BASE_SIZE) as [|Hge];
    [apply (Hstep ht); assumption|].
  destruct (ht_new_sized n (int32 (base_size ht * 2))) as [new_ht| |] eqn:Hnew;
    simpl in Hrun; try discriminate.
  destruct (rehash (ht_insert n) (items ht) new_ht) as [ht1| |] eqn:Hre;
    simpl in Hrun; try discriminate.
  destruct (ht_del_hash_table ht); simpl in Hrun; try discriminate.
  apply (Hstep ht1); [|exact Hrun].
  apply (rehash_preserves (base_from b) (ht_insert n) (items ht) new_ht);
    [intros t k v t'; apply IH| |exact Hre].
  apply ht_new_sized_inv in Hnew as (p & _ & Hbase & _).
  unfold base_from in *. rewrite Hbase.
  pose proof (int32_range (base_size ht * 2)) as Hr.
  split; [|exact Hr].
  (* a doubled base size that is still at least 50 did not wrap around *)
  unfold HT_INITIAL_BASE_SIZE in Hge.
  destruct (Z.le_gt_cases (base_size ht) 0) as [Hneg|Hpos]; [lia|].
  destruct (Z.le_gt_cases (base_size ht * 2) INT_MAX) as [Hfit|Hover].
  - rewrite int32_small in * by (unfold INT_MIN, INT_MAX in *; lia). lia.
  - exfalso. unfold int32, wrap, INT_MIN, INT_MAX in *.
    change (2 ^ (32 - 1)) with 2147483648 in *.
    change (2 ^ 32) with 4294967296 in *.
    change (2 ^ 31) with 2147483648 in *.
    assert (E : (base_size ht * 2 + 2147483648) mod 4294967296
                = base_size ht * 2 - 2147483648).
    { symmetry. apply (Z.mod_unique _ _ 1); lia. }
    rewrite E in Hge. lia.
Qed.

End Policy.

(** C5 (counterexample).  With 37 items in 53 buckets,
    [(count + 1) * 100 / size] is 71 and [ht_insert] does not resize: it
    tests [count * 100 / size], which is 69.  With 11 items in 101 buckets
    (base size 100) [ht_delete] leaves 10 items, a load of 9, and does not
    resize either: it tested the load before it removed the item. *)
Lemma load_checks_use_count_before_mutation :
  exists t t' u u',
    (let* t0 := @ht_new 8 in @insert_all tutorial_primes 8 t0 (keys 65 37))
    = Ret t /\
    70 < Z.quot ((count t + 1) * 100) (size t) /\
    @ht_insert tutorial_primes 8 t "z" "v" = Ret t' /\
    size t' = size t /\ count t' = count t + 1 /\
    (let* t0 := @ht_new 8 in
     let* t1 := @insert_all tutorial_primes 16 t0 (keys 65 39) in
     @delete_all tutorial_primes 16 t1 (keys 65 28)) = Ret u /\
    @ht_delete tutorial_primes 16 u (key_of 93) = Ret u' /\
    count u' = count u - 1 /\
    Z.quot (count u' * 100) (size u') < 10 /\
    HT_INITIAL_BASE_SIZE <= Z.quot (base_size u) 2 /\
    size u' = size u /\ base_size u' = base_size u.
Proof.
  do 4 eexists.
  split; [vm_compute; reflexivity|].
  split; [vm_compute; reflexivity|].
  split; [vm_compute; reflexivity|].
  split; [reflexivity|].
  split; [reflexivity|].
  split; [vm_compute; reflexivity|].
  split; [vm_compute; reflexivity|].
  split; [reflexivity|].
  split; [vm_compute; reflexivity|].
  split; [vm_compute; discriminate|].
  split; reflexivity.
Qed.

(** On [full_53] the insertion does return, with the base size doubled and
    the capacity 101. *)
Example full_53_insert_resizes :
  exists ht', @ht_insert tutorial_primes 9 full_53 "z" "v" = Ret ht' /\
              base_size ht' = 100 /\ size ht' = 101 /\ count ht' = 39.
Proof. eexists. split; [vm_compute; reflexivity|]. repeat split. Qed.

(** ** Where the round trip holds *)

Section RoundTrip.

Context `{hash_primes}.

(** [ht_insert]'s loop leaves every bucket as it was or holding the new
    item. *)
Lemma insert_loop_bucket (n : nat) (ht : ht_hash_table) (key value : string)
    (index i : Z) (ht' : ht_hash_table) (j : Z) (x : ht_item) :
  insert_loop n ht key value index i = Ret ht' ->
  bucket ht j = Ret x ->
  bucket ht' j = Ret x \/ bucket ht' j = Ret (Item key value).
Proof.
  revert index i. induction n as [|n IH]; intros index i Hrun Hj;
    [discriminate|].
  simpl in Hrun.
  destruct (bucket ht index) as [[| |k v]| |]; simpl in Hrun; try discriminate.
  - injection Hrun as <-. apply (bucket_store ht index j), Hj.
  - eapply IH; eassumption.
  - destruct (String.eqb k key).
    + injection Hrun as <-. apply (bucket_store ht index j), Hj.
    + eapply IH; eassumption.
Qed.

Lemma insert_loop_then_search_loop (n : nat) (ht : ht_hash_table)
    (key value : string) (index i : Z) (ht' : ht_hash_table) :
  insert_loop n ht key value index i = Ret ht' ->
  search_loop n ht' key index i = Ret (Some value).
Proof.
  revert index i. induction n as [|n IH]; intros index i Hrun; [discriminate|].
  pose proof Hrun as Hshape. apply insert_loop_shape in Hshape as (_ & Hsz & _).
  pose proof (fun x => insert_loop_bucket (S n) ht key value index i ht'
                         index x Hrun) as Hbucket.
  simpl in Hrun |- *.
  destruct (bucket ht index) as [cur| |] eqn:Hcur; simpl in Hrun;
    try discriminate.
  assert (Hfound : bucket ht' index = Ret (Item key value) ->
            (let* item := bucket ht' index in
             match item with
             | NULL => Ret None
             | HT_DELETED_ITEM =>
                 search_loop n ht' key (ht_get_hash key (size ht') i)
                   (int32 (i + 1))
             | Item k v =>
                 if String.eqb k key then Ret (Some v)
                 else search_loop n ht' key (ht_get_hash key (size ht') i)
                        (int32 (i + 1))
             end) = Ret (Some value)).
  { intros ->. simpl. rewrite String.eqb_refl. reflexivity. }
  destruct cur as [| |k v].
  - apply Hfound. injection Hrun as <-.
    apply (bucket_store_same ht index _ NULL), Hcur.
  - destruct (Hbucket _ eq_refl) as [Hsame|Hnew]; [|apply Hfound, Hnew].
    rewrite Hsame. simpl. rewrite Hsz. apply IH, Hrun.
  - destruct (String.eqb k key) eqn:Hk.
    + apply Hfound. injection Hrun as <-.
      apply (bucket_store_same ht index _ (Item k v)), Hcur.
    + destruct (Hbucket _ eq_refl) as [Hsame|Hnew]; [|apply Hfound, Hnew].
      rewrite Hsame. simpl. rewrite Hk, Hsz. apply IH, Hrun.
Qed.

Lemma search_loop_fuel (n : nat) (ht : ht_hash_table) (key : string)
    (index i : Z) (r : option string) :
  search_loop n ht key index i = Ret r ->
  search_loop (S n) ht key index i = Ret r.
Proof.
  revert index i. induction n as [|n IH]; intros index i Hrun; [discriminate|].
  change (search_loop (S n) ht key index i) with
    (let* item := bucket ht index in
     match item with
     | NULL => Ret None
     | HT_DELETED_ITEM =>
         search_loop n ht key (ht_get_hash key (size ht) i) (int32 (i + 1))
     | Item k v =>
         if String.eqb k key then Ret (Some v)
         else search_loop n ht key (ht_get_hash key (size ht) i) (int32 (i + 1))
     end) in Hrun.
  change (search_loop (S (S n)) ht key index i) with
    (let* item := bucket ht index in
     match item with
     | NULL => Ret None
     | HT_DELETED_ITEM =>
         search_loop (S n) ht key (ht_get_hash key (size ht) i) (int32 (i + 1))
     | Item k v =>
         if String.eqb k key then Ret (Some v)
         else search_loop (S n) ht key (ht_get_hash key (size ht) i)
                (int32 (i + 1))
     end).
  destruct (bucket ht index) as [[| |k v]| |]; cbn [bind] in *;
    try discriminate; try assumption.
  - apply IH, Hrun.
  - destruct (String.eqb k key); [assumption|apply IH, Hrun].
Qed.

(** Whenever [ht_insert(ht, key, value)] returns, [ht_search(ht, key)]
    returns [value], within the fuel the insertion needed. *)
Lemma insert_then_search (n : nat) (ht : ht_hash_table) (key value : string)
    (ht' : ht_hash_table) :
  ht_insert n ht key value = Ret ht' ->
  ht_search n ht' key = Ret (Some value).
Proof.
  destruct n as [|n]; [discriminate|]. intros Hrun.
  rewrite ht_insert_unfold in Hrun.
  destruct (load ht) as [l| |]; cbn [bind] in Hrun; try discriminate.
  destruct (if 70 <? l then ht_resize_up n ht else Ret ht) as [ht1| |];
    cbn [bind] in Hrun; try discriminate.
  pose proof Hrun as Hshape. apply insert_loop_shape in Hshape as (_ & Hsz & _).
  apply insert_loop_then_search_loop in Hrun.
  unfold ht_search. rewrite Hsz. apply search_loop_fuel, Hrun.
Qed.

End RoundTrip.

(** ** Where deletion hides the key *)

Section DeleteSearch.

Context `{hash_primes}.

Lemma delete_loop_bucket (n : nat) (ht : ht_hash_table) (key : string)
    (index i : Z) (ht' : ht_hash_table) (j : Z) (x : ht_item) :
  delete_loop n ht key index i = Ret ht' ->
  bucket ht j = Ret x ->
  bucket ht' j = Ret x \/ bucket ht' j = Ret HT_DELETED_ITEM.
Proof.
  revert ht index i x. induction n as [|n IH]; intros ht index i x Hrun Hj;
    [discriminate|].
  simpl in Hrun.
  destruct (bucket ht index) as [[| |k v]| |]; simpl in Hrun; try discriminate.
  - injection Hrun as <-. left. exact Hj.
  - eapply IH; eassumption.
  - destruct (String.eqb k key); [|eapply IH; eassumption].
    destruct (bucket_store ht index j HT_DELETED_ITEM x Hj) as [Hs|Hs].
    + eapply IH; eassumption.
    + right. destruct (IH _ _ _ _ Hrun Hs) as [E|E]; exact E.
Qed.

Lemma delete_loop_then_search_loop (n : nat) (ht : ht_hash_table)
    (key : string) (index i : Z) (ht' : ht_hash_table) :
  delete_loop n ht key index i = Ret ht' ->
  search_loop n ht' key index i = Ret None.
Proof.
  revert ht index i. induction n as [|n IH]; intros ht index i Hrun;
    [discriminate|].
  pose proof Hrun as Hshape. apply delete_loop_shape in Hshape as (_ & Hsz & _).
  simpl in Hrun |- *. rewrite Hsz.
  destruct (bucket ht index) as [cur| |] eqn:Hcur; simpl in Hrun;
    try discriminate.
  destruct cur as [| |k v].
  - injection Hrun as <-.
    change (bucket (set_count ht (int32 (count ht - 1))) index)
      with (bucket ht index).
    rewrite Hcur. reflexivity.
  - destruct (delete_loop_bucket _ _ _ _ _ _ index _ Hrun Hcur) as [E|E];
      rewrite E; simpl; apply (IH _ _ _ Hrun).
  - destruct (String.eqb k key) eqn:Hk.
    + pose proof (bucket_store_same ht index HT_DELETED_ITEM _ Hcur) as Hdel.
      destruct (delete_loop_bucket _ _ _ _ _ _ index _ Hrun Hdel) as [E|E];
        rewrite E; simpl; apply (IH _ _ _ Hrun).
    + destruct (delete_loop_bucket _ _ _ _ _ _ index _ Hrun Hcur) as [E|E];
        rewrite E; simpl; rewrite ?Hk; apply (IH _ _ _ Hrun).
Qed.

(** Whenever [ht_delete(ht, key)] returns, [ht_search(ht, key)] returns
    not-found, and [count] is one less than it was when the probe loop of
    the deletion began -- whether or not the key was there. *)
Lemma delete_then_search (n : nat) (ht : ht_hash_table) (key : string)
    (ht' : ht_hash_table) :
  ht_delete n ht key = Ret ht' -> ht_search n ht' key = Ret None.
Proof.
  unfold ht_delete. intros Hrun.
  destruct (load ht) as [l| |]; cbn [bind] in Hrun; try discriminate.
  destruct (if l <? 10 then ht_resize_down n ht else Ret ht) as [ht1| |];
    cbn [bind] in Hrun; try discriminate.
  pose proof Hrun as Hshape. apply delete_loop_shape in Hshape as (_ & Hsz & _).
  apply delete_loop_then_search_loop in Hrun.
  unfold ht_search. rewrite Hsz. exact Hrun.
Qed.

End DeleteSearch.

(** ** What an insertion or a deletion leaves of the other keys *)

Lemma bucket_store_cases (ht : ht_hash_table) (j index : Z) (it x y : ht_item) :
  bucket ht index = Ret x -> bucket ht j = Ret y ->
  bucket (store ht j it) index = Ret x \/
  (x = y /\ bucket (store ht j it) index = Ret it).
Proof.
  intros Hx Hy.
  apply bucket_inv in Hx as (Hpos & Hlook).
  apply bucket_inv in Hy as (Hposj & Hlookj).
  unfold bucket, store. simpl.
  destruct (Z.ltb_spec index 0); [lia|].
  rewrite list_lookup_insert. case_decide as Hd.
  - right. destruct Hd as [Heq _]. rewrite Heq in Hlookj.
    split; [congruence|reflexivity].
  - left. rewrite Hlook. reflexivity.
Qed.

Lemma keeps_refl (key : string) (ht : ht_hash_table) : keeps key ht ht.
Proof. split; [reflexivity|]. intros j x Hx. exists x. auto. Qed.

Lemma keeps_trans (key : string) (t1 t2 t3 : ht_hash_table) :
  keeps key t1 t2 -> keeps key t2 t3 -> keeps key t1 t3.
Proof.
  intros [Hs12 H12] [Hs23 H23]. split; [congruence|].
  intros j x Hx.
  destruct (H12 j x Hx) as (x' & Hx' & Hr).
  destruct (H23 j x' Hx') as (x'' & Hx'' & Hr').
  exists x''. split; [exact Hx''|].
  destruct Hr as [->|(Hk & Hn & Hk')]; [exact Hr'|].
  destruct Hr' as [->|(_ & Hn' & Hk'')]; right; auto.
Qed.

Lemma keeps_set_count (key : string) (ht ht' : ht_hash_table) (c : Z) :
  keeps key ht ht' -> keeps key ht (set_count ht' c).
Proof. intros [Hs Hb]. split; [exact Hs|exact Hb]. Qed.

(** Overwriting a bucket that has no item with [key] by a tombstone or by
    an item with another key. *)
Lemma keeps_store (key : string) (ht : ht_hash_table) (j : Z) (it y : ht_item) :
  bucket ht j = Ret y -> holds_key key y = false ->
  non_null it = true -> holds_key key it = false ->
  keeps key ht (store ht j it).
Proof.
  intros Hy Hky Hn Hk. split; [reflexivity|].
  intros index x Hx.
  destruct (bucket_store_cases ht j index it x y Hx Hy) as [E|[-> E]].
  - exists x. auto.
  - exists it. split; [exact E|]. right. auto.
Qed.

Section Frame.

Context `{hash_primes}.

Lemma search_loop_keeps (n : nat) (ht ht' : ht_hash_table) (key : string)
    (index i : Z) (v : string) :
  keeps key ht ht' ->
  search_loop n ht key index i = Ret (Some v) ->
  search_loop n ht' key index i = Ret (Some v).
Proof.
  intros [Hs Hb]. revert index i.
  induction n as [|n IH]; intros index i Hrun; [discriminate|].
  simpl in Hrun |- *. rewrite Hs.
  destruct (bucket ht index) as [x| |] eqn:Hx; simpl in Hrun; try discriminate.
  destruct (Hb index x Hx) as (x' & Hx' & Hr). rewrite Hx'. simpl.
  destruct Hr as [->|(Hk & Hn & Hk')]; [|clear Hx'].
  - destruct x as [| |k w]; [discriminate|apply IH, Hrun|].
    destruct (String.eqb k key); [exact Hrun|apply IH, Hrun].
  - assert (Hgo : search_loop n ht key (ht_get_hash key (size ht) i)
                    (int32 (i + 1)) = Ret (Some v)).
    { destruct x as [| |k w]; [discriminate|exact Hrun|].
      simpl in Hk. rewrite Hk in Hrun. exact Hrun. }
    destruct x' as [| |k' w']; [discriminate|apply IH, Hgo|].
    simpl in Hk'. rewrite Hk'. apply IH, Hgo.
Qed.

Lemma insert_loop_keeps (n : nat) (ht : ht_hash_table) (key value other : string)
    (index i : Z) (ht' : ht_hash_table) :
  key <> other ->
  insert_loop n ht key value index i = Ret ht' -> keeps other ht ht'.
Proof.
  intros Hne. apply String.eqb_neq in Hne. revert index i.
  induction n as [|n IH]; intros index i Hrun; [discriminate|].
  simpl in Hrun.
  destruct (bucket ht index) as [[| |k v]| |] eqn:Hcur; simpl in Hrun;
    try discriminate.
  - injection Hrun as <-. apply keeps_set_count.
    apply (keeps_store other ht index _ NULL); auto.
  - eapply IH, Hrun.
  - destruct (String.eqb k key) eqn:Hk; [|eapply IH, Hrun].
    injection Hrun as <-. apply String.eqb_eq in Hk as ->.
    apply (keeps_store other ht index _ (Item key v)); auto.
Qed.

Lemma delete_loop_keeps (n : nat) (ht : ht_hash_table) (key other : string)
    (index i : Z) (ht' : ht_hash_table) :
  key <> other ->
  delete_loop n ht key index i = Ret ht' -> keeps other ht ht'.
Proof.
  intros Hne. apply String.eqb_neq in Hne. revert ht index i.
  induction n as [|n IH]; intros ht index i Hrun; [discriminate|].
  simpl in Hrun.
  destruct (bucket ht index) as [[| |k v]| |] eqn:Hcur; simpl in Hrun;
    try discriminate.
  - injection Hrun as <-. apply keeps_set_count, keeps_refl.
  - eapply IH, Hrun.
  - destruct (String.eqb k key) eqn:Hk; [|eapply IH, Hrun].
    apply String.eqb_eq in Hk as ->.
    eapply keeps_trans; [|eapply IH, Hrun].
    apply (keeps_store other ht index _ (Item key v)); auto.
Qed.

(** An insertion that does not resize keeps every other key that a search
    finds. *)
Lemma insert_keeps_found (n m : nat) (ht : ht_hash_table)
    (key value other v : string) (l : Z) (ht' : ht_hash_table) :
  key <> other -> load ht = Ret l -> l <= 70 ->
  ht_insert n ht key value = Ret ht' ->
  ht_search m ht other = Ret (Some v) ->
  ht_search m ht' other = Ret (Some v).
Proof.
  intros Hne Hl Hle Hrun Hfound. destruct n as [|n]; [discriminate|].
  rewrite ht_insert_unfold, Hl in Hrun. cbn [bind] in Hrun.
  destruct (Z.ltb_spec 70 l); [lia|]. cbn [bind] in Hrun.
  apply (insert_loop_keeps _ _ _ _ other) in Hrun; [|exact Hne].
  unfold ht_search in *. destruct Hrun as [Hs Hb]. rewrite Hs.
  apply (search_loop_keeps m ht); [split; assumption|exact Hfound].
Qed.

(** A deletion that does not resize -- the load is at least 10, or the
    table is at its minimum base size -- keeps every other key that a
    search finds: the search steps over the tombstone. *)
Lemma delete_keeps_found (n m : nat) (ht : ht_hash_table)
    (key other v : string) (l : Z) (ht' : ht_hash_table) :
  key <> other -> load ht = Ret l ->
  10 <= l \/ Z.quot (base_size ht) 2 < HT_INITIAL_BASE_SIZE ->
  ht_delete n ht key = Ret ht' ->
  ht_search m ht other = Ret (Some v) ->
  ht_search m ht' other = Ret (Some v).
Proof.
  intros Hne Hl Hno Hrun Hfound. unfold ht_delete in Hrun.
  rewrite Hl in Hrun. cbn [bind] in Hrun.
  assert (Hsame : (if l <? 10 then ht_resize_down n ht else Ret ht) = Ret ht).
  { destruct (Z.ltb_spec l 10) as [Hlt|]; [|reflexivity].
    apply ht_resize_below_minimum. lia. }
  rewrite Hsame in Hrun. cbn [bind] in Hrun.
  apply (delete_loop_keeps _ _ _ other) in Hrun; [|exact Hne].
  unfold ht_search in *. destruct Hrun as [Hs Hb]. rewrite Hs.
  apply (search_loop_keeps m ht); [split; assumption|exact Hfound].
Qed.

(** Tombstone transparency where the calls return: after
    [ht_insert(ht, k2, v2)] and a [ht_delete(ht, k1)] that does not resize,
    [ht_search(ht, k2)] returns [v2]. *)
Lemma search_steps_over_tombstone (n : nat) (ht ht2 ht3 : ht_hash_table)
    (k1 k2 v2 : string) (l : Z) :
  k1 <> k2 ->
  ht_insert n ht k2 v2 = Ret ht2 ->
  load ht2 = Ret l ->
  10 <= l \/ Z.quot (base_size ht2) 2 < HT_INITIAL_BASE_SIZE ->
  ht_delete n ht2 k1 = Ret ht3 ->
  ht_search n ht3 k2 = Ret (Some v2).
Proof.
  intros Hne Hins Hl Hno Hdel.
  apply (delete_keeps_found n n ht2 k1 k2 v2 l); try assumption.
  apply (insert_then_search n ht k2 v2 ht2 Hins).
Qed.

End Frame.

(** ** The item count *)

(** C4 (failing input).  The key ["a"] is absent from a new table;
    [ht_delete(ht, "a")] still executes [ht->count--] and leaves
    [count = -1]. *)
Theorem delete_absent_key_decrements_count (hp : hash_primes) :
  exists t0 t1,
    ht_new 8 = Ret t0 /\
    ht_search 8 t0 "a" = Ret None /\
    ht_delete 8 t0 "a" = Ret t1 /\
    count t0 = 0 /\ count t1 = -1 /\ items t1 = items t0.
Proof.
  do 2 eexists.
  split; [vm_compute; reflexivity|].
  split; [vm_compute; reflexivity|].
  split; [vm_compute; reflexivity|].
  split; [reflexivity|]. split; reflexivity.
Qed.

(** C2 (failing input).  [ht_delete] of an absent key has lowered [count]
    to -1; 38 keys later the table holds 38 items with [count = 37].  The
    first [ht_insert(ht, "z", "v1")] leaves [count = 38]; the second,
    [ht_insert(ht, "z", "v2")], finds a load of 71, rebuilds the table,
    which recounts its 39 items, and leaves [count = 39]. *)
Theorem second_insert_changes_count (hp : hash_primes) :
  exists t t1 t2,
    (let* t0 := ht_new 8 in
     let* t0' := ht_delete 8 t0 "0" in
     insert_all 8 t0' (keys 65 38)) = Ret t /\
    ht_insert 8 t "z" "v1" = Ret t1 /\
    ht_insert 8 t1 "z" "v2" = Ret t2 /\
    ht_search 64 t2 "z" = Ret (Some "v2") /\
    count t1 = 38 /\ count t2 = 39.
Proof.
  do 3 eexists.
  split; [vm_compute; reflexivity|].
  split; [vm_compute; reflexivity|].
  split; [vm_compute; reflexivity|].
  split; [vm_compute; reflexivity|].
  split; reflexivity.
Qed.

(** ** The probe sequence of a key whose step is not the bucket count *)

Lemma mod_eq_divide (x y m : Z) :
  0 < m -> x mod m = y mod m -> (m | y - x).
Proof.
  intros Hm Heq. exists (y / m - x / m).
  pose proof (Z.div_mod x m ltac:(lia)).
  pose proof (Z.div_mod y m ltac:(lia)). nia.
Qed.

Section NonDegenerate.

Context `{hash_primes}.

(** A key [s] and a prime bucket count [m], small enough for
    [attempt * (hash_b + 1)] to stay an [int], with hashes in range and
    a step [hash_b + 1] that is not [m]. *)
Variables (s : string) (m : Z).
Hypothesis m_prime : Z.prime m.
Hypothesis m_small : m <= 46340.
Hypothesis hash_a_range : 0 <= ht_hash s HT_PRIME_1 m < m.
Hypothesis hash_b_range : 0 <= ht_hash s HT_PRIME_2 m < m - 1.

Lemma ht_get_hash_small (a : Z) :
  0 <= a < m ->
  ht_get_hash s m a
  = (ht_hash s HT_PRIME_1 m + a * (ht_hash s HT_PRIME_2 m + 1)) mod m.
Proof.
  intros Ha. unfold ht_get_hash.
  set (ha := ht_hash s HT_PRIME_1 m) in *.
  set (hb := ht_hash s HT_PRIME_2 m) in *.
  rewrite (int32_small (hb + 1)) by (unfold INT_MIN, INT_MAX; lia).
  assert (0 <= a * (hb + 1) <= 46340 * 46340) by nia.
  rewrite (int32_small (a * (hb + 1))) by (unfold INT_MIN, INT_MAX; lia).
  assert (0 <= ha + a * (hb + 1) <= 46340 * 46340) by nia.
  rewrite int32_small by (unfold INT_MIN, INT_MAX; lia).
  apply Z.rem_mod_nonneg; lia.
Qed.

Lemma ht_get_hash_range (a : Z) : 0 <= a < m -> 0 <= ht_get_hash s m a < m.
Proof.
  intros Ha. rewrite ht_get_hash_small by exact Ha.
  apply Z.mod_pos_bound. lia.
Qed.

(** The [m] probe indices of attempts [0, ..., m - 1] are pairwise
    distinct. *)
Lemma probe_indices_distinct (a1 a2 : Z) :
  0 <= a1 < a2 -> a2 < m -> ht_get_hash s m a1 <> ht_get_hash s m a2.
Proof.
  intros H12 H2. rewrite !ht_get_hash_small by lia. intros Heq.
  apply mod_eq_divide in Heq; [|lia].
  set (ha := ht_hash s HT_PRIME_1 m) in *.
  set (hb := ht_hash s HT_PRIME_2 m) in *.
  replace (ha + a2 * (hb + 1) - (ha + a1 * (hb + 1)))
    with ((a2 - a1) * (hb + 1)) in Heq by ring.
  apply Z.divide_prime_mul in Heq as [Hd|Hd]; [| |exact m_prime];
    apply Z.divide_pos_le in Hd; lia.
Qed.

(** Hence they are all the buckets: every bucket is probed by some attempt
    below [m]. *)
Lemma probe_covers (j : Z) :
  0 <= j < m -> exists a, 0 <= a < m /\ ht_get_hash s m a = j.
Proof.
  intros Hj.
  set (f := fun a : nat => Z.to_nat (ht_get_hash s m (Z.of_nat a))).
  set (M := Z.to_nat m).
  assert (Hperm : f <$> seq 0 M ≡ₚ seq 0 M).
  { apply submseteq_length_Permutation;
      [|rewrite length_fmap; reflexivity].
    apply NoDup_submseteq.
    - apply NoDup_fmap_2_strong; [|apply NoDup_seq].
      intros x y Hx Hy Hxy.
      apply elem_of_seq in Hx, Hy. subst f M. simpl in Hxy.
      pose proof (ht_get_hash_range (Z.of_nat x) ltac:(lia)).
      pose proof (ht_get_hash_range (Z.of_nat y) ltac:(lia)).
      apply Z2Nat.inj in Hxy; [|lia|lia].
      destruct (Nat.lt_trichotomy x y) as [Hlt|[Heq|Hgt]]; [|exact Heq|].
      + exfalso. revert Hxy. apply probe_indices_distinct; lia.
      + exfalso. symmetry in Hxy. revert Hxy.
        apply probe_indices_distinct; lia.
    - intros x Hx. apply list_elem_of_fmap in Hx as (a & -> & Ha).
      apply elem_of_seq in Ha. apply elem_of_seq. subst f M. simpl.
      pose proof (ht_get_hash_range (Z.of_nat a) ltac:(lia)). lia. }
  assert (Hin : Z.to_nat j ∈ f <$> seq 0 M).
  { rewrite Hperm. apply elem_of_seq. subst M. lia. }
  apply list_elem_of_fmap in Hin as (a & Hja & Ha).
  apply elem_of_seq in Ha. subst f M. simpl in Hja.
  exists (Z.of_nat a). split; [lia|].
  pose proof (ht_get_hash_range (Z.of_nat a) ltac:(lia)).
  apply Z2Nat.inj; lia.
Qed.

End NonDegenerate.

(** ** Where the search stops within [size] attempts *)

Section SearchBound.

Context `{hash_primes}.

(** A table of prime capacity with an empty bucket, and a key whose step is
    not the capacity. *)
Variables (ht : ht_hash_table) (key : string).
Hypothesis size_prime : Z.prime (size ht).
Hypothesis size_small : size ht <= 46340.
Hypothesis items_length : length (items ht) = Z.to_nat (size ht).
Hypothesis hash_a_range : 0 <= ht_hash key HT_PRIME_1 (size ht) < size ht.
Hypothesis hash_b_range : 0 <= ht_hash key HT_PRIME_2 (size ht) < size ht - 1.
Hypothesis has_empty : NULL ∈ items ht.

Lemma bucket_in_range (index : Z) :
  0 <= index < size ht -> exists it, bucket ht index = Ret it.
Proof.
  intros Hi. unfold bucket. destruct (Z.ltb_spec index 0); [lia|].
  destruct (items ht !! Z.to_nat index) as [it|] eqn:Hl; [eauto|].
  apply lookup_ge_None in Hl. lia.
Qed.

Lemma search_loop_reaches (d a : nat) :
  Z.of_nat (a + d) < size ht ->
  bucket ht (ht_get_hash key (size ht) (Z.of_nat (a + d))) = Ret NULL ->
  exists r,
    search_loop (S d) ht key (ht_get_hash key (size ht) (Z.of_nat a))
      (Z.of_nat a + 1) = Ret r.
Proof.
  revert a. induction d as [|d IH]; intros a Hlt Hnull.
  - rewrite Nat.add_0_r in Hnull. simpl. rewrite Hnull. simpl. eauto.
  - assert (Hnext : exists r,
              search_loop (S d) ht key
                (ht_get_hash key (size ht) (Z.of_nat a + 1))
                (int32 (Z.of_nat a + 1 + 1)) = Ret r).
    { rewrite int32_small by (unfold INT_MIN, INT_MAX; lia).
      replace (Z.of_nat a + 1) with (Z.of_nat (S a)) by lia.
      apply IH; replace (S a + d)%nat with (a + S d)%nat by lia; assumption. }
    destruct (bucket_in_range (ht_get_hash key (size ht) (Z.of_nat a)))
      as [it Hit].
    { apply ht_get_hash_range; try assumption. lia. }
    cbn [search_loop]. rewrite Hit. cbn [bind].
    destruct it as [| |k v]; [eauto|exact Hnext|].
    destruct (String.eqb k key); [eauto|exact Hnext].
Qed.

Lemma search_loop_fuel_le (n n' : nat) (index i : Z) (r : option string) :
  (n <= n')%nat ->
  search_loop n ht key index i = Ret r ->
  search_loop n' ht key index i = Ret r.
Proof.
  intros Hle Hrun. induction Hle as [|n' _ IH]; [exact Hrun|].
  apply search_loop_fuel, IH.
Qed.

(** The search probes every bucket within [size] attempts, so it meets the
    empty bucket, if nothing stops it earlier. *)
Lemma search_within_size_attempts :
  exists r, ht_search (Z.to_nat (size ht)) ht key = Ret r.
Proof.
  apply list_elem_of_lookup in has_empty as [jn Hjn].
  pose proof (lookup_lt_Some _ _ _ Hjn) as Hlt.
  destruct (probe_covers key (size ht) size_prime size_small
              hash_a_range hash_b_range (Z.of_nat jn) ltac:(lia))
    as (a & Ha & Hprobe).
  assert (Hnull : bucket ht (ht_get_hash key (size ht) a) = Ret NULL).
  { rewrite Hprobe. unfold bucket.
    destruct (Z.ltb_spec (Z.of_nat jn) 0); [lia|].
    rewrite Nat2Z.id, Hjn. reflexivity. }
  destruct (search_loop_reaches (Z.to_nat a) 0) as [r Hr].
  - simpl. lia.
  - simpl. rewrite Z2Nat.id by lia. exact Hnull.
  - exists r. unfold ht_search.
    apply (search_loop_fuel_le (S (Z.to_nat a))); [lia|exact Hr].
Qed.

Lemma insert_loop_reaches (value : string) (d a : nat) :
  Z.of_nat (a + d) < size ht ->
  bucket ht (ht_get_hash key (size ht) (Z.of_nat (a + d))) = Ret NULL ->
  exists ht',
    insert_loop (S d) ht key value (ht_get_hash key (size ht) (Z.of_nat a))
      (Z.of_nat a + 1) = Ret ht'.
Proof.
  revert a. induction d as [|d IH]; intros a Hlt Hnull.
  - rewrite Nat.add_0_r in Hnull. simpl. rewrite Hnull. simpl. eauto.
  - assert (Hnext : exists ht',
              insert_loop (S d) ht key value
                (ht_get_hash key (size ht) (Z.of_nat a + 1))
                (int32 (Z.of_nat a + 1 + 1)) = Ret ht').
    { rewrite int32_small by (unfold INT_MIN, INT_MAX; lia).
      replace (Z.of_nat a + 1) with (Z.of_nat (S a)) by lia.
      apply IH; replace (S a + d)%nat with (a + S d)%nat by lia; assumption. }
    destruct (bucket_in_range (ht_get_hash key (size ht) (Z.of_nat a)))
      as [it Hit].
    { apply ht_get_hash_range; try assumption. lia. }
    cbn [insert_loop]. rewrite Hit. cbn [bind].
    destruct it as [| |k v]; [eauto|exact Hnext|].
    destruct (String.eqb k key); [eauto|exact Hnext].
Qed.

(** Under the same hypotheses an insertion that does not resize returns,
    and the search that follows returns the value. *)
Lemma insert_then_search_returns (value : string) (l : Z) :
  load ht = Ret l -> l <= 70 ->
  exists n ht',
    ht_insert n ht key value = Ret ht' /\
    ht_search n ht' key = Ret (Some value).
Proof.
  intros Hl Hle.
  apply list_elem_of_lookup in has_empty as [jn Hjn].
  pose proof (lookup_lt_Some _ _ _ Hjn) as Hlt.
  destruct (probe_covers key (size ht) size_prime size_small
              hash_a_range hash_b_range (Z.of_nat jn) ltac:(lia))
    as (a & Ha & Hprobe).
  assert (Hnull : bucket ht (ht_get_hash key (size ht) a) = Ret NULL).
  { rewrite Hprobe. unfold bucket.
    destruct (Z.ltb_spec (Z.of_nat jn) 0); [lia|].
    rewrite Nat2Z.id, Hjn. reflexivity. }
  destruct (insert_loop_reaches value (Z.to_nat a) 0) as [ht' Hrun].
  - simpl. lia.
  - simpl. rewrite Z2Nat.id by lia. exact Hnull.
  - assert (Hins : ht_insert (S (S (Z.to_nat a))) ht key value = Ret ht').
    { rewrite ht_insert_unfold, Hl. cbn [bind].
      destruct (Z.ltb_spec 70 l); [lia|]. cbn [bind]. exact Hrun. }
    exists (S (S (Z.to_nat a))), ht'. split; [exact Hins|].
    apply (insert_then_search _ ht key value ht' Hins).
Qed.

End SearchBound.

(** A table in which no bucket is empty and none holds the key makes the
    loop of [ht_search] run until the index leaves the array. *)
Lemma search_loop_full `{hash_primes} (n : nat) (ht : ht_hash_table)
    (key : string) (index i : Z) (r : option string) :
  full_without ht key = true -> search_loop n ht key index i <> Ret r.
Proof.
  intros Hfull. revert index i.
  induction n as [|n IH]; intros index i; [discriminate|].
  simpl. destruct (bucket ht index) as [it| |] eqn:Hb; simpl; try discriminate.
  apply bucket_inv in Hb as (_ & Hl).
  apply list_elem_of_lookup_2, list_elem_of_In in Hl.
  unfold full_without in Hfull. rewrite forallb_forall in Hfull.
  apply Hfull, andb_true_iff in Hl as [Hnn Hk].
  destruct it as [| |k v]; [discriminate|apply IH|].
  simpl in Hk. apply negb_true_iff in Hk. rewrite Hk. apply IH.
Qed.

(** C9 (counterexample).  The loop of [ht_search] has no bound on the
    attempts.  52 rounds of [ht_insert(ht, "A", "v"); ht_delete(ht, "A")]
    leave 52 tombstones in a new table, which [ht_insert] steps over and no
    resize purges; one more [ht_insert(ht, "A", "v")] takes the last empty
    bucket.  [ht_search(ht, "B")] is then still probing after 54 attempts,
    one more than the table has buckets, and returns for no amount of
    fuel. *)
Lemma search_without_empty_bucket_never_returns :
  exists t,
    (let* t0 := ht_new 8 in
     let* t1 := @churn tutorial_primes 56 t0 "A" 52 in
     @ht_insert tutorial_primes 56 t1 "A" "v") = Ret t /\
    size t = 53 /\
    @ht_search tutorial_primes 54 t "B" = OutOfFuel /\
    forall (n : nat) (r : option string),
      @ht_search tutorial_primes n t "B" <> Ret r.
Proof.
  eexists.
  split; [vm_compute; reflexivity|].
  split; [reflexivity|].
  split; [vm_compute; reflexivity|].
  intros n r. apply search_loop_full. vm_compute. reflexivity.
Qed.

(** C9 (amended).  In a table of prime capacity (small enough for
    [attempt * (hash_b + 1)] to stay an [int]) that has an empty bucket,
    the search for an ASCII key whose step [hash_b + 1] is not the capacity
    returns after at most [size] probe attempts. *)
Theorem search_stops_within_size (hp : hash_primes) (ht : ht_hash_table)
    (key : string) :
  is_ascii key = true ->
  2 <= HT_PRIME_1 <= 2 ^ 22 -> 2 <= HT_PRIME_2 <= 2 ^ 22 ->
  Z.prime (size ht) -> size ht <= 46340 ->
  length (items ht) = Z.to_nat (size ht) ->
  NULL ∈ items ht ->
  ht_hash key HT_PRIME_2 (size ht) + 1 <> size ht ->
  exists r, ht_search (Z.to_nat (size ht)) ht key = Ret r.
Proof.
  intros Hkey Hp1 Hp2 Hprime Hsmall Hlen Hnull Hstep.
  assert (Hm : 0 < size ht <= INT_MAX).
  { destruct Hprime as [H1 _]. unfold INT_MAX. lia. }
  pose proof (ht_hash_in_range key HT_PRIME_1 (size ht) Hkey Hp1 Hm) as Ha.
  pose proof (ht_hash_in_range key HT_PRIME_2 (size ht) Hkey Hp2 Hm) as Hb.
  apply search_within_size_attempts; try assumption. lia.
Qed.

Lemma search_stops_within_size_witness :
  exists r, @ht_search tutorial_primes 53 full_53 "z" = Ret r.
Proof.
  apply (search_stops_within_size tutorial_primes full_53 "z").
  - reflexivity.
  - split; vm_compute; discriminate.
  - split; vm_compute; discriminate.
  - apply is_prime_sound; [vm_compute; discriminate|reflexivity].
  - vm_compute. discriminate.
  - reflexivity.
  - apply (bool_decide_unpack _). vm_compute. reflexivity.
  - vm_compute. discriminate.
Defined.

(** The scenario of a client: two keys are stored, one is deleted, the
    other is still found. *)
Example cat_and_dog :
  (let* t0 := ht_new 8 in
   let* t1 := @ht_insert tutorial_primes 8 t0 "cat" "felix" in
   let* t2 := @ht_insert tutorial_primes 8 t1 "dog" "fido" in
   let* a := @ht_search tutorial_primes 8 t2 "cat" in
   let* t3 := @ht_delete tutorial_primes 8 t2 "cat" in
   let* b := @ht_search tutorial_primes 8 t3 "cat" in
   let* c := @ht_search tutorial_primes 8 t3 "dog" in
   Ret (a, b, c)) = Ret (Some "felix", None, Some "fido").
Proof. vm_compute. reflexivity. Qed.

(** ** The probe sequence of a key whose second hash is [m - 1] *)


Lemma ht_hash_degenerate (key : string) (a : Z) :
  degenerate key -> ht_hash key a 53 = 52.
Proof. intros [->| ->]; reflexivity. Qed.

Section Degenerate.

Context `{hash_primes}.

(** The step [hash_b + 1] is 53, a multiple of the bucket count: every
    attempt probes bucket 52, until [attempt * 53 + 52] leaves [int]. *)
Lemma degenerate_probe (key : string) (attempt : Z) :
  degenerate key -> 0 <= attempt <= 40518558 ->
  ht_get_hash key 53 attempt = 52.
Proof.
  intros Hk Ha. unfold ht_get_hash.
  rewrite !ht_hash_degenerate by exact Hk.
  change (int32 (52 + 1)) with 53.
  rewrite (int32_small (attempt * 53)) by (unfold INT_MIN, INT_MAX; lia).
  rewrite int32_small by (unfold INT_MIN, INT_MAX; lia).
  rewrite Z.rem_mod_nonneg by lia.
  rewrite Z.mod_add by lia. reflexivity.
Qed.

Lemma degenerate_probe_overflow (key : string) :
  degenerate key -> ht_get_hash key 53 40518559 = -43.
Proof. intros [->| ->]; reflexivity. Qed.


Lemma spinning_next (key : string) (i : Z) :
  degenerate key -> 1 <= i <= 40518559 ->
  spinning (ht_get_hash key 53 i) (int32 (i + 1)).
Proof.
  intros Hk Hi. destruct (Z.eq_dec i 40518559) as [->|Hne].
  - right. rewrite degenerate_probe_overflow by exact Hk. lia.
  - left. rewrite degenerate_probe by (exact Hk || lia).
    rewrite int32_small by (unfold INT_MIN, INT_MAX; lia). lia.
Qed.

Lemma search_loop_blocked (n : nat) (ht : ht_hash_table) (key : string)
    (index i : Z) (r : option string) :
  degenerate key -> blocked ht key -> spinning index i ->
  search_loop n ht key index i <> Ret r.
Proof.
  intros Hk (Hsz & k & v & Hb & Hne). revert index i.
  induction n as [|n IH]; intros index i Hsp; [discriminate|].
  simpl. destruct Hsp as [[-> Hi]|Hneg].
  - rewrite Hb. simpl.
    apply String.eqb_neq in Hne. rewrite Hne, Hsz.
    apply IH, spinning_next; assumption.
  - rewrite (bucket_negative Hneg). discriminate.
Qed.

Lemma ht_search_blocked (n : nat) (ht : ht_hash_table) (key : string)
    (r : option string) :
  degenerate key -> blocked ht key -> ht_search n ht key <> Ret r.
Proof.
  intros Hk Hb. unfold ht_search.
  apply search_loop_blocked; [exact Hk|exact Hb|].
  left. destruct Hb as [-> _].
  rewrite degenerate_probe by (exact Hk || lia). lia.
Qed.

End Degenerate.

Lemma single_53_blocked (k v key : string) :
  k <> key -> blocked (single_53 k v) key.
Proof. intros Hne. split; [reflexivity|]. exists k, v. split; [reflexivity|exact Hne]. Qed.

(** C6 (failing input).  In a table of 53 buckets (a prime) the key ["4"]
    has [hash_b + 1 = 53]: the 53 probe indices of attempts 0 to 52 are all
    52, not pairwise distinct. *)
Theorem probe_sequence_constant (hp : hash_primes) :
  Z.prime 53 /\
  map (fun attempt => ht_get_hash "4" 53 (Z.of_nat attempt)) (seq 0 53)
  = replicate 53 52.
Proof.
  split.
  - apply is_prime_sound; [vm_compute; discriminate|reflexivity].
  - vm_compute. reflexivity.
Qed.

(** The search for a key whose step is the capacity: with ["4"] in bucket
    52 of a new table, [ht_search(ht, "i")] is still probing after 54
    attempts.  It returns for no amount of fuel: after 40518559 attempts
    the index is -43, and the read at a negative index is a fault of the
    embedding (in C it is undefined). *)
Example search_degenerate_key_never_returns (hp : hash_primes) :
  exists t,
    (let* t0 := ht_new 8 in ht_insert 8 t0 "4" "x") = Ret t /\
    size t = 53 /\
    ht_search 54 t "i" = OutOfFuel /\
    forall (n : nat) (r : option string), ht_search n t "i" <> Ret r.
Proof.
  exists (single_53 "4" "x").
  split; [vm_compute; reflexivity|].
  split; [reflexivity|].
  split; [vm_compute; reflexivity|].
  intros n r. apply ht_search_blocked.
  - right; reflexivity.
  - apply single_53_blocked. discriminate.
Qed.

(** ** The old array in [ht_del_hash_table] *)

(** [ht_resize] hands the old array, tombstones included, to
    [ht_del_hash_table]: after 39 insertions and 29 deletions the next
    [ht_delete] finds a load of 9, resizes down and frees the sentinel. *)
Example resize_down_frees_sentinel (hp : hash_primes) :
  (let* t0 := ht_new 8 in
   let* t1 := insert_all 16 t0 (keys 65 39) in
   let* t2 := delete_all 16 t1 (keys 65 29) in
   ht_delete 16 t2 (key_of 94)) = Fault.
Proof. vm_compute. reflexivity. Qed.

(** The same on the way up: 38 insertions, one deletion, and the second
    insertion after it finds a load of 71, resizes and frees the
    sentinel. *)
Example resize_up_frees_sentinel (hp : hash_primes) :
  (let* t0 := ht_new 8 in
   let* t1 := insert_all 8 t0 (keys 65 38) in
   let* t2 := ht_delete 8 t1 "A" in
   let* t3 := ht_insert 8 t2 "y" "v" in
   ht_insert 8 t3 "z" "v") = Fault.
Proof. vm_compute. reflexivity. Qed.

(** * More of the code *)

(** ** [is_prime] and [next_prime] *)

Lemma is_prime_loop_0_or_1 (n : nat) (x i : Z) :
  is_prime_loop n x i = 0 \/ is_prime_loop n x i = 1.
Proof.
  revert i. induction n as [|n IH]; intros i; simpl; [auto|].
  destruct (i <=? Z.sqrt x); [|auto].
  destruct (Z.rem x i =? 0); [auto|apply IH].
Qed.

Lemma is_prime_values (x : Z) :
  (x < 2 /\ is_prime x = -1) \/
  (2 <= x /\ (is_prime x = 0 \/ is_prime x = 1)).
Proof.
  unfold is_prime. destruct (Z.ltb_spec x 2); [left; auto|right].
  split; [assumption|].
  destruct (x <? 4); [auto|].
  destruct (Z.rem x 2 =? 0); [auto|apply is_prime_loop_0_or_1].
Qed.

(** X1.  [is_prime] answers 1 exactly on the primes, -1 exactly below 2 and
    0 exactly on the composite numbers, for every [x] that is a C [int]. *)
Theorem is_prime_answers (x : Z) :
  x <= INT_MAX ->
  (is_prime x = 1 <-> Z.prime x) /\
  (is_prime x = -1 <-> x < 2) /\
  (is_prime x = 0 <-> 2 <= x /\ ~ Z.prime x).
Proof.
  intros Hmax.
  assert (H1 : is_prime x = 1 <-> Z.prime x).
  { split; [apply is_prime_sound, Hmax|intros Hp; apply is_prime_complete; assumption]. }
  split; [exact H1|].
  destruct (is_prime_values x) as [[Hlt Hv]|[Hge [Hv|Hv]]].
  - split; [split; [intros _; exact Hlt|intros _; exact Hv]|].
    rewrite Hv. split; [discriminate|lia].
  - split; [rewrite Hv; split; [discriminate|lia]|].
    split; [intros _|intros _; exact Hv].
    split; [exact Hge|]. intros Hp. apply H1 in Hp. congruence.
  - split; [rewrite Hv; split; [discriminate|lia]|].
    rewrite Hv. split; [discriminate|].
    intros [_ Hnp]. exfalso. apply Hnp, H1, Hv.
Qed.

Lemma is_prime_answers_witness :
  53 <= INT_MAX /\
  (is_prime 53 = 1 <-> Z.prime 53) /\
  (is_prime 53 = -1 <-> 53 < 2) /\
  (is_prime 53 = 0 <-> 2 <= 53 /\ ~ Z.prime 53).
Proof.
  assert (H : 53 <= INT_MAX) by (vm_compute; discriminate).
  split; [exact H|]. exact (is_prime_answers 53 H).
Defined.

Lemma next_prime_minimal (n : nat) (x p : Z) :
  INT_MIN <= x <= INT_MAX -> next_prime n x = Ret p ->
  forall q, x <= q < p -> ~ Z.prime q.
Proof.
  revert x. induction n as [|n IH]; intros x Hx Hrun q Hq; [discriminate|].
  simpl in Hrun.
  destruct (Z.eqb_spec (is_prime x) 1) as [Hp|Hnp].
  - injection Hrun as <-. lia.
  - assert (x <> INT_MAX) by (intros ->; apply Hnp, is_prime_INT_MAX).
    rewrite int32_small in Hrun by (unfold INT_MIN, INT_MAX in *; lia).
    destruct (Z.eq_dec q x) as [->|Hne].
    + intros Hprime. apply Hnp, is_prime_complete; [exact Hprime|lia].
    + apply (IH (x + 1)); [unfold INT_MIN, INT_MAX in *; lia|exact Hrun|lia].
Qed.

Lemma next_prime_returns (n : nat) (x : Z) :
  INT_MIN <= x <= INT_MAX -> INT_MAX - x < Z.of_nat n ->
  exists p, next_prime n x = Ret p.
Proof.
  revert x. induction n as [|n IH]; intros x Hx Hfuel; [lia|].
  simpl. destruct (Z.eqb_spec (is_prime x) 1) as [Hp|Hnp]; [eauto|].
  assert (x <> INT_MAX) by (intros ->; apply Hnp, is_prime_INT_MAX).
  rewrite int32_small by (unfold INT_MIN, INT_MAX in *; lia).
  apply IH; unfold INT_MIN, INT_MAX in *; lia.
Qed.

(** X2.  For every C [int] [x], [next_prime] returns: the loop ends before
    [x++] can overflow, because [INT_MAX] is prime.  What it returns is
    the smallest prime that is at least [x], whatever fuel the run had. *)
Theorem next_prime_smallest (x : Z) :
  INT_MIN <= x <= INT_MAX ->
  exists p,
    (exists n, next_prime n x = Ret p) /\
    Z.prime p /\ x <= p <= INT_MAX /\
    (forall q, x <= q < p -> ~ Z.prime q) /\
    (forall n' p', next_prime n' x = Ret p' -> p' = p).
Proof.
  intros Hx.
  destruct (next_prime_returns (Z.to_nat (INT_MAX - x + 1)) x Hx ltac:(lia))
    as [p Hp].
  exists p. split; [eauto|].
  pose proof (next_prime_sound _ _ _ Hx Hp) as (Hprime & Hle).
  pose proof (next_prime_minimal _ _ _ Hx Hp) as Hmin.
  assert (Hpp : Z.prime p) by (apply is_prime_sound; [lia|exact Hprime]).
  split; [exact Hpp|]. split; [exact Hle|]. split; [exact Hmin|].
  intros n' p' Hp'.
  pose proof (next_prime_sound _ _ _ Hx Hp') as (Hprime' & Hle').
  pose proof (next_prime_minimal _ _ _ Hx Hp') as Hmin'.
  assert (Hpp' : Z.prime p') by (apply is_prime_sound; [lia|exact Hprime']).
  destruct (Z.lt_trichotomy p' p) as [Hlt|[Heq|Hgt]]; [|exact Heq|].
  - exfalso. apply (Hmin p'); [lia|exact Hpp'].
  - exfalso. apply (Hmin' p); [lia|exact Hpp].
Qed.

Lemma next_prime_smallest_witness :
  INT_MIN <= 50 <= INT_MAX /\
  exists p,
    (exists n, next_prime n 50 = Ret p) /\
    Z.prime p /\ 50 <= p <= INT_MAX /\
    (forall q, 50 <= q < p -> ~ Z.prime q) /\
    (forall n' p', next_prime n' 50 = Ret p' -> p' = p).
Proof.
  assert (H : INT_MIN <= 50 <= INT_MAX) by (split; vm_compute; discriminate).
  split; [exact H|]. exact (next_prime_smallest 50 H).
Defined.

(** ** [ht_new_sized] and [ht_new] *)

(** X3.  For every base size that is a C [int], [ht_new_sized] returns.
    The table it returns has that base size, the smallest prime that is at
    least the base size as its capacity, the count 0, and an array of
    [size] buckets that are all empty. *)
Theorem ht_new_sized_table (base : Z) :
  INT_MIN <= base <= INT_MAX ->
  (exists n ht, ht_new_sized n base = Ret ht) /\
  forall n ht, ht_new_sized n base = Ret ht ->
    base_size ht = base /\ count ht = 0 /\
    Z.prime (size ht) /\ base <= size ht <= INT_MAX /\
    (forall q, base <= q < size ht -> ~ Z.prime q) /\
    length (items ht) = Z.to_nat (size ht) /\
    (forall it, it ∈ items ht -> it = NULL).
Proof.
  intros Hb. split.
  - destruct (next_prime_returns (Z.to_nat (INT_MAX - base + 1)) base Hb
                ltac:(lia)) as [p Hp].
    eexists _, _. unfold ht_new_sized. rewrite Hp. reflexivity.
  - intros n ht Hrun.
    apply ht_new_sized_inv in Hrun as (p & Hp & Hbase & Hsize & Hcount & Hitems).
    pose proof (next_prime_sound _ _ _ Hb Hp) as (Hprime & Hle).
    pose proof (next_prime_minimal _ _ _ Hb Hp) as Hmin.
    rewrite Hsize, Hitems.
    split; [exact Hbase|]. split; [exact Hcount|].
    split; [apply is_prime_sound; [lia|exact Hprime]|].
    split; [exact Hle|]. split; [exact Hmin|].
    split; [apply length_replicate|].
    intros it Hin. apply elem_of_replicate in Hin as [-> _]. reflexivity.
Qed.

Lemma ht_new_sized_table_witness :
  INT_MIN <= 50 <= INT_MAX /\
  (exists n ht, ht_new_sized n 50 = Ret ht) /\
  forall n ht, ht_new_sized n 50 = Ret ht ->
    base_size ht = 50 /\ count ht = 0 /\
    Z.prime (size ht) /\ 50 <= size ht <= INT_MAX /\
    (forall q, 50 <= q < size ht -> ~ Z.prime q) /\
    length (items ht) = Z.to_nat (size ht) /\
    (forall it, it ∈ items ht -> it = NULL).
Proof.
  assert (H : INT_MIN <= 50 <= INT_MAX) by (split; vm_compute; discriminate).
  split; [exact H|]. exact (ht_new_sized_table 50 H).
Defined.

Lemma ht_get_hash_first `{hash_primes} (key : string) (m : Z) :
  0 <= ht_hash key HT_PRIME_1 m < m -> m <= INT_MAX ->
  ht_get_hash key m 0 = ht_hash key HT_PRIME_1 m.
Proof.
  intros Ha Hm. unfold ht_get_hash. rewrite Z.mul_0_l.
  change (int32 0) with 0. rewrite Z.add_0_r.
  rewrite int32_small by (unfold INT_MIN, INT_MAX in *; lia).
  apply Z.rem_small. lia.
Qed.

(** X4.  In the table [ht_new_sized] returns no key is found: for an ASCII
    key (and bases up to [2 ^ 22]) the search reads the empty bucket
    [hash_a] and returns not-found after one probe; the first insertion
    stores the item in that bucket and sets the count to 1. *)
Theorem fresh_table_first_probe (hp : hash_primes) (n : nat) (base : Z)
    (ht : ht_hash_table) (key value : string) (m : nat) :
  INT_MIN <= base <= INT_MAX ->
  2 <= HT_PRIME_1 <= 2 ^ 22 ->
  is_ascii key = true ->
  ht_new_sized n base = Ret ht ->
  ht_search (S m) ht key = Ret None /\
  ht_insert (S (S m)) ht key value
  = Ret (set_count (store ht (ht_hash key HT_PRIME_1 (size ht))
                      (Item key value)) 1).
Proof.
  intros Hb Hp1 Hkey Hrun.
  apply ht_new_sized_inv in Hrun as (p & Hp & Hbase & Hsize & Hcount & Hitems).
  pose proof (next_prime_sound _ _ _ Hb Hp) as (Hprime & Hle).
  assert (Hp2 : 2 <= p).
  { destruct (is_prime_values p) as [[_ E]|[H2 _]]; [congruence|exact H2]. }
  assert (Hm : 0 < size ht <= INT_MAX) by (rewrite Hsize; lia).
  pose proof (ht_hash_in_range key HT_PRIME_1 (size ht) Hkey Hp1 Hm) as Ha.
  assert (Hfirst : ht_get_hash key (size ht) 0 = ht_hash key HT_PRIME_1 (size ht)).
  { apply ht_get_hash_first; [exact Ha|lia]. }
  assert (Hnull : bucket ht (ht_hash key HT_PRIME_1 (size ht)) = Ret NULL).
  { unfold bucket.
    destruct (Z.ltb_spec (ht_hash key HT_PRIME_1 (size ht)) 0); [lia|].
    rewrite Hitems, lookup_replicate_2; [reflexivity|]. lia. }
  split.
  - unfold ht_search. rewrite Hfirst. simpl. rewrite Hnull. reflexivity.
  - rewrite ht_insert_unfold. unfold load.
    destruct (Z.eqb_spec (size ht) 0); [lia|].
    rewrite Hcount. change (int32 (0 * 100)) with 0.
    rewrite Z.quot_0_l by lia. cbn [bind Z.ltb Z.compare].
    rewrite Hfirst. simpl. rewrite Hnull. simpl. rewrite Hcount. reflexivity.
Qed.

Lemma fresh_table_first_probe_witness :
  INT_MIN <= 50 <= INT_MAX /\
  2 <= @HT_PRIME_1 tutorial_primes <= 2 ^ 22 /\
  is_ascii "cat" = true /\
  ht_new_sized 8 50 = Ret empty_53 /\
  @ht_search tutorial_primes 1 empty_53 "cat" = Ret None /\
  @ht_insert tutorial_primes 2 empty_53 "cat" "felix"
  = Ret (set_count (store empty_53
                      (ht_hash "cat" (@HT_PRIME_1 tutorial_primes) (size empty_53))
                      (Item "cat" "felix")) 1).
Proof.
  assert (H1 : INT_MIN <= 50 <= INT_MAX) by (split; vm_compute; discriminate).
  assert (H2 : 2 <= @HT_PRIME_1 tutorial_primes <= 2 ^ 22)
    by (split; vm_compute; discriminate).
  assert (H3 : is_ascii "cat" = true) by reflexivity.
  assert (H4 : ht_new_sized 8 50 = Ret empty_53) by reflexivity.
  split; [exact H1|]. split; [exact H2|]. split; [exact H3|]. split; [exact H4|].
  exact (fresh_table_first_probe tutorial_primes 8 50 empty_53 "cat" "felix" 0
           H1 H2 H3 H4).
Defined.

(** ** [ht_del_item] and [ht_del_hash_table] *)

Lemma del_items_outcome (l : list ht_item) :
  ((HT_DELETED_ITEM ∉ l) /\ del_items l = Ret tt) \/
  ((HT_DELETED_ITEM ∈ l) /\ del_items l = Fault).
Proof.
  induction l as [|[| |k v] l IH]; simpl.
  - left. split; [apply not_elem_of_nil|reflexivity].
  - destruct IH as [[Hn E]|[Hy E]]; [left|right]; (split; [|exact E]).
    + intros Hin. apply elem_of_cons in Hin as [Hd|Hin]; [discriminate|auto].
    + apply elem_of_cons. auto.
  - right. split; [apply elem_of_cons; auto|reflexivity].
  - destruct IH as [[Hn E]|[Hy E]]; [left|right]; (split; [|exact E]).
    + intros Hin. apply elem_of_cons in Hin as [Hd|Hin]; [discriminate|auto].
    + apply elem_of_cons. auto.
Qed.

(** X5.  [ht_del_hash_table] frees every bucket that is not [NULL].  It
    completes exactly when no bucket holds the sentinel; when one does,
    [ht_del_item] is called on [&HT_DELETED_ITEM] and frees an object that
    was never allocated. *)
Theorem ht_del_hash_table_outcome (ht : ht_hash_table) :
  (ht_del_hash_table ht = Ret tt <-> (HT_DELETED_ITEM ∉ items ht)) /\
  (ht_del_hash_table ht = Fault <-> (HT_DELETED_ITEM ∈ items ht)).
Proof.
  unfold ht_del_hash_table.
  destruct (del_items_outcome (items ht)) as [[Hn E]|[Hy E]]; rewrite E.
  - split; split; try discriminate; try tauto.
  - split; split; try discriminate; try tauto.
Qed.

(** ** Items sit on the probe sequence of their key *)

Lemma bucket_store_inv (ht : ht_hash_table) (j0 j : Z) (it z : ht_item) :
  0 <= j0 -> bucket (store ht j0 it) j = Ret z ->
  bucket ht j = Ret z \/ (j = j0 /\ z = it).
Proof.
  intros Hj0 Hz. apply bucket_inv in Hz as (Hj & Hl). simpl in Hl.
  apply list_lookup_insert_Some in Hl as [(Heq & <- & _)|(Hne & Hl)].
  - right. split; [|reflexivity]. apply Z2Nat.inj; lia.
  - left. unfold bucket. destruct (Z.ltb_spec j 0); [lia|].
    rewrite Hl. reflexivity.
Qed.

Lemma bucket_stored (ht : ht_hash_table) (j : Z) (k v : string) :
  bucket ht j = Ret (Item k v) -> stored ht k v.
Proof.
  intros Hb. apply bucket_inv in Hb as (_ & Hl).
  eapply list_elem_of_lookup_2, Hl.
Qed.

Lemma stored_bucket (ht : ht_hash_table) (k v : string) :
  stored ht k v -> exists j, bucket ht j = Ret (Item k v).
Proof.
  intros Hs. apply list_elem_of_lookup in Hs as [i Hi].
  exists (Z.of_nat i). unfold bucket.
  destruct (Z.ltb_spec (Z.of_nat i) 0); [lia|].
  rewrite Nat2Z.id, Hi. reflexivity.
Qed.

Section Placed.

Context `{hash_primes}.

Lemma free_path_S (ht : ht_hash_table) (key : string) (a : nat) (x : ht_item) :
  free_path ht key a ->
  bucket ht (probe_index key (size ht) a) = Ret x ->
  non_null x = true -> holds_key key x = false ->
  free_path ht key (S a).
Proof.
  intros Hfree Hx Hn Hk a' Ha'.
  destruct (Nat.eq_dec a' a) as [->|Hne]; [eauto|].
  apply Hfree. lia.
Qed.

Lemma free_path_le (ht : ht_hash_table) (key : string) (a b : nat) :
  (b <= a)%nat -> free_path ht key a -> free_path ht key b.
Proof. intros Hle Hfree a' Ha'. apply Hfree. lia. Qed.

Lemma free_path_keeps (ht ht' : ht_hash_table) (key : string) (a : nat) :
  keeps key ht ht' -> free_path ht key a -> free_path ht' key a.
Proof.
  intros [Hs Hb] Hfree a' Ha'.
  destruct (Hfree a' Ha') as (x & Hx & Hn & Hk).
  destruct (Hb _ _ Hx) as (x' & Hx' & Hr).
  exists x'. rewrite Hs. split; [exact Hx'|].
  destruct Hr as [->|(_ & Hn' & Hk')]; auto.
Qed.

(** One round of the search over a bucket of the free path. *)
Lemma search_loop_skip (n : nat) (ht : ht_hash_table) (key : string)
    (a : nat) (x : ht_item) :
  bucket ht (probe_index key (size ht) a) = Ret x ->
  non_null x = true -> holds_key key x = false ->
  search_loop (S n) ht key (fst (probe_state key (size ht) a))
    (snd (probe_state key (size ht) a))
  = search_loop n ht key (fst (probe_state key (size ht) (S a)))
      (snd (probe_state key (size ht) (S a))).
Proof.
  intros Hx Hn Hk. unfold probe_index in Hx.
  cbn [search_loop]. rewrite Hx. cbn [bind].
  destruct x as [| |k v]; [discriminate|reflexivity|].
  simpl in Hk. rewrite Hk. reflexivity.
Qed.

Lemma search_loop_free_path (a n : nat) (ht : ht_hash_table) (key : string) :
  free_path ht key a ->
  ht_search (a + n) ht key
  = search_loop n ht key (fst (probe_state key (size ht) a))
      (snd (probe_state key (size ht) a)).
Proof.
  revert n. induction a as [|a IH]; intros n Hfree; [reflexivity|].
  replace (S a + n)%nat with (a + S n)%nat by lia.
  rewrite IH by (eapply free_path_le; [|exact Hfree]; lia).
  destruct (Hfree a ltac:(lia)) as (x & Hx & Hn & Hk).
  eapply search_loop_skip; eassumption.
Qed.

(** An item on its path is what the search returns. *)
Lemma search_at_item (ht : ht_hash_table) (k v : string) (a n : nat) :
  free_path ht k a ->
  bucket ht (probe_index k (size ht) a) = Ret (Item k v) ->
  ht_search (a + S n) ht k = Ret (Some v).
Proof.
  intros Hfree Hb. rewrite search_loop_free_path by exact Hfree.
  unfold probe_index in Hb. cbn [search_loop]. rewrite Hb. cbn [bind].
  rewrite String.eqb_refl. reflexivity.
Qed.

Lemma search_short_of_item (ht : ht_hash_table) (k : string) (a n : nat) :
  free_path ht k a -> (n <= a)%nat -> ht_search n ht k = OutOfFuel.
Proof.
  intros Hfree Hle.
  replace n with (n + 0)%nat by lia.
  rewrite search_loop_free_path by (eapply free_path_le; eassumption).
  reflexivity.
Qed.

Lemma search_loop_found_stored (n : nat) (ht : ht_hash_table) (key v : string)
    (index i : Z) :
  search_loop n ht key index i = Ret (Some v) -> stored ht key v.
Proof.
  revert index i. induction n as [|n IH]; intros index i Hrun; [discriminate|].
  simpl in Hrun.
  destruct (bucket ht index) as [[| |k w]| |] eqn:Hb; simpl in Hrun;
    try discriminate.
  - eapply IH, Hrun.
  - destruct (String.eqb k key) eqn:Hk; [|eapply IH, Hrun].
    apply String.eqb_eq in Hk as ->. injection Hrun as ->.
    eapply bucket_stored, Hb.
Qed.

Lemma placed_unique (ht : ht_hash_table) (j1 j2 : Z) (k v1 v2 : string) :
  placed ht ->
  bucket ht j1 = Ret (Item k v1) -> bucket ht j2 = Ret (Item k v2) ->
  j1 = j2.
Proof.
  intros Hpl H1 H2.
  destruct (Hpl _ _ _ H1) as (a1 & E1 & F1).
  destruct (Hpl _ _ _ H2) as (a2 & E2 & F2).
  assert (Hclash : forall a b j w, (a < b)%nat -> free_path ht k b ->
            probe_index k (size ht) a = j -> bucket ht j = Ret (Item k w) ->
            False).
  { intros a b j w Hlt Fb Ea Hj.
    destruct (Fb a Hlt) as (x & Hx & _ & Hk).
    rewrite Ea, Hj in Hx. injection Hx as <-.
    simpl in Hk. rewrite String.eqb_refl in Hk. discriminate. }
  destruct (Nat.lt_trichotomy a1 a2) as [Hlt|[Heq|Hgt]].
  - exfalso. eapply (Hclash a1 a2); eassumption.
  - congruence.
  - exfalso. eapply (Hclash a2 a1); eassumption.
Qed.

Lemma placed_set_count (ht : ht_hash_table) (c : Z) :
  placed ht -> placed (set_count ht c).
Proof. intros Hpl. exact Hpl. Qed.

(** Storing the new item where the loop of [ht_insert] lands. *)
Lemma placed_store_landing (ht : ht_hash_table) (key value : string)
    (a : nat) (y : ht_item) :
  placed ht -> free_path ht key a ->
  bucket ht (probe_index key (size ht) a) = Ret y ->
  holds_key key y = true \/ y = NULL ->
  placed (store ht (probe_index key (size ht) a) (Item key value)).
Proof.
  intros Hpl Hfree Hy Hland.
  set (j0 := probe_index key (size ht) a) in *.
  assert (Hj0 : 0 <= j0) by (apply bucket_inv in Hy; tauto).
  assert (Hpath : forall k b, free_path ht k b ->
            (k = key \/ holds_key k (Item key value) = false \/ y = NULL) ->
            free_path (store ht j0 (Item key value)) k b).
  { intros k b Fb Hk a' Ha'.
    destruct (Fb a' Ha') as (x & Hx & Hn & Hkx).
    change (size (store ht j0 (Item key value))) with (size ht).
    destruct (bucket_store_cases ht j0 _ (Item key value) x y Hx Hy)
      as [E|[-> E]]; [eauto|].
    exists (Item key value). split; [exact E|]. split; [reflexivity|].
    destruct Hland as [Hyk| ->]; [|discriminate].
    destruct Hk as [->|[Hk| ->]]; [congruence|exact Hk|discriminate]. }
  intros j k v Hj.
  change (size (store ht j0 (Item key value))) with (size ht).
  destruct (bucket_store_inv ht j0 j _ _ Hj0 Hj) as [Hold|[-> [= -> ->]]].
  - destruct (Hpl _ _ _ Hold) as (b & Eb & Fb).
    exists b. split; [exact Eb|]. apply Hpath; [exact Fb|].
    destruct (String.eqb key k) eqn:Hk.
    + left. apply String.eqb_eq in Hk. auto.
    + right. left. exact Hk.
  - exists a. split; [reflexivity|]. apply Hpath; auto.
Qed.

Lemma placed_store_deleted (ht : ht_hash_table) (j0 : Z) (y : ht_item) :
  placed ht -> bucket ht j0 = Ret y -> placed (store ht j0 HT_DELETED_ITEM).
Proof.
  intros Hpl Hy.
  assert (Hj0 : 0 <= j0) by (apply bucket_inv in Hy; tauto).
  intros j k v Hj.
  change (size (store ht j0 HT_DELETED_ITEM)) with (size ht).
  destruct (bucket_store_inv ht j0 j _ _ Hj0 Hj) as [Hold|[_ [=]]].
  destruct (Hpl _ _ _ Hold) as (b & Eb & Fb).
  exists b. split; [exact Eb|].
  intros a' Ha'. destruct (Fb a' Ha') as (x & Hx & Hn & Hkx).
  change (size (store ht j0 HT_DELETED_ITEM)) with (size ht).
  destruct (bucket_store_cases ht j0 _ HT_DELETED_ITEM x y Hx Hy)
    as [E|[_ E]]; eauto.
Qed.

End Placed.

Section PlacedLoops.

Context `{hash_primes}.

(** Where the loop of [ht_insert] lands: on the first bucket of the probe
    sequence that is empty or holds the key. *)
Lemma insert_loop_lands (n : nat) (ht : ht_hash_table) (key value : string)
    (a0 : nat) (ht' : ht_hash_table) :
  free_path ht key a0 ->
  insert_loop n ht key value (fst (probe_state key (size ht) a0))
    (snd (probe_state key (size ht) a0)) = Ret ht' ->
  exists a, free_path ht key a /\
    ((bucket ht (probe_index key (size ht) a) = Ret NULL /\
      ht' = set_count (store ht (probe_index key (size ht) a) (Item key value))
              (int32 (count ht + 1))) \/
     (exists v0, bucket ht (probe_index key (size ht) a) = Ret (Item key v0) /\
      ht' = store ht (probe_index key (size ht) a) (Item key value))).
Proof.
  revert a0. induction n as [|n IH]; intros a0 Hfree Hrun; [discriminate|].
  cbn [insert_loop] in Hrun.
  destruct (bucket ht (fst (probe_state key (size ht) a0))) as [cur| |] eqn:Hcur;
    cbn [bind] in Hrun; try discriminate.
  destruct cur as [| |k v].
  - exists a0. split; [exact Hfree|]. left. injection Hrun as <-. auto.
  - apply (IH (S a0)); [|exact Hrun].
    eapply free_path_S; [exact Hfree|exact Hcur| |]; reflexivity.
  - destruct (String.eqb k key) eqn:Hk.
    + exists a0. split; [exact Hfree|]. right.
      apply String.eqb_eq in Hk as ->. injection Hrun as <-. eauto.
    + apply (IH (S a0)); [|exact Hrun].
      eapply free_path_S; [exact Hfree|exact Hcur|reflexivity|exact Hk].
Qed.

Lemma free_path_0 (ht : ht_hash_table) (key : string) : free_path ht key 0.
Proof. intros a' Ha'. lia. Qed.

Lemma insert_loop_placed (n : nat) (ht : ht_hash_table) (key value : string)
    (ht' : ht_hash_table) :
  placed ht ->
  insert_loop n ht key value (ht_get_hash key (size ht) 0) 1 = Ret ht' ->
  placed ht'.
Proof.
  intros Hpl Hrun.
  destruct (insert_loop_lands n ht key value 0 ht' (free_path_0 ht key) Hrun)
    as (a & Hfree & [(Hnull & ->)|(v0 & Hit & ->)]).
  - apply placed_set_count.
    eapply placed_store_landing; [exact Hpl|exact Hfree|exact Hnull|auto].
  - eapply placed_store_landing; [exact Hpl|exact Hfree|exact Hit|].
    left. simpl. apply String.eqb_refl.
Qed.

Lemma delete_loop_placed (n : nat) (ht : ht_hash_table) (key : string)
    (index i : Z) (ht' : ht_hash_table) :
  placed ht -> delete_loop n ht key index i = Ret ht' -> placed ht'.
Proof.
  revert ht index i. induction n as [|n IH]; intros ht index i Hpl Hrun;
    [discriminate|].
  simpl in Hrun.
  destruct (bucket ht index) as [[| |k v]| |] eqn:Hcur; simpl in Hrun;
    try discriminate.
  - injection Hrun as <-. exact Hpl.
  - eapply IH; eassumption.
  - destruct (String.eqb k key); [|eapply IH; eassumption].
    eapply IH; [|exact Hrun]. eapply placed_store_deleted; eassumption.
Qed.

Lemma ht_new_sized_placed (n : nat) (base : Z) (ht : ht_hash_table) :
  ht_new_sized n base = Ret ht -> placed ht.
Proof.
  intros Hrun.
  apply ht_new_sized_inv in Hrun as (p & _ & _ & _ & _ & Hitems).
  intros j k v Hj. apply bucket_inv in Hj as (_ & Hl).
  rewrite Hitems in Hl. apply lookup_replicate in Hl as [[=] _].
Qed.

End PlacedLoops.

(** ** Properties that every operation keeps *)

Section Preserved.

Context `{hash_primes}.

(** A property of tables that holds of every new table and that the probe
    loops of [ht_insert] and [ht_delete] keep. *)
Variable P : ht_hash_table -> Prop.
Hypothesis P_new :
  forall n base ht, ht_new_sized n base = Ret ht -> P ht.
Hypothesis P_insert_loop :
  forall n ht key value ht', P ht ->
    insert_loop n ht key value (ht_get_hash key (size ht) 0) 1 = Ret ht' ->
    P ht'.
Hypothesis P_delete_loop :
  forall n ht key ht', P ht ->
    delete_loop n ht key (ht_get_hash key (size ht) 0) 1 = Ret ht' -> P ht'.

Lemma resize_with_preserved
    (ins : ht_hash_table -> string -> string -> res ht_hash_table)
    (n : nat) (ht : ht_hash_table) (base : Z) (ht' : ht_hash_table) :
  (forall t k v t', P t -> ins t k v = Ret t' -> P t') ->
  P ht -> resize_with ins n ht base = Ret ht' -> P ht'.
Proof.
  intros Hins HP Hrun. unfold resize_with in Hrun.
  destruct (base <? HT_INITIAL_BASE_SIZE); [injection Hrun as <-; exact HP|].
  destruct (ht_new_sized n base) as [new_ht| |] eqn:Hnew; simpl in Hrun;
    try discriminate.
  destruct (rehash ins (items ht) new_ht) as [ht1| |] eqn:Hre; simpl in Hrun;
    try discriminate.
  destruct (ht_del_hash_table ht); simpl in Hrun; try discriminate.
  injection Hrun as <-.
  eapply rehash_preserves; [exact Hins| |exact Hre].
  eapply P_new, Hnew.
Qed.

Lemma ht_insert_preserved (n : nat) (ht : ht_hash_table) (key value : string)
    (ht' : ht_hash_table) :
  P ht -> ht_insert n ht key value = Ret ht' -> P ht'.
Proof.
  revert ht key value ht'.
  induction n as [|n IH]; intros ht key value ht' HP Hrun; [discriminate|].
  simpl in Hrun.
  destruct (load ht) as [l| |]; simpl in Hrun; try discriminate.
  destruct (70 <? l).
  - destruct (resize_with (ht_insert n) n ht (int32 (base_size ht * 2)))
      as [ht1| |] eqn:Hres; simpl in Hrun; try discriminate.
    eapply P_insert_loop; [|exact Hrun].
    eapply resize_with_preserved; [exact IH|exact HP|exact Hres].
  - simpl in Hrun. eapply P_insert_loop; eassumption.
Qed.

Lemma ht_resize_preserved (n : nat) (ht : ht_hash_table) (base : Z)
    (ht' : ht_hash_table) :
  P ht -> ht_resize n ht base = Ret ht' -> P ht'.
Proof.
  intros HP Hrun.
  eapply resize_with_preserved; [|exact HP|exact Hrun].
  intros t k v t'. apply ht_insert_preserved.
Qed.

Lemma ht_delete_preserved (n : nat) (ht : ht_hash_table) (key : string)
    (ht' : ht_hash_table) :
  P ht -> ht_delete n ht key = Ret ht' -> P ht'.
Proof.
  intros HP Hrun. unfold ht_delete in Hrun.
  destruct (load ht) as [l| |]; simpl in Hrun; try discriminate.
  destruct (l <? 10).
  - destruct (ht_resize_down n ht) as [ht1| |] eqn:Hres; simpl in Hrun;
      try discriminate.
    eapply P_delete_loop; [|exact Hrun].
    eapply ht_resize_preserved; [exact HP|exact Hres].
  - simpl in Hrun. eapply P_delete_loop; eassumption.
Qed.

Lemma reachable_preserved (ht : ht_hash_table) : reachable ht -> P ht.
Proof.
  intros Hreach.
  induction Hreach as [n ht Hnew|n ht key value ht' _ IH Hrun
                      |n ht key ht' _ IH Hrun|n ht base ht' _ IH Hb Hrun].
  - eapply P_new, Hnew.
  - eapply ht_insert_preserved; eassumption.
  - eapply ht_delete_preserved; eassumption.
  - eapply ht_resize_preserved; eassumption.
Qed.

End Preserved.

Lemma next_prime_is_prime (n : nat) (x p : Z) :
  next_prime n x = Ret p -> is_prime p = 1.
Proof.
  revert x. induction n as [|n IH]; intros x Hrun; [discriminate|].
  simpl in Hrun. destruct (Z.eqb_spec (is_prime x) 1) as [Hp|].
  - injection Hrun as <-. exact Hp.
  - eapply IH, Hrun.
Qed.

Lemma ht_new_sized_array_ok (n : nat) (base : Z) (ht : ht_hash_table) :
  ht_new_sized n base = Ret ht -> array_ok ht.
Proof.
  intros Hrun.
  apply ht_new_sized_inv in Hrun as (p & Hp & _ & Hsize & _ & Hitems).
  apply next_prime_is_prime in Hp.
  unfold array_ok. rewrite Hsize, Hitems. split; [apply length_replicate|].
  destruct (is_prime_values p) as [[_ E]|[H2 _]]; [congruence|exact H2].
Qed.

Lemma reachable_placed `{hash_primes} (ht : ht_hash_table) :
  reachable ht -> placed ht.
Proof.
  apply reachable_preserved.
  - apply ht_new_sized_placed.
  - apply insert_loop_placed.
  - intros n t key t'. apply delete_loop_placed.
Qed.

Lemma reachable_array_ok `{hash_primes} (ht : ht_hash_table) :
  reachable ht -> array_ok ht.
Proof.
  apply reachable_preserved.
  - apply ht_new_sized_array_ok.
  - intros n t key value t' [Hlen Hsz] Hrun.
    apply insert_loop_shape in Hrun as (_ & Hs & Hl & _).
    unfold array_ok. rewrite Hs, Hl. auto.
  - intros n t key t' [Hlen Hsz] Hrun.
    apply delete_loop_shape in Hrun as (_ & Hs & Hl & _).
    unfold array_ok. rewrite Hs, Hl. auto.
Qed.

(** ** The bindings of a table *)

Lemma stored_store_same (ht : ht_hash_table) (j : Z) (y : ht_item)
    (k v : string) :
  bucket ht j = Ret y -> stored (store ht j (Item k v)) k v.
Proof.
  intros Hy. eapply bucket_stored, bucket_store_same, Hy.
Qed.

(** Writing over a bucket that does not hold [k] something that does not
    hold [k] either leaves the bindings of [k] alone. *)
Lemma stored_store_other (ht : ht_hash_table) (j : Z) (it y : ht_item)
    (k v : string) :
  bucket ht j = Ret y -> holds_key k y = false -> holds_key k it = false ->
  stored (store ht j it) k v <-> stored ht k v.
Proof.
  intros Hy Hky Hkit.
  assert (Hj : 0 <= j) by (apply bucket_inv in Hy; tauto).
  split; intros Hs; apply stored_bucket in Hs as [j' Hj'].
  - destruct (bucket_store_inv ht j j' _ _ Hj Hj') as [Hold|[_ <-]].
    + eapply bucket_stored, Hold.
    + simpl in Hkit. rewrite String.eqb_refl in Hkit. discriminate.
  - destruct (bucket_store_cases ht j j' it _ y Hj' Hy) as [E|[<- _]].
    + eapply bucket_stored, E.
    + simpl in Hky. rewrite String.eqb_refl in Hky. discriminate.
Qed.

Lemma holds_other_key (k key v : string) :
  k <> key -> holds_key k (Item key v) = false.
Proof. intros Hne. simpl. apply String.eqb_neq. congruence. Qed.

Section Bindings.

Context `{hash_primes}.

Lemma placed_stored_found (ht : ht_hash_table) (k v : string) :
  placed ht -> stored ht k v ->
  exists a, (forall n, ht_search (a + S n) ht k = Ret (Some v)) /\
            (forall n, (n <= a)%nat -> ht_search n ht k = OutOfFuel).
Proof.
  intros Hpl Hs. apply stored_bucket in Hs as [j Hj].
  destruct (Hpl _ _ _ Hj) as (a & <- & Hfree).
  exists a. split; intros n.
  - apply search_at_item; assumption.
  - apply search_short_of_item, Hfree.
Qed.

Lemma placed_functional (ht : ht_hash_table) (k v1 v2 : string) :
  placed ht -> stored ht k v1 -> stored ht k v2 -> v1 = v2.
Proof.
  intros Hpl H1 H2.
  apply stored_bucket in H1 as [j1 H1], H2 as [j2 H2].
  pose proof (placed_unique ht j1 j2 k v1 v2 Hpl H1 H2) as <-.
  congruence.
Qed.

Lemma placed_not_found (n : nat) (ht : ht_hash_table) (k v : string) :
  placed ht -> ht_search n ht k = Ret None -> ~ stored ht k v.
Proof.
  intros Hpl Hnone Hs.
  destruct (placed_stored_found ht k v Hpl Hs) as (a & Hfound & Hshort).
  destruct (Nat.le_gt_cases n a) as [Hle|Hgt].
  - rewrite (Hshort n Hle) in Hnone. discriminate.
  - replace n with (a + S (n - S a))%nat in Hnone by lia.
    rewrite Hfound in Hnone. discriminate.
Qed.

Lemma insert_loop_bindings (n : nat) (ht : ht_hash_table) (key value : string)
    (ht' : ht_hash_table) :
  insert_loop n ht key value (ht_get_hash key (size ht) 0) 1 = Ret ht' ->
  stored ht' key value /\
  forall k v, k <> key -> (stored ht' k v <-> stored ht k v).
Proof.
  intros Hrun.
  destruct (insert_loop_lands n ht key value 0 ht' (free_path_0 ht key) Hrun)
    as (a & _ & [(Hy & ->)|(v0 & Hy & ->)]).
  - split; [eapply stored_store_same, Hy|]. intros k v Hne.
    apply (stored_store_other ht _ _ _ k v Hy); [reflexivity|].
    apply holds_other_key, Hne.
  - split; [eapply stored_store_same, Hy|]. intros k v Hne.
    apply (stored_store_other ht _ _ _ k v Hy); apply holds_other_key, Hne.
Qed.

Lemma delete_loop_bindings (n : nat) (ht : ht_hash_table) (key : string)
    (index i : Z) (ht' : ht_hash_table) (k v : string) :
  delete_loop n ht key index i = Ret ht' -> k <> key ->
  (stored ht' k v <-> stored ht k v).
Proof.
  intros Hrun Hne. revert ht index i Hrun.
  induction n as [|n IH]; intros ht index i Hrun; [discriminate|].
  simpl in Hrun.
  destruct (bucket ht index) as [[| |k0 v0]| |] eqn:Hcur; simpl in Hrun;
    try discriminate.
  - injection Hrun as <-. reflexivity.
  - eapply IH, Hrun.
  - destruct (String.eqb k0 key) eqn:Hk; [|eapply IH, Hrun].
    apply String.eqb_eq in Hk as ->.
    rewrite (IH _ _ _ Hrun).
    apply (stored_store_other ht _ _ _ k v Hcur); [|reflexivity].
    apply holds_other_key, Hne.
Qed.

End Bindings.

(** ** The bindings through [ht_resize] *)

Section Rehash.

Context `{hash_primes}.

(** An insertion that keeps the placement, binds its key and leaves the
    other keys alone. *)
Variable ins : ht_hash_table -> string -> string -> res ht_hash_table.
Hypothesis ins_placed :
  forall t k v t', placed t -> ins t k v = Ret t' -> placed t'.
Hypothesis ins_stored :
  forall t k v t', placed t -> ins t k v = Ret t' -> stored t' k v.
Hypothesis ins_other :
  forall t k v t' k' v', placed t -> ins t k v = Ret t' -> k' <> k ->
    (stored t' k' v' <-> stored t k' v').

Lemma rehash_bindings (L l : list ht_item) (t r : ht_hash_table) :
  (forall k v1 v2, Item k v1 ∈ L -> Item k v2 ∈ L -> v1 = v2) ->
  (forall k v, Item k v ∈ l -> Item k v ∈ L) ->
  placed t -> (forall k v, stored t k v -> Item k v ∈ L) ->
  rehash ins l t = Ret r ->
  placed r /\ (forall k v, stored r k v -> Item k v ∈ L) /\
  (forall k v, stored t k v \/ Item k v ∈ l -> stored r k v).
Proof.
  intros Hfun. revert t.
  induction l as [|x l IH]; intros t Hsub Hpl Hin Hrun.
  - injection Hrun as <-. split; [exact Hpl|]. split; [exact Hin|].
    intros k v [Hs|Hs]; [exact Hs|]. apply elem_of_nil in Hs as [].
  - assert (Hsub' : forall k v, Item k v ∈ l -> Item k v ∈ L).
    { intros k v Hk. apply Hsub. right. exact Hk. }
    assert (Hskip : x = NULL \/ x = HT_DELETED_ITEM ->
              rehash ins l t = Ret r ->
              placed r /\ (forall k v, stored r k v -> Item k v ∈ L) /\
              (forall k v, stored t k v \/ Item k v ∈ (x :: l) -> stored r k v)).
    { intros Hx Hrun'.
      destruct (IH t Hsub' Hpl Hin Hrun') as (Hplr & Hinr & Hall).
      split; [exact Hplr|]. split; [exact Hinr|].
      intros k v [Hs|Hs]; [apply Hall; auto|].
      apply elem_of_cons in Hs as [Hs|Hs]; [|apply Hall; auto].
      destruct Hx as [-> | ->]; discriminate. }
    destruct x as [| |k0 v0]; [apply Hskip; auto|apply Hskip; auto|].
    clear Hskip. simpl in Hrun.
    destruct (ins t k0 v0) as [t1| |] eqn:H1; simpl in Hrun; try discriminate.
    pose proof (ins_placed _ _ _ _ Hpl H1) as Hpl1.
    pose proof (ins_stored _ _ _ _ Hpl H1) as Hst1.
    assert (H0 : Item k0 v0 ∈ L) by (apply Hsub; left).
    assert (Hin1 : forall k v, stored t1 k v -> Item k v ∈ L).
    { intros k v Hs. destruct (String.eqb_spec k k0) as [->|Hne].
      - rewrite (placed_functional t1 k0 v v0 Hpl1 Hs Hst1). exact H0.
      - apply Hin. apply (ins_other _ _ _ _ k v Hpl H1 Hne). exact Hs. }
    destruct (IH t1 Hsub' Hpl1 Hin1 Hrun) as (Hplr & Hinr & Hall).
    split; [exact Hplr|]. split; [exact Hinr|].
    assert (Hkeep : forall k v, Item k v ∈ L -> k = k0 \/ stored t k v ->
              (k = k0 -> v = v0) -> stored r k v).
    { intros k v HL Hor Hv. apply Hall. left.
      destruct (String.eqb_spec k k0) as [->|Hne].
      - rewrite (Hv eq_refl). exact Hst1.
      - apply (ins_other _ _ _ _ k v Hpl H1 Hne).
        destruct Hor as [?|Hs]; [contradiction|exact Hs]. }
    intros k v [Hs|Hs].
    + apply Hkeep; [apply Hin, Hs|auto|].
      intros ->. apply (Hfun k0); [apply Hin, Hs|exact H0].
    + apply elem_of_cons in Hs as [[= -> ->]|Hs]; [apply Hall; auto|].
      apply Hall. auto.
Qed.

Lemma resize_with_bindings (n : nat) (ht : ht_hash_table) (base : Z)
    (ht' : ht_hash_table) :
  placed ht -> resize_with ins n ht base = Ret ht' ->
  placed ht' /\ forall k v, stored ht' k v <-> stored ht k v.
Proof.
  intros Hpl Hrun. unfold resize_with in Hrun.
  destruct (base <? HT_INITIAL_BASE_SIZE).
  { injection Hrun as <-. split; [exact Hpl|reflexivity]. }
  destruct (ht_new_sized n base) as [new_ht| |] eqn:Hnew; simpl in Hrun;
    try discriminate.
  destruct (rehash ins (items ht) new_ht) as [ht1| |] eqn:Hre; simpl in Hrun;
    try discriminate.
  destruct (ht_del_hash_table ht); simpl in Hrun; try discriminate.
  injection Hrun as <-.
  assert (Hempty : forall k v, ~ stored new_ht k v).
  { intros k v Hs.
    apply ht_new_sized_inv in Hnew as (p & _ & _ & _ & _ & Hitems).
    unfold stored in Hs. rewrite Hitems in Hs.
    apply elem_of_replicate in Hs as [[=] _]. }
  destruct (rehash_bindings (items ht) (items ht) new_ht ht1) as (Hpl1 & Hin & Hall).
  - intros k v1 v2. apply placed_functional, Hpl.
  - auto.
  - eapply ht_new_sized_placed, Hnew.
  - intros k v Hs. destruct (Hempty _ _ Hs).
  - exact Hre.
  - split; [exact Hpl1|]. intros k v. split; [apply Hin|].
    intros Hs. apply Hall. right. exact Hs.
Qed.

End Rehash.

Section TableBindings.

Context `{hash_primes}.

Lemma ht_insert_placed (n : nat) (ht : ht_hash_table) (key value : string)
    (ht' : ht_hash_table) :
  placed ht -> ht_insert n ht key value = Ret ht' -> placed ht'.
Proof.
  apply (ht_insert_preserved placed).
  - apply ht_new_sized_placed.
  - apply insert_loop_placed.
Qed.

Lemma ht_insert_bindings (n : nat) (ht : ht_hash_table) (key value : string)
    (ht' : ht_hash_table) :
  placed ht -> ht_insert n ht key value = Ret ht' ->
  stored ht' key value /\
  forall k v, k <> key -> (stored ht' k v <-> stored ht k v).
Proof.
  revert ht key value ht'.
  induction n as [|n IH]; intros ht key value ht' Hpl Hrun; [discriminate|].
  simpl in Hrun.
  destruct (load ht) as [l| |]; simpl in Hrun; try discriminate.
  assert (Hres : forall ht1,
            (if 70 <? l
             then resize_with (ht_insert n) n ht (int32 (base_size ht * 2))
             else Ret ht) = Ret ht1 ->
            forall k v, stored ht1 k v <-> stored ht k v).
  { intros ht1 Hres. destruct (70 <? l); [|injection Hres as <-; reflexivity].
    refine (proj2 (resize_with_bindings (ht_insert n) _ _ _ n ht _ ht1
                     Hpl Hres)).
    - apply ht_insert_placed.
    - intros t k v t' Ht Hi. exact (proj1 (IH _ _ _ _ Ht Hi)).
    - intros t k v t' k' v' Ht Hi. exact (proj2 (IH _ _ _ _ Ht Hi) k' v'). }
  destruct (if 70 <? l
            then resize_with (ht_insert n) n ht (int32 (base_size ht * 2))
            else Ret ht) as [ht1| |]; simpl in Hrun; try discriminate.
  apply insert_loop_bindings in Hrun as (Hst & Hother).
  split; [exact Hst|]. intros k v Hne.
  rewrite (Hother k v Hne). apply Hres. reflexivity.
Qed.

Lemma ht_resize_bindings (n : nat) (ht : ht_hash_table) (base : Z)
    (ht' : ht_hash_table) :
  placed ht -> ht_resize n ht base = Ret ht' ->
  placed ht' /\ forall k v, stored ht' k v <-> stored ht k v.
Proof.
  apply resize_with_bindings.
  - apply ht_insert_placed.
  - intros t k v t' Ht Hi. exact (proj1 (ht_insert_bindings _ _ _ _ _ Ht Hi)).
  - intros t k v t' k' v' Ht Hi.
    exact (proj2 (ht_insert_bindings _ _ _ _ _ Ht Hi) k' v').
Qed.

Lemma ht_delete_placed (n : nat) (ht : ht_hash_table) (key : string)
    (ht' : ht_hash_table) :
  placed ht -> ht_delete n ht key = Ret ht' -> placed ht'.
Proof.
  apply (ht_delete_preserved placed).
  - apply ht_new_sized_placed.
  - apply insert_loop_placed.
  - intros m t k t'. apply delete_loop_placed.
Qed.

Lemma ht_delete_bindings (n : nat) (ht : ht_hash_table) (key : string)
    (ht' : ht_hash_table) :
  placed ht -> ht_delete n ht key = Ret ht' ->
  (forall v, ~ stored ht' key v) /\
  forall k v, k <> key -> (stored ht' k v <-> stored ht k v).
Proof.
  intros Hpl Hrun. split.
  - intros v. eapply placed_not_found.
    + eapply ht_delete_placed; eassumption.
    + eapply delete_then_search, Hrun.
  - intros k v Hne. unfold ht_delete in Hrun.
    destruct (load ht) as [l| |]; simpl in Hrun; try discriminate.
    assert (Hres : forall ht1,
              (if l <? 10 then ht_resize_down n ht else Ret ht) = Ret ht1 ->
              stored ht1 k v <-> stored ht k v).
    { intros ht1 Hres. destruct (l <? 10); [|injection Hres as <-; reflexivity].
      exact (proj2 (ht_resize_bindings _ _ _ _ Hpl Hres) k v). }
    destruct (if l <? 10 then ht_resize_down n ht else Ret ht) as [ht1| |];
      simpl in Hrun; try discriminate.
    rewrite (delete_loop_bindings _ _ _ _ _ _ k v Hrun Hne).
    apply Hres. reflexivity.
Qed.

End TableBindings.

(** ** Tombstones *)

Lemma bucket_elem_of (ht : ht_hash_table) (j : Z) (x : ht_item) :
  bucket ht j = Ret x -> x ∈ items ht.
Proof.
  intros Hb. apply bucket_inv in Hb as (_ & Hl).
  eapply list_elem_of_lookup_2, Hl.
Qed.

Lemma elem_of_bucket (ht : ht_hash_table) (x : ht_item) :
  x ∈ items ht -> exists j, bucket ht j = Ret x.
Proof.
  intros Hs. apply list_elem_of_lookup in Hs as [i Hi].
  exists (Z.of_nat i). unfold bucket.
  destruct (Z.ltb_spec (Z.of_nat i) 0); [lia|].
  rewrite Nat2Z.id, Hi. reflexivity.
Qed.

Section Tombstones.

Context `{hash_primes}.

Lemma resize_with_tombstone
    (ins : ht_hash_table -> string -> string -> res ht_hash_table)
    (n : nat) (ht : ht_hash_table) (base : Z) (ht' : ht_hash_table) :
  HT_DELETED_ITEM ∈ items ht -> resize_with ins n ht base = Ret ht' ->
  base < HT_INITIAL_BASE_SIZE /\ ht' = ht.
Proof.
  intros Hd Hrun. unfold resize_with in Hrun.
  destruct (Z.ltb_spec base HT_INITIAL_BASE_SIZE) as [Hlt|Hge].
  { injection Hrun as <-. auto. }
  exfalso.
  destruct (ht_new_sized n base) as [new_ht| |]; simpl in Hrun;
    try discriminate.
  destruct (rehash ins (items ht) new_ht) as [ht1| |]; simpl in Hrun;
    try discriminate.
  unfold ht_del_hash_table in Hrun.
  destruct (del_items_outcome (items ht)) as [[Hn _]|[_ E]]; [auto|].
  rewrite E in Hrun. discriminate.
Qed.

Lemma insert_loop_tombstone (n : nat) (ht : ht_hash_table) (key value : string)
    (ht' : ht_hash_table) :
  HT_DELETED_ITEM ∈ items ht ->
  insert_loop n ht key value (ht_get_hash key (size ht) 0) 1 = Ret ht' ->
  HT_DELETED_ITEM ∈ items ht'.
Proof.
  intros Hd Hrun. apply (elem_of_bucket ht) in Hd as [j Hj].
  assert (Hkeep : forall j0 y it, bucket ht j0 = Ret y ->
            y <> HT_DELETED_ITEM -> HT_DELETED_ITEM ∈ items (store ht j0 it)).
  { intros j0 y it Hy Hne.
    destruct (bucket_store_cases ht j0 j it _ y Hj Hy) as [E|[<- _]];
      [|contradiction].
    eapply bucket_elem_of, E. }
  destruct (insert_loop_lands n ht key value 0 ht' (free_path_0 ht key) Hrun)
    as (a & _ & [(Hy & ->)|(v0 & Hy & ->)]);
    eapply Hkeep; try exact Hy; discriminate.
Qed.

Lemma delete_loop_tombstone (n : nat) (ht : ht_hash_table) (key : string)
    (index i : Z) (ht' : ht_hash_table) :
  HT_DELETED_ITEM ∈ items ht -> delete_loop n ht key index i = Ret ht' ->
  HT_DELETED_ITEM ∈ items ht'.
Proof.
  intros Hd Hrun. apply (elem_of_bucket ht) in Hd as [j Hj].
  destruct (delete_loop_bucket n ht key index i ht' j _ Hrun Hj) as [E|E];
    eapply bucket_elem_of, E.
Qed.

Lemma ht_insert_tombstone (n : nat) (ht : ht_hash_table) (key value : string)
    (ht' : ht_hash_table) :
  HT_DELETED_ITEM ∈ items ht -> ht_insert n ht key value = Ret ht' ->
  HT_DELETED_ITEM ∈ items ht'.
Proof.
  intros Hd Hrun. destruct n as [|n]; [discriminate|].
  simpl in Hrun.
  destruct (load ht) as [l| |]; simpl in Hrun; try discriminate.
  destruct (70 <? l).
  - destruct (resize_with (ht_insert n) n ht (int32 (base_size ht * 2)))
      as [ht1| |] eqn:Hres; simpl in Hrun; try discriminate.
    apply (resize_with_tombstone _ _ _ _ _ Hd) in Hres as [_ ->].
    eapply insert_loop_tombstone; eassumption.
  - simpl in Hrun. eapply insert_loop_tombstone; eassumption.
Qed.

Lemma ht_delete_tombstone (n : nat) (ht : ht_hash_table) (key : string)
    (ht' : ht_hash_table) :
  HT_DELETED_ITEM ∈ items ht -> ht_delete n ht key = Ret ht' ->
  HT_DELETED_ITEM ∈ items ht'.
Proof.
  intros Hd Hrun. unfold ht_delete in Hrun.
  destruct (load ht) as [l| |]; simpl in Hrun; try discriminate.
  destruct (l <? 10).
  - destruct (ht_resize_down n ht) as [ht1| |] eqn:Hres; simpl in Hrun;
      try discriminate.
    apply (resize_with_tombstone _ _ _ _ _ Hd) in Hres as [_ ->].
    eapply delete_loop_tombstone; eassumption.
  - simpl in Hrun. eapply delete_loop_tombstone; eassumption.
Qed.

(** The deletion of a key that is bound leaves the sentinel in its
    bucket. *)
Lemma ht_delete_leaves_tombstone (n : nat) (ht : ht_hash_table)
    (key value : string) (ht' : ht_hash_table) :
  placed ht -> stored ht key value -> ht_delete n ht key = Ret ht' ->
  HT_DELETED_ITEM ∈ items ht'.
Proof.
  intros Hpl Hs Hrun.
  destruct (ht_delete_bindings n ht key ht' Hpl Hrun) as (Hgone & _).
  unfold ht_delete in Hrun.
  destruct (load ht) as [l| |]; simpl in Hrun; try discriminate.
  assert (Hres : forall ht1,
            (if l <? 10 then ht_resize_down n ht else Ret ht) = Ret ht1 ->
            stored ht1 key value).
  { intros ht1 Hres. destruct (l <? 10); [|injection Hres as <-; exact Hs].
    apply (proj2 (ht_resize_bindings _ _ _ _ Hpl Hres) key value), Hs. }
  destruct (if l <? 10 then ht_resize_down n ht else Ret ht) as [ht1| |];
    simpl in Hrun; try discriminate.
  destruct (stored_bucket ht1 key value (Hres ht1 eq_refl)) as [j Hj].
  destruct (delete_loop_bucket _ _ _ _ _ _ j _ Hrun Hj) as [E|E].
  - destruct (Hgone value). eapply bucket_stored, E.
  - eapply bucket_elem_of, E.
Qed.

End Tombstones.

(** ** [count] and the number of items *)

Lemma live_items_bounds (l : list ht_item) :
  0 <= live_items l <= Z.of_nat (length l).
Proof.
  induction l as [|[| |k v] l IH]; cbn [live_items length]; lia.
Qed.

Lemma live_items_insert (l : list ht_item) (i : nat) (y it : ht_item) :
  l !! i = Some y ->
  live_items (<[i := it]> l) = live_items l - live_items [y] + live_items [it].
Proof.
  revert i. induction l as [|x l IH]; intros i Hl; [discriminate|].
  destruct i as [|i].
  - injection Hl as ->. cbn [insert list_insert].
    destruct y, it; cbn [live_items]; lia.
  - simpl in Hl. specialize (IH i Hl).
    change (<[S i:=it]> (x :: l)) with (x :: <[i:=it]> l).
    destruct x; cbn [live_items] in *; lia.
Qed.

Lemma live_items_replicate (n : nat) : live_items (replicate n NULL) = 0.
Proof. induction n as [|n IH]; [reflexivity|exact IH]. Qed.

Lemma live_items_no_item (l : list ht_item) :
  live_items l = 0 -> forall k v, Item k v ∉ l.
Proof.
  intros Hz k v Hin. apply list_elem_of_lookup in Hin as [i Hi].
  pose proof (live_items_insert l i _ NULL Hi) as E.
  pose proof (live_items_bounds (<[i := NULL]> l)).
  cbn [live_items] in E. lia.
Qed.

Section Counted.

Context `{hash_primes}.

Lemma ht_new_sized_counted (n : nat) (base : Z) (ht : ht_hash_table) :
  INT_MIN <= base <= INT_MAX -> ht_new_sized n base = Ret ht -> counted ht.
Proof.
  intros Hb Hrun.
  apply ht_new_sized_inv in Hrun as (p & Hp & _ & Hsize & Hcount & Hitems).
  apply (next_prime_sound _ _ _ Hb) in Hp as (_ & Hle).
  unfold counted. rewrite Hcount, Hitems, Hsize, live_items_replicate.
  rewrite length_replicate. split; [reflexivity|]. split; [reflexivity|lia].
Qed.

Lemma insert_loop_counted (n : nat) (ht : ht_hash_table) (key value : string)
    (ht' : ht_hash_table) :
  counted ht ->
  insert_loop n ht key value (ht_get_hash key (size ht) 0) 1 = Ret ht' ->
  counted ht'.
Proof.
  intros (Hc & Hlen & Hmax) Hrun.
  destruct (insert_loop_lands n ht key value 0 ht' (free_path_0 ht key) Hrun)
    as (a & _ & [(Hy & ->)|(v0 & Hy & ->)]);
    apply bucket_inv in Hy as (Hj & Hl);
    pose proof (live_items_insert _ _ _ (Item key value) Hl) as E;
    pose proof (live_items_bounds
                  (<[Z.to_nat (probe_index key (size ht) a) := Item key value]>
                     (items ht))) as Hb;
    rewrite length_insert in Hb; cbn [live_items] in E;
    unfold counted; cbn [count items size store set_count];
    rewrite length_insert, E.
  - split; [|auto]. rewrite int32_small; [lia|].
    unfold INT_MIN, INT_MAX in *.
    pose proof (live_items_bounds (items ht)). lia.
  - split; [lia|auto].
Qed.

Lemma resize_with_counted
    (ins : ht_hash_table -> string -> string -> res ht_hash_table)
    (n : nat) (ht : ht_hash_table) (base : Z) (ht' : ht_hash_table) :
  (forall t k v t', counted t -> ins t k v = Ret t' -> counted t') ->
  INT_MIN <= base <= INT_MAX ->
  resize_with ins n ht base = Ret ht' ->
  (base < HT_INITIAL_BASE_SIZE /\ ht' = ht) \/
  (HT_INITIAL_BASE_SIZE <= base /\ counted ht').
Proof.
  intros Hins Hb Hrun. unfold resize_with in Hrun.
  destruct (Z.ltb_spec base HT_INITIAL_BASE_SIZE) as [Hlt|Hge].
  { injection Hrun as <-. auto. }
  right. split; [exact Hge|].
  destruct (ht_new_sized n base) as [new_ht| |] eqn:Hnew; simpl in Hrun;
    try discriminate.
  destruct (rehash ins (items ht) new_ht) as [ht1| |] eqn:Hre; simpl in Hrun;
    try discriminate.
  destruct (ht_del_hash_table ht); simpl in Hrun; try discriminate.
  injection Hrun as <-.
  eapply rehash_preserves; [exact Hins| |exact Hre].
  eapply ht_new_sized_counted; eassumption.
Qed.

Lemma ht_insert_counted (n : nat) (ht : ht_hash_table) (key value : string)
    (ht' : ht_hash_table) :
  counted ht -> ht_insert n ht key value = Ret ht' -> counted ht'.
Proof.
  revert ht key value ht'.
  induction n as [|n IH]; intros ht key value ht' Hc Hrun; [discriminate|].
  simpl in Hrun.
  destruct (load ht) as [l| |]; simpl in Hrun; try discriminate.
  destruct (70 <? l).
  - destruct (resize_with (ht_insert n) n ht (int32 (base_size ht * 2)))
      as [ht1| |] eqn:Hres; simpl in Hrun; try discriminate.
    eapply insert_loop_counted; [|exact Hrun].
    apply (resize_with_counted _ _ _ _ _ IH) in Hres
      as [[_ ->]|[_ Hc1]]; [exact Hc|exact Hc1|apply int32_range].
  - simpl in Hrun. eapply insert_loop_counted; eassumption.
Qed.

End Counted.

(** ** Where the probe loops return *)

Lemma bucket_defined (ht : ht_hash_table) (index : Z) :
  length (items ht) = Z.to_nat (size ht) -> 0 <= index < size ht ->
  exists it, bucket ht index = Ret it.
Proof.
  intros Hlen Hi. unfold bucket. destruct (Z.ltb_spec index 0); [lia|].
  destruct (items ht !! Z.to_nat index) as [it|] eqn:Hl; [eauto|].
  apply lookup_ge_None in Hl. lia.
Qed.

Section Returns.

Context `{hash_primes}.

(** A key and a prime bucket count [m], with hashes in range and a step
    [hash_b + 1] that is not [m]. *)
Variables (key : string) (m : Z).
Hypothesis m_prime : Z.prime m.
Hypothesis m_small : m <= 46340.
Hypothesis hash_a_range : 0 <= ht_hash key HT_PRIME_1 m < m.
Hypothesis hash_b_range : 0 <= ht_hash key HT_PRIME_2 m < m - 1.

Lemma probe_state_small (a : nat) :
  Z.of_nat a < m ->
  probe_state key m a = (ht_get_hash key m (Z.of_nat a), Z.of_nat a + 1).
Proof.
  induction a as [|a IH]; intros Ha; [reflexivity|].
  cbn [probe_state]. rewrite IH by lia. cbn [snd].
  rewrite int32_small by (unfold INT_MIN, INT_MAX; lia).
  f_equal; [f_equal|]; lia.
Qed.

Lemma probe_index_range (a : nat) :
  Z.of_nat a < m -> 0 <= probe_index key m a < m.
Proof.
  intros Ha. unfold probe_index. rewrite probe_state_small by exact Ha.
  apply ht_get_hash_range; try assumption. lia.
Qed.

(** Every bucket is on the probe sequence, within [m] attempts. *)
Lemma probe_index_covers (j : Z) :
  0 <= j < m -> exists a : nat, Z.of_nat a < m /\ probe_index key m a = j.
Proof.
  intros Hj.
  destruct (probe_covers key m m_prime m_small hash_a_range hash_b_range j Hj)
    as (a & Ha & Hprobe).
  exists (Z.to_nat a). split; [lia|].
  unfold probe_index. rewrite probe_state_small by lia.
  cbn [fst]. rewrite Z2Nat.id by lia. exact Hprobe.
Qed.

Lemma empty_bucket_on_path (ht : ht_hash_table) :
  size ht = m -> length (items ht) = Z.to_nat m -> NULL ∈ items ht ->
  exists a : nat, Z.of_nat a < m /\ bucket ht (probe_index key m a) = Ret NULL.
Proof.
  intros Hsz Hlen Hnull.
  apply list_elem_of_lookup in Hnull as [jn Hjn].
  pose proof (lookup_lt_Some _ _ _ Hjn) as Hlt.
  destruct (probe_index_covers (Z.of_nat jn) ltac:(lia)) as (a & Ha & Hp).
  exists a. split; [exact Ha|]. rewrite Hp. unfold bucket.
  destruct (Z.ltb_spec (Z.of_nat jn) 0); [lia|].
  rewrite Nat2Z.id, Hjn. reflexivity.
Qed.

Lemma insert_loop_returns (value : string) (ht : ht_hash_table) (d a : nat) :
  size ht = m -> length (items ht) = Z.to_nat m ->
  Z.of_nat (a + d) < m ->
  bucket ht (probe_index key m (a + d)) = Ret NULL ->
  exists ht',
    insert_loop (S d) ht key value (fst (probe_state key m a))
      (snd (probe_state key m a)) = Ret ht'.
Proof.
  intros Hsz Hlen. revert a. induction d as [|d IH]; intros a Hlt Hnull.
  - rewrite Nat.add_0_r in Hnull. unfold probe_index in Hnull.
    cbn [insert_loop]. rewrite Hnull. cbn [bind]. eauto.
  - destruct (bucket_defined ht (probe_index key m a)) as [it Hit].
    { rewrite Hsz. exact Hlen. }
    { rewrite Hsz. apply probe_index_range. lia. }
    specialize (IH (S a)).
    replace (S a + d)%nat with (a + S d)%nat in IH by lia.
    specialize (IH Hlt Hnull). cbn [probe_state fst snd] in IH.
    unfold probe_index in Hit. remember (S d) as n eqn:Hn.
    cbn [insert_loop]. rewrite Hit, Hsz. cbn [bind].
    destruct it as [| |k v]; [eauto|exact IH|].
    destruct (String.eqb k key); [eauto|exact IH].
Qed.

Lemma delete_loop_returns (d : nat) :
  forall (ht : ht_hash_table) (a : nat),
  size ht = m -> length (items ht) = Z.to_nat m ->
  Z.of_nat (a + d) < m ->
  bucket ht (probe_index key m (a + d)) = Ret NULL ->
  exists ht',
    delete_loop (S d) ht key (fst (probe_state key m a))
      (snd (probe_state key m a)) = Ret ht'.
Proof.
  induction d as [|d IH]; intros ht a Hsz Hlen Hlt Hnull.
  - rewrite Nat.add_0_r in Hnull. unfold probe_index in Hnull.
    cbn [delete_loop]. rewrite Hnull. cbn [bind]. eauto.
  - destruct (bucket_defined ht (probe_index key m a)) as [it Hit].
    { rewrite Hsz. exact Hlen. }
    { rewrite Hsz. apply probe_index_range. lia. }
    assert (Hnext : forall ht2, size ht2 = m ->
              length (items ht2) = Z.to_nat m ->
              bucket ht2 (probe_index key m (a + S d)) = Ret NULL ->
              exists ht',
                delete_loop (S d) ht2 key
                  (ht_get_hash key m (snd (probe_state key m a)))
                  (int32 (snd (probe_state key m a) + 1)) = Ret ht').
    { intros ht2 Hsz2 Hlen2 Hnull2.
      apply (IH ht2 (S a) Hsz2 Hlen2).
      - lia.
      - replace (S a + d)%nat with (a + S d)%nat by lia. exact Hnull2. }
    unfold probe_index in Hit. remember (S d) as n eqn:Hn.
    cbn [delete_loop]. rewrite Hit, Hsz. cbn [bind].
    destruct it as [| |k v]; [eauto|apply Hnext; assumption|].
    destruct (String.eqb k key); [|apply Hnext; assumption].
    apply Hnext; [exact Hsz|simpl; rewrite length_insert; exact Hlen|].
    destruct (bucket_store_cases ht (fst (probe_state key m a)) _
                HT_DELETED_ITEM _ _ Hnull Hit) as [E|[[=] _]].
    exact E.
Qed.

End Returns.

Lemma reachable_capacity_ok `{hash_primes} (ht : ht_hash_table) :
  reachable ht -> capacity_ok ht.
Proof.
  intros Hreach.
  induction Hreach as [n ht Hnew|n ht key value ht' _ IH Hrun
                      |n ht key ht' _ IH Hrun|n ht base ht' _ IH Hb Hrun].
  - eapply ht_new_sized_capacity; [|exact Hnew].
    unfold HT_INITIAL_BASE_SIZE, INT_MAX. lia.
  - eapply ht_insert_capacity; eassumption.
  - eapply ht_delete_capacity; eassumption.
  - eapply ht_resize_capacity; [exact IH| |exact Hrun]. lia.
Qed.

(** ** [ht_hash] and the hash of the pseudocode *)

Lemma ht_hash_loop_sum (s : string) (a m h : Z) :
  is_ascii s = true -> 1 <= a -> 0 < m <= INT_MAX ->
  a ^ Z.of_nat (String.length s) < 2 ^ 53 -> 0 <= h < m ->
  ht_hash_loop pow_long s a m h = (h + hash_sum s a) mod m.
Proof.
  intros Hs Ha Hm. revert h Hs.
  induction s as [|c s IH]; intros h Hs Hpow Hh.
  - simpl. rewrite Z.add_0_r. symmetry. apply Z.mod_small. exact Hh.
  - apply is_ascii_cons in Hs as [Hc Hs].
    cbn [ht_hash_loop hash_sum].
    set (e := Z.of_nat (String.length s)) in *.
    assert (He : 0 <= e) by (subst e; lia).
    assert (Hstep : a ^ Z.of_nat (String.length (String c s)) = a * a ^ e).
    { cbn [String.length]. rewrite Nat2Z.inj_succ. apply Z.pow_succ_r, He. }
    rewrite Hstep in Hpow.
    assert (Hpos : 0 < a ^ e) by (apply Z.pow_pos_nonneg; lia).
    assert (Hlt : a ^ e < 2 ^ 53) by nia.
    rewrite pow_long_exact by lia.
    assert (E53 : 2 ^ 53 = 9007199254740992) by reflexivity.
    assert (E63 : 2 ^ 63 = 9223372036854775808) by reflexivity.
    unfold INT_MAX in Hm. assert (E31 : 2 ^ 31 = 2147483648) by reflexivity.
    set (X := a ^ e) in *.
    assert (HX : X <= X * char_code c <= 127 * X) by nia.
    rewrite (long64_small (X * char_code c)) by lia.
    rewrite long64_small by lia.
    rewrite Z.rem_mod_nonneg by lia.
    rewrite IH; [|exact Hs|lia|apply Z.mod_pos_bound; lia].
    rewrite Zplus_mod_idemp_l. f_equal. lia.
Qed.

Lemma pow_long_0 (a : Z) : pow_long a 0 = 1.
Proof. reflexivity. Qed.

Lemma ht_hash_one_char (c : ascii) (a m : Z) :
  1 <= char_code c <= 127 -> 0 < m ->
  ht_hash (String c EmptyString) a m = Z.rem (char_code c) m.
Proof.
  intros Hc Hm. unfold ht_hash, ht_hash_with.
  cbn [ht_hash_loop String.length Z.of_nat]. rewrite pow_long_0.
  rewrite Z.mul_1_l, Z.add_0_l.
  assert (E63 : 2 ^ 63 = 9223372036854775808) by reflexivity.
  rewrite !(long64_small (char_code c)) by lia.
  pose proof (Z.rem_bound_pos (char_code c) m ltac:(lia) Hm).
  assert (Z.rem (char_code c) m <= char_code c).
  { rewrite Z.rem_mod_nonneg by lia. apply Z.mod_le; lia. }
  apply int32_small. unfold INT_MIN, INT_MAX. lia.
Qed.

(** ** A step that is the bucket count *)

Lemma ht_get_hash_stuck `{hash_primes} (key : string) (m attempt : Z) :
  0 <= ht_hash key HT_PRIME_1 m < m -> ht_hash key HT_PRIME_2 m = m - 1 ->
  0 <= attempt -> (attempt + 1) * m <= INT_MAX ->
  ht_get_hash key m attempt = ht_hash key HT_PRIME_1 m.
Proof.
  intros Ha Hb Hatt Hmax. unfold ht_get_hash. rewrite Hb.
  set (ha := ht_hash key HT_PRIME_1 m) in *.
  replace (m - 1 + 1) with m by lia.
  assert (Hm : 0 < m <= INT_MAX) by nia.
  unfold INT_MIN, INT_MAX in *.
  rewrite (int32_small m) by (unfold INT_MIN, INT_MAX; lia).
  assert (0 <= attempt * m) by nia.
  rewrite (int32_small (attempt * m)) by (unfold INT_MIN, INT_MAX; nia).
  rewrite int32_small by (unfold INT_MIN, INT_MAX; nia).
  rewrite Z.rem_mod_nonneg by lia.
  rewrite Z.mod_add by lia. apply Z.mod_small. lia.
Qed.

(** ** What [ht_resize] rebuilds *)

Section Rebuilt.

Context `{hash_primes}.

Lemma resize_with_rebuilt (P : ht_hash_table -> Prop)
    (ins : ht_hash_table -> string -> string -> res ht_hash_table)
    (n : nat) (ht : ht_hash_table) (base : Z) (ht' : ht_hash_table) :
  (forall t k v t', P t -> ins t k v = Ret t' -> P t') ->
  (forall new_ht, ht_new_sized n base = Ret new_ht -> P new_ht) ->
  HT_INITIAL_BASE_SIZE <= base ->
  resize_with ins n ht base = Ret ht' -> P ht'.
Proof.
  intros Hins Hnew Hb Hrun. unfold resize_with in Hrun.
  destruct (Z.ltb_spec base HT_INITIAL_BASE_SIZE) as [Hlt|_]; [lia|].
  destruct (ht_new_sized n base) as [new_ht| |] eqn:Hn; simpl in Hrun;
    try discriminate.
  destruct (rehash ins (items ht) new_ht) as [ht1| |] eqn:Hre; simpl in Hrun;
    try discriminate.
  destruct (ht_del_hash_table ht); simpl in Hrun; try discriminate.
  injection Hrun as <-.
  eapply rehash_preserves; [exact Hins| |exact Hre]. apply Hnew. reflexivity.
Qed.

Lemma ht_new_sized_no_tombstone (n : nat) (base : Z) (ht : ht_hash_table) :
  ht_new_sized n base = Ret ht -> HT_DELETED_ITEM ∉ items ht.
Proof.
  intros Hrun Hin.
  apply ht_new_sized_inv in Hrun as (p & _ & _ & _ & _ & Hitems).
  rewrite Hitems in Hin. apply elem_of_replicate in Hin as [[=] _].
Qed.

Lemma insert_loop_no_tombstone (n : nat) (ht : ht_hash_table)
    (key value : string) (ht' : ht_hash_table) :
  HT_DELETED_ITEM ∉ items ht ->
  insert_loop n ht key value (ht_get_hash key (size ht) 0) 1 = Ret ht' ->
  HT_DELETED_ITEM ∉ items ht'.
Proof.
  intros Hno Hrun Hin.
  assert (Hstore : forall j y, bucket ht j = Ret y ->
            HT_DELETED_ITEM ∈ items (store ht j (Item key value)) -> False).
  { intros j y Hy Hd. apply elem_of_bucket in Hd as [j' Hj'].
    assert (Hj : 0 <= j) by (apply bucket_inv in Hy; tauto).
    destruct (bucket_store_inv ht j j' _ _ Hj Hj') as [Hold|[_ [=]]].
    apply Hno. eapply bucket_elem_of, Hold. }
  destruct (insert_loop_lands n ht key value 0 ht' (free_path_0 ht key) Hrun)
    as (a & _ & [(Hy & ->)|(v0 & Hy & ->)]); eapply Hstore; eassumption.
Qed.

Lemma ht_insert_no_tombstone (n : nat) (ht : ht_hash_table)
    (key value : string) (ht' : ht_hash_table) :
  HT_DELETED_ITEM ∉ items ht -> ht_insert n ht key value = Ret ht' ->
  HT_DELETED_ITEM ∉ items ht'.
Proof.
  apply (ht_insert_preserved (fun t => HT_DELETED_ITEM ∉ items t)).
  - apply ht_new_sized_no_tombstone.
  - apply insert_loop_no_tombstone.
Qed.

(** Where the loop of [ht_insert] stores, and what it does to [count]:
    over the item of the key, or in an empty bucket when the key is not
    bound. *)
Lemma insert_loop_count (n : nat) (ht : ht_hash_table) (key value : string)
    (ht' : ht_hash_table) :
  placed ht ->
  insert_loop n ht key value (ht_get_hash key (size ht) 0) 1 = Ret ht' ->
  ((exists v0, stored ht key v0) /\ count ht' = count ht) \/
  ((forall v0, ~ stored ht key v0) /\ count ht' = int32 (count ht + 1)).
Proof.
  intros Hpl Hrun.
  destruct (insert_loop_lands n ht key value 0 ht' (free_path_0 ht key) Hrun)
    as (a & Hfree & [(Hy & ->)|(v0 & Hy & ->)]).
  - right. split; [|reflexivity]. intros v0.
    apply (placed_not_found (a + 1) ht key v0 Hpl).
    rewrite search_loop_free_path by exact Hfree.
    unfold probe_index in Hy. cbn [search_loop]. rewrite Hy. reflexivity.
  - left. split; [|reflexivity]. exists v0. eapply bucket_stored, Hy.
Qed.

End Rebuilt.

(** * The table as a map *)

(** X6.  [ht_resize] hands the old bucket array to [ht_del_hash_table].
    When a bucket of the table holds the sentinel and the requested base
    size is not below the minimum, no run of [ht_resize] returns a table:
    the rebuilt table is lost where [ht_del_item] frees
    [&HT_DELETED_ITEM]. *)
Theorem tombstone_blocks_resize (hp : hash_primes) (ht : ht_hash_table)
    (n : nat) (base : Z) :
  HT_DELETED_ITEM ∈ items ht -> HT_INITIAL_BASE_SIZE <= base ->
  forall ht', ht_resize n ht base <> Ret ht'.
Proof.
  intros Hd Hb ht' Hrun.
  apply (resize_with_tombstone _ _ _ _ _ Hd) in Hrun as [Hlt _]. lia.
Qed.

Lemma tombstone_blocks_resize_witness :
  HT_DELETED_ITEM ∈ items cat_deleted_53 /\
  HT_INITIAL_BASE_SIZE <= 100 /\
  forall ht', @ht_resize tutorial_primes 8 cat_deleted_53 100 <> Ret ht'.
Proof.
  assert (H1 : HT_DELETED_ITEM ∈ items cat_deleted_53).
  { apply (bool_decide_unpack _). vm_compute. reflexivity. }
  assert (H2 : HT_INITIAL_BASE_SIZE <= 100) by (vm_compute; discriminate).
  split; [exact H1|]. split; [exact H2|].
  exact (tombstone_blocks_resize tutorial_primes cat_deleted_53 8 100 H1 H2).
Defined.

(** X7.  No operation takes a sentinel out of the array: a table with a
    deleted bucket still has one after every [ht_insert] and every
    [ht_delete] that returns.  ([ht_insert] steps over deleted buckets and
    writes only into an empty bucket or over the item of its key.) *)
Theorem tombstones_stay (hp : hash_primes) (n : nat) (ht : ht_hash_table)
    (key value : string) (ht' : ht_hash_table) :
  HT_DELETED_ITEM ∈ items ht ->
  ht_insert n ht key value = Ret ht' \/ ht_delete n ht key = Ret ht' ->
  HT_DELETED_ITEM ∈ items ht'.
Proof.
  intros Hd [Hrun|Hrun].
  - eapply ht_insert_tombstone; eassumption.
  - eapply ht_delete_tombstone; eassumption.
Qed.

Lemma tombstones_stay_witness :
  exists ht',
    HT_DELETED_ITEM ∈ items cat_deleted_53 /\
    @ht_insert tutorial_primes 8 cat_deleted_53 "cat" "tom" = Ret ht' /\
    HT_DELETED_ITEM ∈ items ht'.
Proof.
  assert (H1 : HT_DELETED_ITEM ∈ items cat_deleted_53).
  { apply (bool_decide_unpack _). vm_compute. reflexivity. }
  eexists. split; [exact H1|].
  assert (H2 : @ht_insert tutorial_primes 8 cat_deleted_53 "cat" "tom"
               = Ret _) by (vm_compute; reflexivity).
  split; [exact H2|].
  exact (tombstones_stay tutorial_primes 8 cat_deleted_53 "cat" "tom" _
           H1 (or_introl H2)).
Defined.

(** X8.  Deleting a key that is bound leaves the sentinel in its bucket,
    so that [ht_del_hash_table] on the table that [ht_delete] returns
    frees [&HT_DELETED_ITEM]. *)
Theorem delete_leaves_tombstone (hp : hash_primes) (n : nat)
    (ht : ht_hash_table) (key value : string) (ht' : ht_hash_table) :
  reachable ht -> stored ht key value -> ht_delete n ht key = Ret ht' ->
  HT_DELETED_ITEM ∈ items ht' /\ ht_del_hash_table ht' = Fault.
Proof.
  intros Hreach Hs Hrun.
  assert (Hd : HT_DELETED_ITEM ∈ items ht').
  { eapply ht_delete_leaves_tombstone; [|exact Hs|exact Hrun].
    apply reachable_placed, Hreach. }
  split; [exact Hd|]. unfold ht_del_hash_table.
  destruct (del_items_outcome (items ht')) as [[Hn _]|[_ E]];
    [contradiction|exact E].
Qed.

Lemma delete_leaves_tombstone_witness :
  @reachable tutorial_primes cat_53 /\
  stored cat_53 "cat" "felix" /\
  @ht_delete tutorial_primes 8 cat_53 "cat" = Ret cat_deleted_53 /\
  HT_DELETED_ITEM ∈ items cat_deleted_53 /\
  ht_del_hash_table cat_deleted_53 = Fault.
Proof.
  assert (Hr : @reachable tutorial_primes cat_53).
  { apply (reach_insert 8 empty_53 "cat" "felix").
    - apply (reach_new 8). reflexivity.
    - vm_compute. reflexivity. }
  assert (Hs : stored cat_53 "cat" "felix").
  { unfold stored. apply (bool_decide_unpack _). vm_compute. reflexivity. }
  assert (Hd : @ht_delete tutorial_primes 8 cat_53 "cat" = Ret cat_deleted_53)
    by (vm_compute; reflexivity).
  split; [exact Hr|]. split; [exact Hs|]. split; [exact Hd|].
  exact (delete_leaves_tombstone tutorial_primes 8 cat_53 "cat" "felix"
           cat_deleted_53 Hr Hs Hd).
Defined.

(** X9.  In every table a client can hold a key sits in at most one
    bucket: two buckets with items of the same key are the same bucket. *)
Theorem reachable_keys_unique (hp : hash_primes) (ht : ht_hash_table)
    (j1 j2 : Z) (k v1 v2 : string) :
  reachable ht ->
  bucket ht j1 = Ret (Item k v1) -> bucket ht j2 = Ret (Item k v2) ->
  j1 = j2 /\ v1 = v2.
Proof.
  intros Hreach H1 H2.
  pose proof (placed_unique ht j1 j2 k v1 v2 (reachable_placed ht Hreach)
                H1 H2) as Hj.
  split; [exact Hj|]. rewrite Hj in H1. congruence.
Qed.

Lemma reachable_keys_unique_witness :
  @reachable tutorial_primes cat_53 /\
  bucket cat_53 5 = Ret (Item "cat" "felix") /\
  5 = 5 /\ "felix"%string = "felix"%string.
Proof.
  assert (Hr : @reachable tutorial_primes cat_53).
  { apply (reach_insert 8 empty_53 "cat" "felix").
    - apply (reach_new 8). reflexivity.
    - vm_compute. reflexivity. }
  assert (Hb : bucket cat_53 5 = Ret (Item "cat" "felix")) by reflexivity.
  split; [exact Hr|]. split; [exact Hb|].
  exact (reachable_keys_unique tutorial_primes cat_53 5 5 "cat" "felix"
           "felix" Hr Hb Hb).
Defined.

(** X10.  In every table a client can hold the bucket array has [size]
    cells: reading [ht->items[j]] for [0 <= j < size] stays inside the
    array. *)
Theorem reachable_buckets_allocated (hp : hash_primes) (ht : ht_hash_table)
    (j : Z) :
  reachable ht -> 0 <= j < size ht ->
  length (items ht) = Z.to_nat (size ht) /\ exists it, bucket ht j = Ret it.
Proof.
  intros Hreach Hj.
  destruct (reachable_array_ok ht Hreach) as [Hlen _].
  split; [exact Hlen|]. apply bucket_defined; assumption.
Qed.

Lemma reachable_buckets_allocated_witness :
  @reachable tutorial_primes cat_53 /\ 0 <= 52 < size cat_53 /\
  length (items cat_53) = Z.to_nat (size cat_53) /\
  exists it, bucket cat_53 52 = Ret it.
Proof.
  assert (Hr : @reachable tutorial_primes cat_53).
  { apply (reach_insert 8 empty_53 "cat" "felix").
    - apply (reach_new 8). reflexivity.
    - vm_compute. reflexivity. }
  assert (Hj : 0 <= 52 < size cat_53)
    by (split; [vm_compute; discriminate|reflexivity]).
  split; [exact Hr|]. split; [exact Hj|].
  exact (reachable_buckets_allocated tutorial_primes cat_53 52 Hr Hj).
Defined.

(** X11.  In every table a client can hold, [ht_search] answers by the
    bindings: a value is found for a key exactly when the array holds an
    item with that key and that value, and a search that returns
    not-found means that no bucket holds the key. *)
Theorem search_agrees_with_bindings (hp : hash_primes) (ht : ht_hash_table)
    (key : string) :
  reachable ht ->
  (forall v, stored ht key v <-> exists n, ht_search n ht key = Ret (Some v)) /\
  (forall n, ht_search n ht key = Ret None -> forall v, ~ stored ht key v).
Proof.
  intros Hreach. pose proof (reachable_placed ht Hreach) as Hpl. split.
  - intros v. split.
    + intros Hs.
      destruct (placed_stored_found ht key v Hpl Hs) as (a & Hfound & _).
      exists (a + 1)%nat. apply Hfound.
    + intros [n Hn]. eapply search_loop_found_stored, Hn.
  - intros n Hn v. eapply placed_not_found; eassumption.
Qed.

Lemma search_agrees_with_bindings_witness :
  @reachable tutorial_primes cat_53 /\
  (forall v, stored cat_53 "cat" v <->
             exists n, @ht_search tutorial_primes n cat_53 "cat" = Ret (Some v)) /\
  (forall n, @ht_search tutorial_primes n cat_53 "cat" = Ret None ->
             forall v, ~ stored cat_53 "cat" v).
Proof.
  assert (Hr : @reachable tutorial_primes cat_53).
  { apply (reach_insert 8 empty_53 "cat" "felix").
    - apply (reach_new 8). reflexivity.
    - vm_compute. reflexivity. }
  split; [exact Hr|].
  exact (search_agrees_with_bindings tutorial_primes cat_53 "cat" Hr).
Defined.

(** X12.  [ht_insert] as a map update, with or without the resize it may
    begin with: in the table it returns the key is bound to the new value
    and to no other, and every other key has the bindings it had. *)
Theorem ht_insert_updates_binding (hp : hash_primes) (n : nat)
    (ht : ht_hash_table) (key value : string) (ht' : ht_hash_table) :
  reachable ht -> ht_insert n ht key value = Ret ht' ->
  stored ht' key value /\
  (forall v, stored ht' key v -> v = value) /\
  (forall k v, k <> key -> (stored ht' k v <-> stored ht k v)).
Proof.
  intros Hreach Hrun. pose proof (reachable_placed ht Hreach) as Hpl.
  destruct (ht_insert_bindings n ht key value ht' Hpl Hrun) as (Hst & Hother).
  split; [exact Hst|]. split; [|exact Hother].
  intros v Hv. eapply placed_functional; [|exact Hv|exact Hst].
  eapply ht_insert_placed; eassumption.
Qed.

Lemma ht_insert_updates_binding_witness :
  exists ht',
    @reachable tutorial_primes cat_53 /\
    @ht_insert tutorial_primes 8 cat_53 "cat" "tom" = Ret ht' /\
    stored ht' "cat" "tom" /\
    (forall v, stored ht' "cat" v -> v = "tom"%string) /\
    (forall k v, k <> "cat"%string -> (stored ht' k v <-> stored cat_53 k v)).
Proof.
  assert (Hr : @reachable tutorial_primes cat_53).
  { apply (reach_insert 8 empty_53 "cat" "felix").
    - apply (reach_new 8). reflexivity.
    - vm_compute. reflexivity. }
  eexists. split; [exact Hr|].
  assert (Hi : @ht_insert tutorial_primes 8 cat_53 "cat" "tom" = Ret _)
    by (vm_compute; reflexivity).
  split; [exact Hi|].
  exact (ht_insert_updates_binding tutorial_primes 8 cat_53 "cat" "tom" _
           Hr Hi).
Defined.

(** X13.  [ht_delete] as a map removal: in the table it returns no bucket
    holds the key, and every other key has the bindings it had. *)
Theorem ht_delete_removes_binding (hp : hash_primes) (n : nat)
    (ht : ht_hash_table) (key : string) (ht' : ht_hash_table) :
  reachable ht -> ht_delete n ht key = Ret ht' ->
  (forall v, ~ stored ht' key v) /\
  (forall k v, k <> key -> (stored ht' k v <-> stored ht k v)).
Proof.
  intros Hreach Hrun.
  apply (ht_delete_bindings n ht key ht'); [|exact Hrun].
  apply reachable_placed, Hreach.
Qed.

Lemma ht_delete_removes_binding_witness :
  @reachable tutorial_primes cat_53 /\
  @ht_delete tutorial_primes 8 cat_53 "cat" = Ret cat_deleted_53 /\
  (forall v, ~ stored cat_deleted_53 "cat" v) /\
  (forall k v, k <> "cat"%string ->
               (stored cat_deleted_53 k v <-> stored cat_53 k v)).
Proof.
  assert (Hr : @reachable tutorial_primes cat_53).
  { apply (reach_insert 8 empty_53 "cat" "felix").
    - apply (reach_new 8). reflexivity.
    - vm_compute. reflexivity. }
  assert (Hd : @ht_delete tutorial_primes 8 cat_53 "cat" = Ret cat_deleted_53)
    by (vm_compute; reflexivity).
  split; [exact Hr|]. split; [exact Hd|].
  exact (ht_delete_removes_binding tutorial_primes 8 cat_53 "cat"
           cat_deleted_53 Hr Hd).
Defined.

(** X14.  A call of [ht_resize] that returns keeps the map: the table has
    the bindings it had.  When the base size is not below the minimum the
    table is rebuilt: it has no deleted bucket, and its [count] is the
    number of its items, whatever [count] was before. *)
Theorem ht_resize_keeps_bindings (hp : hash_primes) (n : nat)
    (ht : ht_hash_table) (base : Z) (ht' : ht_hash_table) :
  reachable ht -> INT_MIN <= base <= INT_MAX ->
  ht_resize n ht base = Ret ht' ->
  (forall k v, stored ht' k v <-> stored ht k v) /\
  (HT_INITIAL_BASE_SIZE <= base ->
   count ht' = live_items (items ht') /\ (HT_DELETED_ITEM ∉ items ht')).
Proof.
  intros Hreach Hb Hrun. split.
  - apply (ht_resize_bindings n ht base ht'); [|exact Hrun].
    apply reachable_placed, Hreach.
  - intros Hmin. split.
    + enough (Hc : counted ht') by (destruct Hc as [Hc _]; exact Hc).
      eapply (resize_with_rebuilt counted); [| |exact Hmin|exact Hrun].
      * intros t k v t'. apply ht_insert_counted.
      * intros new_ht. apply ht_new_sized_counted, Hb.
    + eapply (resize_with_rebuilt (fun t => HT_DELETED_ITEM ∉ items t));
        [| |exact Hmin|exact Hrun].
      * intros t k v t'. apply ht_insert_no_tombstone.
      * intros new_ht. apply ht_new_sized_no_tombstone.
Qed.

Lemma ht_resize_keeps_bindings_witness :
  exists ht',
    @reachable tutorial_primes cat_53 /\ INT_MIN <= 100 <= INT_MAX /\
    @ht_resize tutorial_primes 8 cat_53 100 = Ret ht' /\
    (forall k v, stored ht' k v <-> stored cat_53 k v) /\
    (HT_INITIAL_BASE_SIZE <= 100 ->
     count ht' = live_items (items ht') /\ (HT_DELETED_ITEM ∉ items ht')).
Proof.
  assert (Hr : @reachable tutorial_primes cat_53).
  { apply (reach_insert 8 empty_53 "cat" "felix").
    - apply (reach_new 8). reflexivity.
    - vm_compute. reflexivity. }
  assert (Hb : INT_MIN <= 100 <= INT_MAX) by (split; vm_compute; discriminate).
  eexists. split; [exact Hr|]. split; [exact Hb|].
  assert (Hi : @ht_resize tutorial_primes 8 cat_53 100 = Ret _)
    by (vm_compute; reflexivity).
  split; [exact Hi|].
  exact (ht_resize_keeps_bindings tutorial_primes 8 cat_53 100 _ Hr Hb Hi).
Defined.

(** X15.  What [ht_insert] does to [count] when it does not resize: the
    insertion of a key that is bound overwrites its item and leaves
    [count] alone; the insertion of a key that is not bound adds 1. *)
Theorem ht_insert_count (hp : hash_primes) (n : nat) (ht : ht_hash_table)
    (key value : string) (ht' : ht_hash_table) (l : Z) :
  reachable ht -> load ht = Ret l -> l <= 70 ->
  ht_insert n ht key value = Ret ht' ->
  ((exists v0, stored ht key v0) /\ count ht' = count ht) \/
  ((forall v0, ~ stored ht key v0) /\ count ht' = int32 (count ht + 1)).
Proof.
  intros Hreach Hl Hle Hrun. destruct n as [|n]; [discriminate|].
  rewrite ht_insert_unfold, Hl in Hrun. cbn [bind] in Hrun.
  destruct (Z.ltb_spec 70 l); [lia|]. cbn [bind] in Hrun.
  eapply insert_loop_count; [|exact Hrun]. apply reachable_placed, Hreach.
Qed.

Lemma ht_insert_count_witness :
  exists ht',
    @reachable tutorial_primes cat_53 /\ load cat_53 = Ret 1 /\ 1 <= 70 /\
    @ht_insert tutorial_primes 8 cat_53 "dog" "fido" = Ret ht' /\
    (((exists v0, stored cat_53 "dog" v0) /\ count ht' = count cat_53) \/
     ((forall v0, ~ stored cat_53 "dog" v0) /\
      count ht' = int32 (count cat_53 + 1))).
Proof.
  assert (Hr : @reachable tutorial_primes cat_53).
  { apply (reach_insert 8 empty_53 "cat" "felix").
    - apply (reach_new 8). reflexivity.
    - vm_compute. reflexivity. }
  assert (Hl : load cat_53 = Ret 1) by reflexivity.
  assert (Hle : 1 <= 70) by lia.
  eexists. split; [exact Hr|]. split; [exact Hl|]. split; [exact Hle|].
  assert (Hi : @ht_insert tutorial_primes 8 cat_53 "dog" "fido" = Ret _)
    by (vm_compute; reflexivity).
  split; [exact Hi|].
  exact (ht_insert_count tutorial_primes 8 cat_53 "dog" "fido" _ 1
           Hr Hl Hle Hi).
Defined.

(** X16.  [ht_insert] keeps an exact [count] exact, through the resize it
    may begin with: when [count] is the number of items in an array of
    [size] buckets, it still is in the table [ht_insert] returns, where it
    lies between 1 and [size]. *)
Theorem insert_keeps_count_exact (hp : hash_primes) (n : nat)
    (ht : ht_hash_table) (key value : string) (ht' : ht_hash_table) :
  counted ht -> ht_insert n ht key value = Ret ht' ->
  counted ht' /\ 1 <= count ht' <= size ht'.
Proof.
  intros Hc Hrun.
  pose proof (ht_insert_counted n ht key value ht' Hc Hrun) as Hc'.
  split; [exact Hc'|]. destruct Hc' as (Hcount & Hlen & Hmax).
  pose proof (live_items_bounds (items ht')) as Hb.
  assert (Hst : stored ht' key value).
  { eapply search_loop_found_stored, insert_then_search, Hrun. }
  assert (Hne : live_items (items ht') <> 0).
  { intros Hz. exact (live_items_no_item _ Hz key value Hst). }
  rewrite Hcount, Hlen in *. lia.
Qed.

Lemma insert_keeps_count_exact_witness :
  exists ht',
    counted empty_53 /\
    @ht_insert tutorial_primes 8 empty_53 "cat" "felix" = Ret ht' /\
    counted ht' /\ 1 <= count ht' <= size ht'.
Proof.
  assert (Hc : counted empty_53).
  { split; [reflexivity|]. split; [reflexivity|]. vm_compute. discriminate. }
  eexists. split; [exact Hc|].
  assert (Hi : @ht_insert tutorial_primes 8 empty_53 "cat" "felix" = Ret _)
    by (vm_compute; reflexivity).
  split; [exact Hi|].
  exact (insert_keeps_count_exact tutorial_primes 8 empty_53 "cat" "felix" _
           Hc Hi).
Defined.

(** X17.  [ht_insert] returns.  In a table a client can hold, of at most
    46340 buckets, one of them empty, and with a load of at most 70, the
    insertion of an ASCII key whose step [hash_b + 1] is not the bucket
    count returns after at most [size] probes, with the key bound to the
    value and the other keys as they were. *)
Theorem ht_insert_returns (hp : hash_primes) (ht : ht_hash_table)
    (key value : string) (l : Z) :
  reachable ht -> is_ascii key = true ->
  2 <= HT_PRIME_1 <= 2 ^ 22 -> 2 <= HT_PRIME_2 <= 2 ^ 22 ->
  size ht <= 46340 -> ht_hash key HT_PRIME_2 (size ht) + 1 <> size ht ->
  NULL ∈ items ht -> load ht = Ret l -> l <= 70 ->
  exists n ht',
    (n <= S (Z.to_nat (size ht)))%nat /\
    ht_insert n ht key value = Ret ht' /\
    stored ht' key value /\
    (forall k v, k <> key -> (stored ht' k v <-> stored ht k v)).
Proof.
  intros Hreach Hkey Hp1 Hp2 Hsmall Hstep Hnull Hl Hle.
  destruct (reachable_capacity_ok ht Hreach) as (Hprime & H53 & _).
  destruct (reachable_array_ok ht Hreach) as [Hlen _].
  assert (Hm : 0 < size ht <= INT_MAX) by (unfold INT_MAX; lia).
  pose proof (ht_hash_in_range key HT_PRIME_1 (size ht) Hkey Hp1 Hm) as Ha.
  pose proof (ht_hash_in_range key HT_PRIME_2 (size ht) Hkey Hp2 Hm) as Hb.
  assert (Hb' : 0 <= ht_hash key HT_PRIME_2 (size ht) < size ht - 1) by lia.
  destruct (empty_bucket_on_path key (size ht) Hprime Hsmall Ha Hb' ht
              eq_refl Hlen Hnull) as (a & Hlt & Hempty).
  destruct (insert_loop_returns key (size ht) Hsmall Ha Hb' value ht
              a 0 eq_refl Hlen) as [ht' Hrun]; [simpl; lia|exact Hempty|].
  cbn [probe_state fst snd] in Hrun.
  exists (S (S a)), ht'. split; [lia|].
  pose proof (insert_loop_bindings _ _ _ _ _ Hrun) as (Hst & Hother).
  split; [|split; [exact Hst|exact Hother]].
  rewrite ht_insert_unfold, Hl. cbn [bind].
  destruct (Z.ltb_spec 70 l); [lia|]. cbn [bind]. exact Hrun.
Qed.

Lemma ht_insert_returns_witness :
  @reachable tutorial_primes cat_53 /\
  exists n ht',
    (n <= S (Z.to_nat (size cat_53)))%nat /\
    @ht_insert tutorial_primes n cat_53 "dog" "fido" = Ret ht' /\
    stored ht' "dog" "fido" /\
    (forall k v, k <> "dog"%string -> (stored ht' k v <-> stored cat_53 k v)).
Proof.
  assert (Hr : @reachable tutorial_primes cat_53).
  { apply (reach_insert 8 empty_53 "cat" "felix").
    - apply (reach_new 8). reflexivity.
    - vm_compute. reflexivity. }
  split; [exact Hr|].
  apply (ht_insert_returns tutorial_primes cat_53 "dog" "fido" 1).
  - exact Hr.
  - reflexivity.
  - split; vm_compute; discriminate.
  - split; vm_compute; discriminate.
  - vm_compute. discriminate.
  - vm_compute. discriminate.
  - apply (bool_decide_unpack _). vm_compute. reflexivity.
  - reflexivity.
  - lia.
Defined.

(** X18.  [ht_delete] returns.  Under the same conditions on the table
    and the key, and when the deletion does not rebuild the table (a load
    of at least 10, or a base size whose half is below the minimum),
    [ht_delete] returns after at most [size] probes; no bucket holds the
    key afterwards, the other keys are as they were, and [count] is one
    less -- whether or not the key was bound. *)
Theorem ht_delete_returns (hp : hash_primes) (ht : ht_hash_table)
    (key : string) (l : Z) :
  reachable ht -> is_ascii key = true ->
  2 <= HT_PRIME_1 <= 2 ^ 22 -> 2 <= HT_PRIME_2 <= 2 ^ 22 ->
  size ht <= 46340 -> ht_hash key HT_PRIME_2 (size ht) + 1 <> size ht ->
  NULL ∈ items ht -> load ht = Ret l ->
  10 <= l \/ base_size ht < 2 * HT_INITIAL_BASE_SIZE ->
  exists n ht',
    (n <= S (Z.to_nat (size ht)))%nat /\
    ht_delete n ht key = Ret ht' /\
    (forall v, ~ stored ht' key v) /\
    (forall k v, k <> key -> (stored ht' k v <-> stored ht k v)) /\
    count ht' = int32 (count ht - 1).
Proof.
  intros Hreach Hkey Hp1 Hp2 Hsmall Hstep Hnull Hl Hno.
  destruct (reachable_capacity_ok ht Hreach) as (Hprime & H53 & _).
  destruct (reachable_array_ok ht Hreach) as [Hlen _].
  pose proof (reachable_placed ht Hreach) as Hpl.
  assert (Hm : 0 < size ht <= INT_MAX) by (unfold INT_MAX; lia).
  pose proof (ht_hash_in_range key HT_PRIME_1 (size ht) Hkey Hp1 Hm) as Ha.
  pose proof (ht_hash_in_range key HT_PRIME_2 (size ht) Hkey Hp2 Hm) as Hb.
  assert (Hb' : 0 <= ht_hash key HT_PRIME_2 (size ht) < size ht - 1) by lia.
  destruct (empty_bucket_on_path key (size ht) Hprime Hsmall Ha Hb' ht
              eq_refl Hlen Hnull) as (a & Hlt & Hempty).
  destruct (delete_loop_returns key (size ht) Hsmall Ha Hb' a ht 0
              eq_refl Hlen) as [ht' Hrun]; [simpl; lia|exact Hempty|].
  cbn [probe_state fst snd] in Hrun.
  assert (Hdel : ht_delete (S a) ht key = Ret ht').
  { unfold ht_delete. rewrite Hl. cbn [bind].
    destruct (Z.ltb_spec l 10) as [Hlt10|_]; [|exact Hrun].
    unfold ht_resize_down. rewrite ht_resize_below_minimum; [exact Hrun|].
    destruct Hno as [Hno|Hno]; [lia|]. unfold HT_INITIAL_BASE_SIZE in *.
    pose proof (Z.quot_rem' (base_size ht) 2).
    pose proof (Z.rem_bound_abs (base_size ht) 2 ltac:(lia)).
    destruct (Z.le_gt_cases 0 (base_size ht)) as [Hpos|Hneg].
    - pose proof (Z.rem_nonneg (base_size ht) 2 ltac:(lia) Hpos). lia.
    - lia. }
  exists (S a), ht'. split; [lia|]. split; [exact Hdel|].
  destruct (ht_delete_bindings _ _ _ _ Hpl Hdel) as (Hgone & Hother).
  split; [exact Hgone|]. split; [exact Hother|].
  apply delete_loop_shape in Hrun. tauto.
Qed.

Lemma ht_delete_returns_witness :
  @reachable tutorial_primes cat_53 /\
  exists n ht',
    (n <= S (Z.to_nat (size cat_53)))%nat /\
    @ht_delete tutorial_primes n cat_53 "cat" = Ret ht' /\
    (forall v, ~ stored ht' "cat" v) /\
    (forall k v, k <> "cat"%string -> (stored ht' k v <-> stored cat_53 k v)) /\
    count ht' = int32 (count cat_53 - 1).
Proof.
  assert (Hr : @reachable tutorial_primes cat_53).
  { apply (reach_insert 8 empty_53 "cat" "felix").
    - apply (reach_new 8). reflexivity.
    - vm_compute. reflexivity. }
  split; [exact Hr|].
  apply (ht_delete_returns tutorial_primes cat_53 "cat" 1).
  - exact Hr.
  - reflexivity.
  - split; vm_compute; discriminate.
  - split; vm_compute; discriminate.
  - vm_compute. discriminate.
  - vm_compute. discriminate.
  - apply (bool_decide_unpack _). vm_compute. reflexivity.
  - reflexivity.
  - right. reflexivity.
Defined.

(** * The hash functions *)

(** X19.  [ht_hash] computes the hash of the pseudocode,
    [(sum of a ^ (len - (i+1)) * char_code(s[i])) mod m], for an ASCII
    string as long as the largest power, [a ^ len], is below [2 ^ 53]:
    reducing modulo [m] in every round changes nothing, and below
    [2 ^ 53] the powers that [pow] returns are exact. *)
Theorem ht_hash_is_pseudocode (s : string) (a m : Z) :
  is_ascii s = true -> 1 <= a -> 0 < m <= INT_MAX ->
  a ^ Z.of_nat (String.length s) < 2 ^ 53 ->
  ht_hash s a m = hash_pseudocode s a m.
Proof.
  intros Hs Ha Hm Hpow. unfold ht_hash, ht_hash_with, hash_pseudocode.
  rewrite ht_hash_loop_sum by (try assumption; lia).
  rewrite Z.add_0_l.
  pose proof (Z.mod_pos_bound (hash_sum s a) m ltac:(lia)).
  apply int32_small. unfold INT_MIN, INT_MAX in *. lia.
Qed.

Lemma ht_hash_is_pseudocode_witness :
  is_ascii "cat" = true /\ 1 <= 151 /\ 0 < 53 <= INT_MAX /\
  151 ^ Z.of_nat (String.length "cat") < 2 ^ 53 /\
  ht_hash "cat" 151 53 = hash_pseudocode "cat" 151 53.
Proof.
  assert (H1 : is_ascii "cat" = true) by reflexivity.
  assert (H2 : 1 <= 151) by lia.
  assert (H3 : 0 < 53 <= INT_MAX) by (split; [lia|vm_compute; discriminate]).
  assert (H4 : 151 ^ Z.of_nat (String.length "cat") < 2 ^ 53) by reflexivity.
  split; [exact H1|]. split; [exact H2|]. split; [exact H3|].
  split; [exact H4|].
  exact (ht_hash_is_pseudocode "cat" 151 53 H1 H2 H3 H4).
Defined.

(** X20.  The hash of a one-character key does not depend on the base:
    [pow(a, 0)] is 1, so [ht_hash] is the character code modulo the bucket
    count, and the two hashes of [ht_get_hash] are equal for any two
    bases. *)
Theorem one_char_key_hash (c : ascii) (m a b : Z) :
  1 <= char_code c <= 127 -> 0 < m ->
  ht_hash (String c EmptyString) a m = char_code c mod m /\
  ht_hash (String c EmptyString) a m = ht_hash (String c EmptyString) b m.
Proof.
  intros Hc Hm. rewrite !ht_hash_one_char by assumption.
  split; [|reflexivity]. apply Z.rem_mod_nonneg; lia.
Qed.

Lemma one_char_key_hash_witness :
  1 <= char_code "4" <= 127 /\ 0 < 53 /\
  ht_hash "4" 151 53 = char_code "4" mod 53 /\
  ht_hash "4" 151 53 = ht_hash "4" 163 53.
Proof.
  assert (H1 : 1 <= char_code "4" <= 127) by (split; vm_compute; discriminate).
  assert (H2 : 0 < 53) by lia.
  split; [exact H1|]. split; [exact H2|].
  exact (one_char_key_hash "4" 53 151 163 H1 H2).
Defined.

Lemma probe_state_stuck `{hash_primes} (key : string) (m : Z) (a : nat) :
  0 <= ht_hash key HT_PRIME_1 m < m -> ht_hash key HT_PRIME_2 m = m - 1 ->
  (Z.of_nat a + 1) * m <= INT_MAX ->
  probe_state key m a = (ht_hash key HT_PRIME_1 m, Z.of_nat a + 1).
Proof.
  intros Ha Hb. induction a as [|a IH]; intros Hmax.
  - cbn [probe_state]. rewrite ht_get_hash_stuck by (assumption || lia).
    reflexivity.
  - cbn [probe_state]. rewrite IH by nia. cbn [snd].
    rewrite ht_get_hash_stuck by (assumption || lia).
    rewrite int32_small by (unfold INT_MIN, INT_MAX in *; nia).
    f_equal. lia.
Qed.

(** X21.  A key whose second hash is [size - 1] has the bucket count as
    its step: every attempt whose product with [size] is an [int] probes
    the bucket of the first hash.  When that bucket holds another key,
    [ht_search] has not returned after that many probes. *)
Theorem step_of_bucket_count_stays (hp : hash_primes) (ht : ht_hash_table)
    (key k v : string) (n : nat) :
  0 <= ht_hash key HT_PRIME_1 (size ht) < size ht ->
  ht_hash key HT_PRIME_2 (size ht) = size ht - 1 ->
  bucket ht (ht_hash key HT_PRIME_1 (size ht)) = Ret (Item k v) -> k <> key ->
  (Z.of_nat n + 1) * size ht <= INT_MAX ->
  ht_get_hash key (size ht) (Z.of_nat n) = ht_hash key HT_PRIME_1 (size ht) /\
  ht_search n ht key = OutOfFuel.
Proof.
  intros Ha Hb Hit Hne Hmax. split.
  - apply ht_get_hash_stuck; try assumption. lia.
  - apply (search_short_of_item ht key n n); [|lia].
    intros a' Ha'. exists (Item k v). unfold probe_index.
    rewrite probe_state_stuck by (assumption || nia).
    split; [exact Hit|]. split; [reflexivity|].
    simpl. apply String.eqb_neq. exact Hne.
Qed.

Lemma step_of_bucket_count_stays_witness :
  0 <= ht_hash "4" (@HT_PRIME_1 tutorial_primes) (size (single_53 "i" "x"))
    < size (single_53 "i" "x") /\
  ht_hash "4" (@HT_PRIME_2 tutorial_primes) (size (single_53 "i" "x"))
  = size (single_53 "i" "x") - 1 /\
  bucket (single_53 "i" "x")
    (ht_hash "4" (@HT_PRIME_1 tutorial_primes) (size (single_53 "i" "x")))
  = Ret (Item "i" "x") /\
  "i"%string <> "4"%string /\
  (Z.of_nat 1000 + 1) * size (single_53 "i" "x") <= INT_MAX /\
  @ht_get_hash tutorial_primes "4" (size (single_53 "i" "x")) (Z.of_nat 1000)
  = ht_hash "4" (@HT_PRIME_1 tutorial_primes) (size (single_53 "i" "x")) /\
  @ht_search tutorial_primes 1000 (single_53 "i" "x") "4" = OutOfFuel.
Proof.
  assert (H1 : 0 <= ht_hash "4" (@HT_PRIME_1 tutorial_primes)
                      (size (single_53 "i" "x")) < size (single_53 "i" "x"))
    by (split; [vm_compute; discriminate|reflexivity]).
  assert (H2 : ht_hash "4" (@HT_PRIME_2 tutorial_primes)
                 (size (single_53 "i" "x")) = size (single_53 "i" "x") - 1)
    by reflexivity.
  assert (H3 : bucket (single_53 "i" "x")
                 (ht_hash "4" (@HT_PRIME_1 tutorial_primes)
                    (size (single_53 "i" "x")))
               = Ret (Item "i" "x")) by reflexivity.
  assert (H4 : "i"%string <> "4"%string) by discriminate.
  assert (H5 : (Z.of_nat 1000 + 1) * size (single_53 "i" "x") <= INT_MAX)
    by (vm_compute; discriminate).
  split; [exact H1|]. split; [exact H2|]. split; [exact H3|].
  split; [exact H4|]. split; [exact H5|].
  exact (step_of_bucket_count_stays tutorial_primes (single_53 "i" "x")
           "4" "i" "x" 1000 H1 H2 H3 H4 H5).
Defined.

(** * Tables that are only inserted into *)

(** X22.  A table without a deleted bucket and with an exact [count] is
    still such a table after any sequence of insertions that returns,
    resizes included, and [ht_del_hash_table] then frees it without
    touching the sentinel. *)
Theorem insert_only_table_is_clean (hp : hash_primes) (n : nat)
    (ks : list string) (ht ht' : ht_hash_table) :
  (HT_DELETED_ITEM ∉ items ht) -> counted ht ->
  insert_all n ht ks = Ret ht' ->
  (HT_DELETED_ITEM ∉ items ht') /\ counted ht' /\
  ht_del_hash_table ht' = Ret tt.
Proof.
  revert ht. induction ks as [|k ks IH]; intros ht Hno Hc Hrun.
  - injection Hrun as <-. split; [exact Hno|]. split; [exact Hc|].
    unfold ht_del_hash_table.
    destruct (del_items_outcome (items ht)) as [[_ E]|[Hd _]];
      [exact E|contradiction].
  - cbn [insert_all] in Hrun.
    destruct (ht_insert n ht k "v") as [ht1| |] eqn:Hins; cbn [bind] in Hrun;
      try discriminate.
    apply (IH ht1); [| |exact Hrun].
    + eapply ht_insert_no_tombstone; eassumption.
    + eapply ht_insert_counted; eassumption.
Qed.

Lemma insert_only_table_is_clean_witness :
  (HT_DELETED_ITEM ∉ items empty_53) /\ counted empty_53 /\
  @insert_all tutorial_primes 8 empty_53 (keys 65 38) = Ret full_53 /\
  (HT_DELETED_ITEM ∉ items full_53) /\ counted full_53 /\
  ht_del_hash_table full_53 = Ret tt.
Proof.
  assert (H1 : HT_DELETED_ITEM ∉ items empty_53).
  { apply (bool_decide_unpack _). vm_compute. reflexivity. }
  assert (H2 : counted empty_53).
  { split; [reflexivity|]. split; [reflexivity|]. vm_compute. discriminate. }
  assert (H3 : @insert_all tutorial_primes 8 empty_53 (keys 65 38)
               = Ret full_53) by (vm_compute; reflexivity).
  split; [exact H1|]. split; [exact H2|]. split; [exact H3|].
  exact (insert_only_table_is_clean tutorial_primes 8 (keys 65 38) empty_53
           full_53 H1 H2 H3).
Defined.

(** * A resize and the deleted buckets *)

Section FreesSentinel.

Context `{hash_primes}.

(** An insertion whose load check asks for a resize that is carried out
    does not return on a table with a deleted bucket: [ht_resize] gives
    the old array to [ht_del_hash_table], which frees the sentinel. *)
Lemma ht_insert_frees_sentinel (n : nat) (ht : ht_hash_table)
    (key value : string) (l : Z) (r : ht_hash_table) :
  HT_DELETED_ITEM ∈ items ht -> load ht = Ret l -> 70 < l ->
  HT_INITIAL_BASE_SIZE <= int32 (base_size ht * 2) ->
  ht_insert n ht key value <> Ret r.
Proof.
  intros Hd Hl Hgt Hmin Hrun. destruct n as [|n]; [discriminate|].
  rewrite ht_insert_unfold, Hl in Hrun. cbn [bind] in Hrun.
  destruct (Z.ltb_spec 70 l); [|lia].
  destruct (ht_resize_up n ht) as [ht1| |] eqn:Hres; cbn [bind] in Hrun;
    try discriminate.
  apply (resize_with_tombstone _ _ _ _ _ Hd) in Hres as [Hlt _]. lia.
Qed.

Lemma ht_delete_frees_sentinel (n : nat) (ht : ht_hash_table) (key : string)
    (l : Z) (r : ht_hash_table) :
  HT_DELETED_ITEM ∈ items ht -> load ht = Ret l -> l < 10 ->
  HT_INITIAL_BASE_SIZE <= Z.quot (base_size ht) 2 ->
  ht_delete n ht key <> Ret r.
Proof.
  intros Hd Hl Hlt Hmin Hrun. unfold ht_delete in Hrun.
  rewrite Hl in Hrun. cbn [bind] in Hrun.
  destruct (Z.ltb_spec l 10); [|lia].
  destruct (ht_resize_down n ht) as [ht1| |] eqn:Hres; cbn [bind] in Hrun;
    try discriminate.
  apply (resize_with_tombstone _ _ _ _ _ Hd) in Hres as [Hlow _]. lia.
Qed.

(** What [ht_resize] returns when the base size is not below the
    minimum. *)
Lemma ht_resize_rebuilt (n : nat) (ht : ht_hash_table) (base : Z)
    (ht1 : ht_hash_table) :
  HT_INITIAL_BASE_SIZE <= base <= INT_MAX ->
  ht_resize n ht base = Ret ht1 -> rebuilt n ht base ht1.
Proof.
  intros Hb Hrun. unfold rebuilt.
  assert (Hint : INT_MIN <= base <= INT_MAX).
  { unfold HT_INITIAL_BASE_SIZE, INT_MIN, INT_MAX in *. lia. }
  split; [exact Hrun|].
  split.
  { intros Hd. apply (resize_with_tombstone _ _ _ _ _ Hd) in Hrun as [Hlt _].
    lia. }
  split.
  { eapply (resize_with_rebuilt (fun t => HT_DELETED_ITEM ∉ items t));
      [| |apply Hb|exact Hrun].
    - intros t k v t'. apply ht_insert_no_tombstone.
    - intros new_ht. apply ht_new_sized_no_tombstone. }
  split.
  { eapply (resize_with_rebuilt counted); [| |apply Hb|exact Hrun].
    - intros t k v t'. apply ht_insert_counted.
    - intros new_ht. apply ht_new_sized_counted, Hint. }
  split.
  { eapply (resize_with_rebuilt capacity_ok); [| |apply Hb|exact Hrun].
    - intros t k v t'. apply ht_insert_capacity.
    - intros new_ht. apply ht_new_sized_capacity, Hb. }
  split.
  { enough (Hfrom : base_from base ht1) by apply Hfrom.
    eapply (resize_with_rebuilt (base_from base)); [| |apply Hb|exact Hrun].
    - intros t k v t'. apply ht_insert_base_from.
    - intros new_ht Hnew.
      apply ht_new_sized_inv in Hnew as (p & _ & Hbase & _).
      unfold base_from. rewrite Hbase. lia. }
  split.
  { unfold ht_resize, resize_with in Hrun.
    destruct (Z.ltb_spec base HT_INITIAL_BASE_SIZE); [lia|].
    destruct (ht_new_sized n base) as [new_ht| |] eqn:Hnew; simpl in Hrun;
      try discriminate.
    destruct (rehash (ht_insert n) (items ht) new_ht) as [ht2| |] eqn:Hre;
      simpl in Hrun; try discriminate.
    destruct (ht_del_hash_table ht); simpl in Hrun; try discriminate.
    injection Hrun as ->.
    apply ht_new_sized_inv in Hnew as (p & Hp & Hbase & Hsize & Hcount & _).
    exists p. split; [exact Hp|]. intros Hfew Hmax.
    pose proof (next_prime_sound _ _ _ Hint Hp) as (_ & Hle).
    unfold HT_INITIAL_BASE_SIZE in *.
    apply rehash_no_resize in Hre; rewrite ?Hsize, ?Hcount; lia. }
  intros Hreach.
  apply (ht_resize_bindings n ht base ht1); [|exact Hrun].
  apply reachable_placed, Hreach.
Qed.

End FreesSentinel.

(** C5 (amended).  Both [ht_insert] and [ht_delete] test the load
    [l = count * 100 / size] of the table as it is when the call begins.
    When [l <= 70] (for [ht_delete]: [10 <= l]), or when the requested
    base size is below [HT_INITIAL_BASE_SIZE], the call is the probe loop
    on the table as it is, and base size and capacity stay.  When
    [l > 70] [ht_insert] resizes to the doubled base size, and when
    [l < 10] [ht_delete] resizes to half the base size: the probe loop
    runs on the table that [ht_resize] has built -- and the call does
    not return when a bucket holds the sentinel, which [ht_resize]
    frees with the old array. *)
Theorem load_factor_policy (hp : hash_primes) (n : nat) (ht : ht_hash_table)
    (key value : string) (l : Z) :
  load ht = Ret l -> INT_MIN <= base_size ht <= INT_MAX ->
  (l <= 70 \/ int32 (base_size ht * 2) < HT_INITIAL_BASE_SIZE ->
     ht_insert (S n) ht key value
     = insert_loop n ht key value (ht_get_hash key (size ht) 0) 1 /\
     forall ht', ht_insert (S n) ht key value = Ret ht' ->
       base_size ht' = base_size ht /\ size ht' = size ht) /\
  (70 < l -> HT_INITIAL_BASE_SIZE <= int32 (base_size ht * 2) ->
     (HT_DELETED_ITEM ∈ items ht ->
      forall ht', ht_insert (S n) ht key value <> Ret ht') /\
     forall ht', ht_insert (S n) ht key value = Ret ht' ->
       exists ht1,
         rebuilt n ht (int32 (base_size ht * 2)) ht1 /\
         insert_loop n ht1 key value (ht_get_hash key (size ht1) 0) 1
         = Ret ht') /\
  (10 <= l \/ Z.quot (base_size ht) 2 < HT_INITIAL_BASE_SIZE ->
     ht_delete n ht key
     = delete_loop n ht key (ht_get_hash key (size ht) 0) 1 /\
     forall ht', ht_delete n ht key = Ret ht' ->
       base_size ht' = base_size ht /\ size ht' = size ht) /\
  (l < 10 -> HT_INITIAL_BASE_SIZE <= Z.quot (base_size ht) 2 ->
     (HT_DELETED_ITEM ∈ items ht ->
      forall ht', ht_delete n ht key <> Ret ht') /\
     forall ht', ht_delete n ht key = Ret ht' ->
       exists ht1,
         rebuilt n ht (Z.quot (base_size ht) 2) ht1 /\
         delete_loop n ht1 key (ht_get_hash key (size ht1) 0) 1 = Ret ht').
Proof.
  intros Hl Hbase.
  assert (Hup : int32 (base_size ht * 2) <= INT_MAX)
    by apply int32_range.
  assert (Hdown : Z.quot (base_size ht) 2 <= INT_MAX).
  { pose proof (Z.quot_rem' (base_size ht) 2) as Hq.
    pose proof (Z.rem_bound_abs (base_size ht) 2 ltac:(lia)) as Hr.
    unfold INT_MIN, INT_MAX in *. lia. }
  split; [|split; [|split]].
  - intros Hno.
    assert (Heq : ht_insert (S n) ht key value
                  = insert_loop n ht key value (ht_get_hash key (size ht) 0) 1).
    { rewrite ht_insert_unfold, Hl. cbn [bind].
      destruct (Z.ltb_spec 70 l) as [Hgt|_]; [|reflexivity].
      unfold ht_resize_up. rewrite ht_resize_below_minimum by lia.
      reflexivity. }
    split; [exact Heq|]. intros ht' Hrun. rewrite Heq in Hrun.
    apply insert_loop_shape in Hrun as (Hb & Hs & _). auto.
  - intros Hgt Hmin. split.
    + intros Hd ht'. eapply ht_insert_frees_sentinel; eassumption.
    + intros ht' Hrun. rewrite ht_insert_unfold, Hl in Hrun.
      cbn [bind] in Hrun. destruct (Z.ltb_spec 70 l); [|lia].
      destruct (ht_resize_up n ht) as [ht1| |] eqn:Hres; cbn [bind] in Hrun;
        try discriminate.
      exists ht1. split; [|exact Hrun].
      apply ht_resize_rebuilt; [lia|exact Hres].
  - intros Hno.
    assert (Heq : ht_delete n ht key
                  = delete_loop n ht key (ht_get_hash key (size ht) 0) 1).
    { unfold ht_delete. rewrite Hl. cbn [bind].
      destruct (Z.ltb_spec l 10) as [Hlt|_]; [|reflexivity].
      unfold ht_resize_down. rewrite ht_resize_below_minimum by lia.
      reflexivity. }
    split; [exact Heq|]. intros ht' Hrun. rewrite Heq in Hrun.
    apply delete_loop_shape in Hrun as (Hb & Hs & _). auto.
  - intros Hlt Hmin. split.
    + intros Hd ht'. eapply ht_delete_frees_sentinel; eassumption.
    + intros ht' Hrun. unfold ht_delete in Hrun. rewrite Hl in Hrun.
      cbn [bind] in Hrun. destruct (Z.ltb_spec l 10); [|lia].
      destruct (ht_resize_down n ht) as [ht1| |] eqn:Hres; cbn [bind] in Hrun;
        try discriminate.
      exists ht1. split; [|exact Hrun].
      apply ht_resize_rebuilt; [lia|exact Hres].
Qed.

Lemma load_factor_policy_witness :
  (load full_53 = Ret 71 /\ INT_MIN <= base_size full_53 <= INT_MAX /\
   exists ht' ht1,
     @ht_insert tutorial_primes 9 full_53 "z" "v" = Ret ht' /\
     base_size ht' = 100 /\ size ht' = 101 /\ count ht' = 39 /\
     @rebuilt tutorial_primes 8 full_53 (int32 (base_size full_53 * 2)) ht1 /\
     @insert_loop tutorial_primes 8 ht1 "z" "v"
       (@ht_get_hash tutorial_primes "z" (size ht1) 0) 1 = Ret ht') /\
  (load drifted_101 = Ret 9 /\ INT_MIN <= base_size drifted_101 <= INT_MAX /\
   exists u' u1,
     @ht_delete tutorial_primes 16 drifted_101 "0" = Ret u' /\
     count drifted_101 = 10 /\ count u' = 38 /\
     @rebuilt tutorial_primes 16 drifted_101
       (Z.quot (base_size drifted_101) 2) u1 /\
     @delete_loop tutorial_primes 16 u1 "0"
       (@ht_get_hash tutorial_primes "0" (size u1) 0) 1 = Ret u') /\
  (load crowded_53 = Ret 71 /\ INT_MIN <= base_size crowded_53 <= INT_MAX /\
   (HT_DELETED_ITEM ∈ items crowded_53) /\
   forall ht', @ht_insert tutorial_primes 9 crowded_53 "z" "v" <> Ret ht').
Proof.
  split; [|split].
  - assert (Hl : load full_53 = Ret 71) by reflexivity.
    assert (Hb : INT_MIN <= base_size full_53 <= INT_MAX)
      by (split; vm_compute; discriminate).
    split; [exact Hl|]. split; [exact Hb|].
    assert (Hrun : exists ht',
              @ht_insert tutorial_primes 9 full_53 "z" "v" = Ret ht' /\
              base_size ht' = 100 /\ size ht' = 101 /\ count ht' = 39).
    { eexists. split; [vm_compute; reflexivity|]. repeat split. }
    destruct Hrun as (ht' & Hrun & Hbs & Hsz & Hc).
    destruct (load_factor_policy tutorial_primes 8 full_53 "z" "v" 71 Hl Hb)
      as (_ & Hup & _ & _).
    assert (Hgt : 70 < 71) by lia.
    assert (Hmin : HT_INITIAL_BASE_SIZE <= int32 (base_size full_53 * 2))
      by (vm_compute; discriminate).
    destruct (Hup Hgt Hmin) as (_ & Hret).
    destruct (Hret ht' Hrun) as (ht1 & Hreb & Hloop).
    exists ht', ht1. auto 10.
  - assert (Hl : load drifted_101 = Ret 9) by reflexivity.
    assert (Hb : INT_MIN <= base_size drifted_101 <= INT_MAX)
      by (split; vm_compute; discriminate).
    split; [exact Hl|]. split; [exact Hb|].
    assert (Hrun : exists u',
              @ht_delete tutorial_primes 16 drifted_101 "0" = Ret u' /\
              count drifted_101 = 10 /\ count u' = 38).
    { eexists. split; [vm_compute; reflexivity|]. split; reflexivity. }
    destruct Hrun as (u' & Hrun & Hc0 & Hc).
    destruct (load_factor_policy tutorial_primes 16 drifted_101 "0" "" 9 Hl Hb)
      as (_ & _ & _ & Hdown).
    assert (Hlt : 9 < 10) by lia.
    assert (Hmin : HT_INITIAL_BASE_SIZE <= Z.quot (base_size drifted_101) 2)
      by (vm_compute; discriminate).
    destruct (Hdown Hlt Hmin) as (_ & Hret).
    destruct (Hret u' Hrun) as (u1 & Hreb & Hloop).
    exists u', u1. auto 10.
  - assert (Hl : load crowded_53 = Ret 71) by reflexivity.
    assert (Hb : INT_MIN <= base_size crowded_53 <= INT_MAX)
      by (split; vm_compute; discriminate).
    assert (Hd : HT_DELETED_ITEM ∈ items crowded_53).
    { apply (bool_decide_unpack _). vm_compute. reflexivity. }
    split; [exact Hl|]. split; [exact Hb|]. split; [exact Hd|].
    destruct (load_factor_policy tutorial_primes 8 crowded_53 "z" "v" 71 Hl Hb)
      as (_ & Hup & _ & _).
    assert (Hgt : 70 < 71) by lia.
    assert (Hmin : HT_INITIAL_BASE_SIZE <= int32 (base_size crowded_53 * 2))
      by (vm_compute; discriminate).
    destruct (Hup Hgt Hmin) as (Hnever & _).
    exact (Hnever Hd).
Defined.

(** * Calls that free the sentinel *)

(** C1 (failing input).  The table after [ht_new()], the insertion of
    ["A"], ..., ["f"], [ht_delete(ht, "A")] and [ht_insert(ht, "y", "v")]
    holds 38 items and one deleted bucket, a load of 71.  The call
    [ht_insert(ht, "z", "w")] resizes, and [ht_resize] frees the sentinel
    with the old array: the insertion does not return, and no search
    follows it. *)
Theorem insert_frees_sentinel_no_search (hp : hash_primes) :
  exists t,
    (let* t0 := ht_new 8 in
     let* t1 := insert_all 8 t0 (keys 65 38) in
     let* t2 := ht_delete 8 t1 "A" in
     ht_insert 8 t2 "y" "v") = Ret t /\
    load t = Ret 71 /\ (HT_DELETED_ITEM ∈ items t) /\
    ht_insert 8 t "z" "w" = Fault /\
    insert_then_search_run 8 t "z" "w" "z" = Fault /\
    forall (n : nat) (r : option string),
      insert_then_search_run n t "z" "w" "z" <> Ret r.
Proof.
  exists crowded_53.
  assert (Hd : HT_DELETED_ITEM ∈ items crowded_53).
  { apply (bool_decide_unpack _). vm_compute. reflexivity. }
  split; [vm_compute; reflexivity|].
  split; [reflexivity|]. split; [exact Hd|].
  split; [vm_compute; reflexivity|].
  split; [vm_compute; reflexivity|].
  intros n r. unfold insert_then_search_run.
  destruct (ht_insert n crowded_53 "z" "w") as [t1| |] eqn:Hins;
    try discriminate.
  exfalso. revert Hins.
  apply (ht_insert_frees_sentinel n crowded_53 "z" "w" 71);
    [exact Hd|reflexivity|lia|vm_compute; discriminate].
Qed.

(** C3 (failing input).  The table after [ht_new()], the insertion of
    ["A"], ..., ["f"] and [ht_delete(ht, "A")] holds 37 items and one
    deleted bucket.  The keys ["2"] and ["g"] both hash to bucket 50.
    [ht_insert(ht, "2", "x")] returns and leaves a load of 71;
    [ht_insert(ht, "g", "y")] resizes and frees the sentinel: the run
    does not reach [ht_delete(ht, "2")] and the search for ["g"]. *)
Theorem tombstone_run_frees_sentinel (hp : hash_primes) :
  exists t,
    (let* t0 := ht_new 8 in
     let* t1 := insert_all 8 t0 (keys 65 38) in
     ht_delete 8 t1 "A") = Ret t /\
    "2"%string <> "g"%string /\
    ht_get_hash "2" (size t) 0 = 50 /\ ht_get_hash "g" (size t) 0 = 50 /\
    (exists t1, ht_insert 8 t "2" "x" = Ret t1 /\ load t1 = Ret 71 /\
                ht_insert 8 t1 "g" "y" = Fault) /\
    tombstone_run 8 t "2" "x" "g" "y" = Fault /\
    forall (n : nat) (r : option string),
      tombstone_run n t "2" "x" "g" "y" <> Ret r.
Proof.
  exists worn_53.
  split; [vm_compute; reflexivity|].
  split; [discriminate|].
  split; [vm_compute; reflexivity|].
  split; [vm_compute; reflexivity|].
  split.
  { eexists. split; [vm_compute; reflexivity|].
    split; vm_compute; reflexivity. }
  split; [vm_compute; reflexivity|].
  intros n r. unfold tombstone_run.
  destruct (ht_insert n worn_53 "2" "x") as [t1| |] eqn:H1; try discriminate.
  cbn [bind].
  destruct (ht_insert n t1 "g" "y") as [t2| |] eqn:H2; try discriminate.
  exfalso. revert H2.
  assert (Ht1 : t1 = set_count (store worn_53 50 (Item "2" "x")) 38).
  { destruct n as [|[|n]]; [discriminate|vm_compute in H1; discriminate|].
    vm_compute in H1. injection H1 as <-. reflexivity. }
  subst t1.
  apply (ht_insert_frees_sentinel n _ "g" "y" 71);
    [|reflexivity|lia|vm_compute; discriminate].
  apply (bool_decide_unpack _). vm_compute. reflexivity.
Qed.

(** C10 (failing input).  In the same table of 38 items and one deleted
    bucket [ht_search(ht, "B")] returns ["v"].  The call
    [ht_insert(ht, "z", "w")], with another key, resizes and frees the
    sentinel: it does not return, and the search for ["B"] that gave
    ["v"] before the insertion gives nothing after it. *)
Theorem insert_loses_search_of_other_key (hp : hash_primes) :
  exists t,
    (let* t0 := ht_new 8 in
     let* t1 := insert_all 8 t0 (keys 65 38) in
     let* t2 := ht_delete 8 t1 "A" in
     ht_insert 8 t2 "y" "v") = Ret t /\
    "B"%string <> "z"%string /\
    ht_search 8 t "B" = Ret (Some "v"%string) /\
    insert_then_search_run 8 t "z" "w" "B" = Fault /\
    forall (n : nat) (r : option string),
      insert_then_search_run n t "z" "w" "B" <> Ret r.
Proof.
  exists crowded_53.
  split; [vm_compute; reflexivity|].
  split; [discriminate|].
  split; [vm_compute; reflexivity|].
  split; [vm_compute; reflexivity|].
  intros n r. unfold insert_then_search_run.
  destruct (ht_insert n crowded_53 "z" "w") as [t1| |] eqn:Hins;
    try discriminate.
  exfalso. revert Hins.
  apply (ht_insert_frees_sentinel n crowded_53 "z" "w" 71);
    [|reflexivity|lia|vm_compute; discriminate].
  apply (bool_decide_unpack _). vm_compute. reflexivity.
Qed.
